(** * ClusterShell node sets: a shallow embedding of [lib/ClusterShell/NodeSet.py]

    The Python module keeps node sets as a dictionary from pattern templates
    to [RangeSet] objects (or [None] for an unnumbered node) and mutates
    these objects in place.  The embedding therefore has an explicit store of
    [RangeSet] objects and of [NodeSetBase] objects, addressed by object
    identities, and a state-and-exception monad in which the methods of the
    module are written statement by statement. *)

From Stdlib Require Import ZArith Ascii String List Lia.
From stdpp Require Import base tactics option list sorting gmap strings.

Local Open Scope string_scope.
Local Open Scope list_scope.
Local Open Scope Z_scope.

(** ** Exceptions and results *)

(** The exception classes raised by the module (builtin ones and its own).
    [NodeSetParseError] carries the [part] attribute and the message given to
    its constructor; [NodeSetParseRangeError] is its subclass.  [MissingMember]
    is the strict-difference error of the RangeSet engine. *)
Inductive exn : Type :=
  | TypeError (msg : string)
  | KeyError (key : string)
  | MissingMember (i : Z)
  | IndexError (msg : string)
  | ValueError (msg : string)
  | AssertionError
  | AttributeError (attr : string)
  | RuntimeError (msg : string)
  | ZeroDivisionError
  | SystemError (msg : string)
  | RangeSetParseError (part : string) (msg : string)
  | NodeSetParseError (part : option string) (msg : string)
  | NodeSetParseRangeError (part : option string) (msg : string)
  | NodeSetExternalError (msg : string)
  | GroupSourceQueryFailed (msg : string)
  | GroupSourceNoUpcall (msg : string).

Inductive res (A : Type) : Type :=
  | Ok (a : A)
  | Raise (e : exn).
Arguments Ok {A} a.
Arguments Raise {A} e.

(** A missing-member error is a [KeyError] (raised by [NodeSetBase]) or the
    RangeSet engine's [MissingMember]. *)
Definition is_missing_member (e : exn) : bool :=
  match e with
  | KeyError _ | MissingMember _ => true
  | _ => false
  end.


Definition is_TypeError {A} (r : res A) : bool :=
  match r with
  | Raise (TypeError _) => true
  | _ => false
  end.

(** ** RangeSet values *)

(** Modelled from the spec: the [RangeSet] class lives in
    [ClusterShell/RangeSet.py], which is not part of the verified sources.
    Following sections 3 and 4.1 of the specification a RangeSet is a set of
    integers with a padding width ([0]: no leading zeros) and an autostep
    threshold ([None]: never fold arithmetic progressions). *)
Record RangeSet : Type := mkRangeSet {
  rs_members : gset Z;
  padding : nat;
  autostep : option Z
}.

Definition rs_len (r : RangeSet) : Z := Z.of_nat (size (rs_members r)).

(** Members in ascending order ([RangeSet._sorted]). *)
Definition rs_sorted (r : RangeSet) : list Z :=
  merge_sort Z.le (elements (rs_members r)).

Definition rs_with (r : RangeSet) (s : gset Z) : RangeSet :=
  {| rs_members := s; padding := padding r; autostep := autostep r |}.

(** [RangeSet.fromone(value, pad)] *)
Definition rs_fromone (i : Z) (pad : nat) : RangeSet :=
  {| rs_members := {[ i ]}; padding := pad; autostep := None |}.

(** ** Python values, objects and the store *)

Definition loc := positive.

(** The values a method of the module can receive as an operand. *)
Inductive value : Type :=
  | VNone
  | VInt (z : Z)
  | VStr (s : string)
  | VSlice (start stop step : option Z)
  | VRangeSet (l : loc)
  | VNodeSet (l : loc)
  | VNotImplemented
  | VBool (b : bool)
  | VObject.

(** The external group resolver (interface of section 6 of the specification):
    [group_nodes name namespace]. *)
Record resolver : Type := {
  group_nodes : string → option string → res (list string)
}.

(** [ParsingEngine] objects only carry their resolver. *)
Record parsing_engine : Type := {
  group_resolver : option resolver
}.

(** The attributes that [NodeSet.__init__] adds to the ones set by
    [NodeSetBase.__init__]. *)
Record nodeset_attrs : Type := {
  _autostep : option Z;
  _resolver : option resolver;
  _parser : parsing_engine
}.

Inductive klass : Type := CNodeSetBase | CNodeGroupBase | CNodeSet.

(** An instance of [NodeSetBase] or of one of its subclasses.  [_patterns]
    maps a template to a reference to a RangeSet object, or to [None]. *)
Record nodeset_obj : Type := {
  ob_class : klass;
  _length : Z;
  _patterns : gmap string (option loc);
  ob_attrs : option nodeset_attrs
}.

(** The store: the RangeSet objects, the node set objects, the next unused
    object identity and the module global [STD_GROUP_RESOLVER]. *)
Record state : Type := {
  rsets : gmap loc RangeSet;
  nsets : gmap loc nodeset_obj;
  next_loc : loc;
  STD_GROUP_RESOLVER : resolver
}.

Definition init_state (std : resolver) : state :=
  {| rsets := ∅; nsets := ∅; next_loc := 1%positive;
     STD_GROUP_RESOLVER := std |}.

(** ** The state-and-exception monad *)

Definition M (A : Type) : Type := state → res A * state.

Definition ret {A} (a : A) : M A := λ st, (Ok a, st).

Definition bind {A B} (m : M A) (k : A → M B) : M B :=
  λ st, match m st with
        | (Ok a, st') => k a st'
        | (Raise e, st') => (Raise e, st')
        end.

Definition raise {A} (e : exn) : M A := λ st, (Raise e, st).

Declare Scope py_scope.
Delimit Scope py_scope with py.
Notation "'do' x <- m ; k" := (bind m (λ x, k))
  (at level 10, x name, m at level 100, k at level 200,
   format "'[v' 'do'  x  <-  m ; '/' k ']'") : py_scope.
Notation "'do' ' p <- m ; k" := (bind m (λ x, match x with p => k end))
  (at level 10, p pattern, m at level 100, k at level 200) : py_scope.
Notation "m ;; k" := (bind m (λ _, k))
  (at level 100, k at level 200, right associativity) : py_scope.
Local Open Scope py_scope.

(** A [for] loop over a list, threading the local variables [acc] that the
    body updates. *)
Fixpoint for_fold {A B} (l : list A) (acc : B) (body : A → B → M B) : M B :=
  match l with
  | [] => ret acc
  | x :: l' => do acc' <- body x acc; for_fold l' acc' body
  end.

Definition for_each {A} (l : list A) (body : A → M unit) : M unit :=
  for_fold l tt (λ x _, body x).

(** *** Store primitives *)

Definition read_rs (l : loc) : M RangeSet := λ st,
  match rsets st !! l with
  | Some r => (Ok r, st)
  | None => (Raise (SystemError "no such RangeSet object"), st)
  end.

Definition write_rs (l : loc) (r : RangeSet) : M unit := λ st,
  (Ok tt, {| rsets := <[l := r]> (rsets st); nsets := nsets st;
             next_loc := next_loc st;
             STD_GROUP_RESOLVER := STD_GROUP_RESOLVER st |}).

Definition alloc_rs (r : RangeSet) : M loc := λ st,
  (Ok (next_loc st),
   {| rsets := <[next_loc st := r]> (rsets st); nsets := nsets st;
      next_loc := Pos.succ (next_loc st);
      STD_GROUP_RESOLVER := STD_GROUP_RESOLVER st |}).

Definition read_ns (l : loc) : M nodeset_obj := λ st,
  match nsets st !! l with
  | Some o => (Ok o, st)
  | None => (Raise (SystemError "no such NodeSetBase object"), st)
  end.

Definition write_ns (l : loc) (o : nodeset_obj) : M unit := λ st,
  (Ok tt, {| rsets := rsets st; nsets := <[l := o]> (nsets st);
             next_loc := next_loc st;
             STD_GROUP_RESOLVER := STD_GROUP_RESOLVER st |}).

Definition alloc_ns (o : nodeset_obj) : M loc := λ st,
  (Ok (next_loc st),
   {| rsets := rsets st; nsets := <[next_loc st := o]> (nsets st);
      next_loc := Pos.succ (next_loc st);
      STD_GROUP_RESOLVER := STD_GROUP_RESOLVER st |}).

Definition get_std_resolver : M resolver := λ st, (Ok (STD_GROUP_RESOLVER st), st).

Definition set_patterns (o : nodeset_obj) (d : gmap string (option loc)) : nodeset_obj :=
  {| ob_class := ob_class o; _length := _length o; _patterns := d;
     ob_attrs := ob_attrs o |}.

(** [self._patterns.get(pat)]: [None] when the key is absent, and also when
    its value is [None]. *)
Definition patterns_get (self : loc) (pat : string) : M (option loc) :=
  do o <- read_ns self;
  ret (match _patterns o !! pat with Some v => v | None => None end).

(** [self._patterns.has_key(pat)] and [pat in self._patterns] *)
Definition patterns_has_key (self : loc) (pat : string) : M bool :=
  do o <- read_ns self;
  ret (bool_decide (is_Some (_patterns o !! pat))).

(** [self._patterns[pat] = v] *)
Definition patterns_set (self : loc) (pat : string) (v : option loc) : M unit :=
  do o <- read_ns self;
  write_ns self (set_patterns o (<[pat := v]> (_patterns o))).

(** [del self._patterns[pat]], a [KeyError] when the key is absent. *)
Definition patterns_del (self : loc) (pat : string) : M unit :=
  do o <- read_ns self;
  match _patterns o !! pat with
  | Some _ => write_ns self (set_patterns o (delete pat (_patterns o)))
  | None => raise (KeyError pat)
  end.

(** [for pat, rangeset in d._patterns.iteritems(): body].  Python 2 leaves
    the order of a dictionary unspecified; the model enumerates the keys in
    the order of [map_to_list].  The iterator is live: each step reads the
    current value of the key and fails when the dictionary changed size.
    [acc] holds the local variables updated by the body. *)
Definition iteritems {B} (d : loc) (acc : B)
    (body : string → option loc → B → M B) : M B :=
  do o <- read_ns d;
  for_fold (map_to_list (_patterns o)).*1 acc
    (λ pat acc,
      do o' <- read_ns d;
      if bool_decide (size (_patterns o') = size (_patterns o)) then
        match _patterns o' !! pat with
        | Some v => body pat v acc
        | None => raise (RuntimeError "dictionary changed during iteration")
        end
      else raise (RuntimeError "dictionary changed size during iteration")).

(** *** RangeSet objects *)

(** Modelled from the spec: the methods of [RangeSet] that [NodeSet.py] calls
    (section 4.1).  They work on the members and keep the padding and the
    autostep of the left operand (section 3).  An operand that is not a
    RangeSet ([None] in a pattern dictionary) is refused with [TypeError].
    A RangeSet is true in a boolean context when it has members. *)
Definition rs_arg (other : option loc) : M RangeSet :=
  match other with
  | Some o => read_rs o
  | None => raise (TypeError "Binary operation only permitted between sets")
  end.

Definition RangeSet_copy (self : loc) : M loc :=
  do r <- read_rs self; alloc_rs r.

Definition RangeSet_len (self : loc) : M Z :=
  do r <- read_rs self; ret (rs_len r).

Definition RangeSet_update (self : loc) (other : option loc) : M unit :=
  do o <- rs_arg other;
  do r <- read_rs self;
  write_rs self (rs_with r (rs_members r ∪ rs_members o)).

Definition RangeSet_intersection_update (self : loc) (other : option loc) : M unit :=
  do o <- rs_arg other;
  do r <- read_rs self;
  write_rs self (rs_with r (rs_members r ∩ rs_members o)).

(** Strict difference fails with [MissingMember i] on the first [i] of
    [other] that is not in [self]. *)
Definition RangeSet_difference_update (self : loc) (other : option loc)
    (strict : bool) : M unit :=
  do o <- rs_arg other;
  do r <- read_rs self;
  match (if strict then head (rs_sorted (rs_with o (rs_members o ∖ rs_members r)))
         else None) with
  | Some i => raise (MissingMember i)
  | None => write_rs self (rs_with r (rs_members r ∖ rs_members o))
  end.

Definition RangeSet_symmetric_difference_update (self : loc) (other : option loc) : M unit :=
  do o <- rs_arg other;
  do r <- read_rs self;
  write_rs self (rs_with r ((rs_members r ∖ rs_members o) ∪ (rs_members o ∖ rs_members r))).

Definition RangeSet_issuperset (self : loc) (other : option loc) : M bool :=
  do o <- rs_arg other;
  do r <- read_rs self;
  ret (bool_decide (rs_members o ⊆ rs_members r)).

(** The truth value of a dictionary entry: [None] is false, a RangeSet is
    true when it is not empty. *)
Definition truth (v : option loc) : M bool :=
  match v with
  | None => ret false
  | Some l => do n <- RangeSet_len l; ret (0 <? n)
  end.

(** A method call on a dictionary entry, which may be [None]. *)
Definition on_rangeset {A} (v : option loc) (meth : string) (f : loc → M A) : M A :=
  match v with
  | Some l => f l
  | None => raise (AttributeError meth)
  end.

(** [len(v)] of a dictionary entry *)
Definition len_entry (v : option loc) : M Z :=
  match v with
  | Some l => RangeSet_len l
  | None => raise (TypeError "object of type 'NoneType' has no len()")
  end.

Definition py_assert (b : bool) : M unit :=
  if b then ret tt else raise AssertionError.

(** ** NodeSetBase *)

Definition empty_NodeSetBase (c : klass) : nodeset_obj :=
  {| ob_class := c; _length := 0; _patterns := ∅; ob_attrs := None |}.

(** [NodeSetBase._binary_sanity_check]: the operand must be an instance of
    [NodeSetBase] (or of a subclass). *)
Definition _binary_sanity_check (other : value) : M loc :=
  match other with
  | VNodeSet l => ret l
  | _ => raise (TypeError "Binary operation only permitted between NodeSetBase")
  end.

(** [NodeSetBase._add] *)
Definition NodeSetBase__add (self : loc) (pat : string) (rangeset : option loc) : M unit :=
  do pat_e <- patterns_get self pat;
  do c <- truth pat_e;
  if c then
    py_assert (bool_decide (is_Some rangeset)) ;;
    on_rangeset pat_e "update" (λ e, RangeSet_update e rangeset)
  else
    do c <- truth rangeset;
    if c then
      do r <- on_rangeset rangeset "copy" RangeSet_copy;
      patterns_set self pat (Some r)
    else
      patterns_set self pat None.

(** [NodeGroupBase._add] *)
Definition NodeGroupBase__add (self : loc) (pat : string) (rangeset : option loc) : M unit :=
  (match pat with
   | String c _ =>
       if bool_decide (c ≠ "@"%char) then
         raise (ValueError "NodeGroup name must begin with character '@'")
       else ret tt
   | EmptyString => ret tt
   end) ;;
  NodeSetBase__add self pat rangeset.

(** [self._add(pat, rangeset)], resolved on the class of [self]. *)
Definition call__add (self : loc) (pat : string) (rangeset : option loc) : M unit :=
  do o <- read_ns self;
  match ob_class o with
  | CNodeGroupBase => NodeGroupBase__add self pat rangeset
  | _ => NodeSetBase__add self pat rangeset
  end.

(** [NodeSetBase.__init__(pattern, rangeset)] for the classes that do not
    override it; an empty [pattern] string counts as no pattern. *)
Definition NodeSetBase_new (c : klass) (pattern : option string)
    (rangeset : option loc) : M loc :=
  do self <- alloc_ns (empty_NodeSetBase c);
  match pattern with
  | Some (String _ _ as pat) => call__add self pat rangeset ;; ret self
  | _ =>
      do c <- truth rangeset;
      if c then raise (ValueError "missing pattern") else ret self
  end.

(** [NodeSetBase.__len__] *)
Definition NodeSetBase___len__ (self : loc) : M Z :=
  do o <- read_ns self;
  (fix loop (vs : list (option loc)) (cnt : Z) : M Z :=
     match vs with
     | [] => ret cnt
     | rangeset :: vs' =>
         do c <- truth rangeset;
         if c then do n <- len_entry rangeset; loop vs' (cnt + n)
         else loop vs' (cnt + 1)
     end) (map_to_list (_patterns o)).*2 0.

(** [NodeSetBase.issuperset] *)
Definition NodeSetBase_issuperset (self : loc) (other : value) : M bool :=
  do other <- _binary_sanity_check other;
  do oo <- read_ns other;
  (fix loop (items : list (string * option loc)) (status : bool) : M bool :=
     match items with
     | [] => ret status
     | (pat, erangeset) :: items' =>
         do rangeset <- patterns_get self pat;
         do c <- truth rangeset;
         do status <- (if c then
                         on_rangeset rangeset "issuperset"
                           (λ r, RangeSet_issuperset r erangeset)
                       else patterns_has_key self pat);
         if negb status then ret status else loop items' status
     end) (map_to_list (_patterns oo)) true.

(** [NodeSetBase.update] *)
Definition NodeSetBase_update (self : loc) (other : value) : M unit :=
  do other <- _binary_sanity_check other;
  iteritems other tt (λ pat rangeset _, call__add self pat rangeset).

(** The condition [not irangeset and pat in self._patterns] of
    [intersection_update]. *)
Definition both_unnumbered (self : loc) (pat : string) (irangeset : option loc) : M bool :=
  do c <- truth irangeset;
  if negb c then patterns_has_key self pat else ret false.

(** The first branch of the loop of [intersection_update]. *)
Definition intersect_rangesets (tmp_ns : loc) (pat : string)
    (rangeset irangeset : option loc) : M unit :=
  do rs <- on_rangeset rangeset "copy" RangeSet_copy;
  RangeSet_intersection_update rs irangeset ;;
  (* ignore pattern if empty rangeset *)
  do n <- RangeSet_len rs;
  if 0 <? n then call__add tmp_ns pat (Some rs) else ret tt.

(** [NodeSetBase.intersection_update], with its two identical [elif]
    branches. *)
Definition NodeSetBase_intersection_update (self : loc) (other : value) : M unit :=
  do other <- _binary_sanity_check other;
  if bool_decide (other = self) then ret tt
  else
    do tmp_ns <- NodeSetBase_new CNodeSetBase None None;
    iteritems other tt (λ pat irangeset _,
      do rangeset <- patterns_get self pat;
      do c <- truth rangeset;
      if c then intersect_rangesets tmp_ns pat rangeset irangeset
      else
        do c1 <- both_unnumbered self pat irangeset;
        if c1 then call__add tmp_ns pat None
        else
          do c2 <- both_unnumbered self pat irangeset;
          if c2 then call__add tmp_ns pat None
          else ret tt) ;;
    (* Substitute *)
    do t <- read_ns tmp_ns;
    do o <- read_ns self;
    write_ns self (set_patterns o (_patterns t)).

(** The same method with the second, duplicate [elif] branch removed (the
    reading of the specification, section 9). *)
Definition intersection_update_single_branch (self : loc) (other : value) : M unit :=
  do other <- _binary_sanity_check other;
  if bool_decide (other = self) then ret tt
  else
    do tmp_ns <- NodeSetBase_new CNodeSetBase None None;
    iteritems other tt (λ pat irangeset _,
      do rangeset <- patterns_get self pat;
      do c <- truth rangeset;
      if c then intersect_rangesets tmp_ns pat rangeset irangeset
      else
        do c1 <- both_unnumbered self pat irangeset;
        if c1 then call__add tmp_ns pat None
        else ret tt) ;;
    do t <- read_ns tmp_ns;
    do o <- read_ns self;
    write_ns self (set_patterns o (_patterns t)).

(** [for pat in purge_patterns: del self._patterns[pat]] *)
Definition purge (self : loc) (purge_patterns : list string) : M unit :=
  for_each purge_patterns (λ pat, patterns_del self pat).

(** [NodeSetBase.difference_update] *)
Definition NodeSetBase_difference_update (self : loc) (other : value)
    (strict : bool) : M unit :=
  do other <- _binary_sanity_check other;
  (* the purge of each empty pattern is done afterward to allow self = ns *)
  do purge_patterns <-
    iteritems other [] (λ pat erangeset purge_patterns,
      do rangeset <- patterns_get self pat;
      do c <- truth rangeset;
      if c then
        on_rangeset rangeset "difference_update"
          (λ r, RangeSet_difference_update r erangeset strict) ;;
        do n <- len_entry rangeset;
        if n =? 0 then ret (purge_patterns ++ [pat]) else ret purge_patterns
      else
        do k <- patterns_has_key self pat;
        if k then ret (purge_patterns ++ [pat])
        else if strict then raise (KeyError pat)
        else ret purge_patterns);
  purge self purge_patterns.

(** [NodeSetBase.symmetric_difference_update] *)
Definition NodeSetBase_symmetric_difference_update (self : loc) (other : value) : M unit :=
  do other <- _binary_sanity_check other;
  (* iterate over our rangesets *)
  do purge_patterns <-
    iteritems self [] (λ pat rangeset purge_patterns,
      do brangeset <- patterns_get other pat;
      do c <- truth brangeset;
      if c then
        on_rangeset rangeset "symmetric_difference_update"
          (λ r, RangeSet_symmetric_difference_update r brangeset) ;;
        ret purge_patterns
      else
        do k <- patterns_has_key other pat;
        if k then ret (purge_patterns ++ [pat]) else ret purge_patterns);
  (* iterate over other's rangesets *)
  iteritems other tt (λ pat brangeset _,
    do rangeset <- patterns_get self pat;
    do c <- truth rangeset;
    if c then ret tt
    else
      do k <- patterns_has_key self pat;
      if k then ret tt else call__add self pat brangeset) ;;
  (* check for patterns cleanup *)
  do purge_patterns <-
    iteritems self purge_patterns (λ pat rangeset purge_patterns,
      match rangeset with
      | Some r =>
          do n <- RangeSet_len r;
          if n =? 0 then ret (purge_patterns ++ [pat]) else ret purge_patterns
      | None => ret purge_patterns
      end);
  (* cleanup *)
  purge self purge_patterns.

(** ** Python string operations *)

(** The whitespace of [str.strip]: space, tab, newline, vertical tab, form
    feed and carriage return. *)
Definition is_space (c : ascii) : bool :=
  let n := nat_of_ascii c in
  ((n =? 32) || ((9 <=? n) && (n <=? 13)))%nat.

Definition is_digit (c : ascii) : bool :=
  let n := nat_of_ascii c in ((48 <=? n) && (n <=? 57))%nat.

Definition is_empty (s : string) : bool :=
  match s with EmptyString => true | String _ _ => false end.

Definition len (s : string) : Z := Z.of_nat (String.length s).

Fixpoint lstrip (s : string) : string :=
  match s with
  | String c s' => if is_space c then lstrip s' else s
  | EmptyString => EmptyString
  end.

Fixpoint rstrip (s : string) : string :=
  match s with
  | String c s' =>
      let r := rstrip s' in
      if is_empty r && is_space c then EmptyString else String c r
  | EmptyString => EmptyString
  end.

Definition strip (s : string) : string := lstrip (rstrip s).

(** [s.find(c)] for a one-character [c]: the first index, or [-1]. *)
Fixpoint find (c : ascii) (s : string) : Z :=
  match s with
  | EmptyString => -1
  | String a s' =>
      if Ascii.eqb a c then 0
      else let i := find c s' in if i <? 0 then -1 else i + 1
  end.

(** [s.split(c, 1)]: [None] stands for the one-element list returned when
    [c] does not occur. *)
Fixpoint split1 (c : ascii) (s : string) : option (string * string) :=
  match s with
  | EmptyString => None
  | String a s' =>
      if Ascii.eqb a c then Some (EmptyString, s')
      else match split1 c s' with
           | Some (l, r) => Some (String a l, r)
           | None => None
           end
  end.

(** [s.replace('%', '%%')] *)
Fixpoint escape_percent (s : string) : string :=
  match s with
  | EmptyString => EmptyString
  | String a s' =>
      if Ascii.eqb a "%" then String "%" (String "%" (escape_percent s'))
      else String a (escape_percent s')
  end.

(** The longest prefix of characters satisfying [p], and the rest. *)
Fixpoint span (p : ascii → bool) (s : string) : string * string :=
  match s with
  | EmptyString => (EmptyString, EmptyString)
  | String a s' =>
      if p a then let '(l, r) := span p s' in (String a l, r)
      else (EmptyString, s)
  end.

(** [self.single_node_re.match(node).groups()]: the regular expression has
    three groups, a run of non-digits, a run of digits and a run of
    characters other than newline; it matches every string. *)
Definition single_node_re (node : string) : string * string * string :=
  let '(pfx, r) := span (λ c, negb (is_digit c)) node in
  let '(idx, r) := span is_digit r in
  let '(sfx, _) := span (λ c, negb (Ascii.eqb c "010")) r in
  (pfx, idx, sfx).

(** [sep.join(l)] *)
Fixpoint join (sep : string) (l : list string) : string :=
  match l with
  | [] => EmptyString
  | [s] => s
  | s :: l' => (s ++ sep ++ join sep l')%string
  end.

(** Decimal numerals. *)
Definition digit_val (c : ascii) : Z := Z.of_nat (nat_of_ascii c) - 48.

Fixpoint int_of_digits (s : string) (acc : Z) : Z :=
  match s with
  | EmptyString => acc
  | String c s' => int_of_digits s' (10 * acc + digit_val c)
  end.

Fixpoint all_digits (s : string) : bool :=
  match s with
  | EmptyString => true
  | String c s' => is_digit c && all_digits s'
  end.

Definition digit_char (d : Z) : ascii := ascii_of_nat (Z.to_nat (48 + d)).

Fixpoint digits_of (fuel : nat) (n : Z) (acc : string) : string :=
  match fuel with
  | O => acc
  | S fuel' =>
      let acc' := String (digit_char (n mod 10)) acc in
      if n <? 10 then acc' else digits_of fuel' (n / 10) acc'
  end.

(** [str(n)] for a non-negative integer *)
Definition str_of_nonneg (n : Z) : string :=
  digits_of (S (Z.to_nat (Z.log2 n))) n EmptyString.

Fixpoint zeros (k : nat) : string :=
  match k with O => EmptyString | S k' => String "0" (zeros k') end.

(** The zero-padded decimal numeral of [n] of width [pad], as printed by
    the format [%0*d]. *)
Definition format_padded (pad : nat) (n : Z) : string :=
  if n <? 0 then
    let d := str_of_nonneg (- n) in
    (String "-" (zeros (pad - 1 - String.length d)) ++ d)%string
  else
    let d := str_of_nonneg n in
    (zeros (pad - String.length d) ++ d)%string.

(** [pat % s] with one string argument: [%s] takes the argument, [%%] is a
    literal percent sign. *)
Fixpoint format_args (pat : string) (args : list string) : res string :=
  match pat with
  | EmptyString =>
      match args with
      | [] => Ok EmptyString
      | _ => Raise (TypeError "not all arguments converted during string formatting")
      end
  | String c rest =>
      if Ascii.eqb c "%" then
        match rest with
        | String d rest' =>
            if Ascii.eqb d "%" then
              match format_args rest' args with
              | Ok r => Ok (String "%" r)
              | Raise e => Raise e
              end
            else if Ascii.eqb d "s" then
              match args with
              | a :: args' =>
                  match format_args rest' args' with
                  | Ok r => Ok (a ++ r)%string
                  | Raise e => Raise e
                  end
              | [] => Raise (TypeError "not enough arguments for format string")
              end
            else Raise (ValueError "unsupported format character")
        | EmptyString => Raise (ValueError "incomplete format")
        end
      else
        match format_args rest args with
        | Ok r => Ok (String c r)
        | Raise e => Raise e
        end
  end.

Definition format (pat : string) (s : string) : res string := format_args pat [s].

(** ** The folded syntax of RangeSets *)

(** [s.split(c)] *)
Fixpoint split_all (c : ascii) (s : string) : list string :=
  match s with
  | EmptyString => [EmptyString]
  | String a s' =>
      if Ascii.eqb a c then EmptyString :: split_all c s'
      else match split_all c s' with
           | t :: ts => String a t :: ts
           | [] => [String a EmptyString]
           end
  end.

(** Modelled from the spec: a numeral of the folded syntax (section 6).  Its
    written length is its padding when it has leading zeros, otherwise it has
    no padding. *)
Definition parse_numeral (s : string) : option (Z * nat) :=
  match s with
  | EmptyString => None
  | String c s' =>
      if all_digits s then
        Some (int_of_digits s 0,
              if Ascii.eqb c "0" && negb (is_empty s') then String.length s else O)
      else None
  end.

(** Modelled from the spec: a token of a range list is [n], [a-b] or
    [a-b/step] (section 4.1); it denotes the progression from [a] to [b]. *)
Definition parse_range_token (tok : string) : res (list Z * nat) :=
  let bad {A} (msg : string) : res A := Raise (RangeSetParseError tok msg) in
  match split1 "-" tok with
  | None =>
      match parse_numeral tok with
      | Some (n, pad) => Ok ([n], pad)
      | None => bad "cannot convert string to integer"
      end
  | Some (a, rest) =>
      let '(b, step) := match split1 "/" rest with
                        | Some (b, st) => (b, st)
                        | None => (rest, "1")
                        end in
      match parse_numeral a, parse_numeral b, parse_numeral step with
      | Some (a, pad), Some (b, _), Some (step, _) =>
          if (step <=? 0) || (b <? a) then bad "invalid step or range"
          else Ok ((λ k, a + k * step) <$> seqZ 0 ((b - a) / step + 1), pad)
      | _, _, _ => bad "cannot convert string to integer"
      end
  end.

(** Modelled from the spec: [RangeSet(pattern, autostep)] parses a
    comma-separated range list; the padding is that of the first token
    (section 4.1). *)
Definition RangeSet_parse (pattern : string) (autostep : option Z) : res RangeSet :=
  let fix tokens (toks : list string) (first : bool) (acc : RangeSet) : res RangeSet :=
    match toks with
    | [] => Ok acc
    | tok :: toks' =>
        match parse_range_token tok with
        | Ok (ms, pad) =>
            tokens toks' false
              {| rs_members := rs_members acc ∪ list_to_set ms;
                 padding := if first then pad else padding acc;
                 autostep := autostep |}
        | Raise e => Raise e
        end
    end in
  tokens (split_all "," pattern) true
    {| rs_members := ∅; padding := O; autostep := autostep |}.

(** The longest arithmetic progression of difference [step] that starts the
    list [l] after [prev]: its last element, its length and what follows. *)
Fixpoint take_run (step prev : Z) (l : list Z) (n : Z) : Z * Z * list Z :=
  match l with
  | x :: l' => if x - prev =? step then take_run step x l' (n + 1) else (prev, n, l)
  | [] => (prev, n, [])
  end.

(** Modelled from the spec: the folding algorithm of section 4.1.  Runs of
    consecutive integers are written [a-b]; a progression of another
    difference with at least [autostep] members is written [a-b/step];
    anything else is enumerated. *)
Fixpoint fold_members (fuel : nat) (pad : nat) (autostep : option Z)
    (l : list Z) : list string :=
  match fuel, l with
  | S fuel', a :: ((b :: _) as l') =>
      let step := b - a in
      let '(last, n, rest) := take_run step a l' 1 in
      let num := format_padded pad in
      if step =? 1 then
        (num a ++ "-" ++ num last)%string :: fold_members fuel' pad autostep rest
      else if match autostep with Some k => k <=? n | None => false end then
        (num a ++ "-" ++ num last ++ "/" ++ str_of_nonneg step)%string
          :: fold_members fuel' pad autostep rest
      else num a :: fold_members fuel' pad autostep l'
  | S fuel', [a] => [format_padded pad a]
  | _, _ => []
  end.

(** [str(rangeset)] *)
Definition RangeSet_str (r : RangeSet) : string :=
  let l := rs_sorted r in
  join "," (fold_members (length l) (padding r) (autostep r) l).

(** Modelled from the spec: [rangeset[start:stop:step]] for integer bounds
    and a positive step selects from the ordered members like a Python list
    slice and keeps the padding and the autostep (section 4.1). *)
Definition slice_list {A} (l : list A) (start stop step : Z) : list A :=
  let n := Z.of_nat (length l) in
  let norm i := if i <? 0 then Z.max 0 (i + n) else Z.min i n in
  let start := norm start in
  let stop := norm stop in
  omap (λ k, l !! Z.to_nat (start + k * step))
       (seqZ 0 ((stop - start + step - 1) / step)).

Definition rs_slice (r : RangeSet) (start stop step : Z) : RangeSet :=
  rs_with r (list_to_set (slice_list (rs_sorted r) start stop step)).

(** ** ParsingEngine: the scanner *)

(** The keys of [ParsingEngine.OP_CODES]: the names of the methods that the
    parser applies. *)
Inductive opcode : Type :=
  | op_update
  | op_difference_update
  | op_intersection_update
  | op_symmetric_difference_update.

Definition OP_CODES (opc : opcode) : ascii :=
  match opc with
  | op_update => ","
  | op_difference_update => "!"
  | op_intersection_update => "&"
  | op_symmetric_difference_update => "^"
  end%char.

Definition all_opcodes : list opcode :=
  [op_update; op_difference_update; op_intersection_update;
   op_symmetric_difference_update].

(** [ParsingEngine._next_op]: the index of the first operator character of
    [pat] and its opcode, or [(-1, None)].  [ops] is the order in which the
    dictionary [OP_CODES] is enumerated. *)
Definition next_op_from (ops : list opcode) (pat : string) : Z * option opcode :=
  fold_left
    (λ '(op_idx, next_op_code) opc,
       let idx := find (OP_CODES opc) pat in
       if (0 <=? idx) && ((op_idx <? 0) || (idx <=? op_idx))
       then (idx, Some opc) else (op_idx, next_op_code))
    ops (-1, None).

Definition _next_op (pat : string) : Z * option opcode :=
  next_op_from all_opcodes pat.

(** What the scanner yields: [(opcode, pattern, rangeset)].  The RangeSet of
    an event is a temporary of the scanner; it enters the store when the
    event is consumed. *)
Record event : Type := Event {
  ev_op : opcode;
  ev_pat : string;
  ev_rangeset : option RangeSet
}.

(** The outcome of one round of the [while] loop of [_scan_string]: an
    exception, or an event and the new values of [pat] ([None] ends the
    loop) and [next_op_code]. *)
Inductive scan_result : Type :=
  | ScanRaise (e : exn)
  | ScanYield (ev : event) (next : option (string * opcode)).

(** The statements
    [op_idx, next_op_code = self._next_op(s)] followed by
    [if op_idx < 0: pat = None else: head, pat = s.split(OP_CODES[next_op_code], 1)]. *)
Definition split_at_next_op (s : string) : string * option (string * opcode) :=
  match _next_op s with
  | (op_idx, Some next_op_code) =>
      if op_idx <? 0 then (s, None)
      else match split1 (OP_CODES next_op_code) s with
           | Some (head, pat) => (head, Some (pat, next_op_code))
           | None => (s, None)
           end
  | (_, None) => (s, None)
  end.

Definition quote : string := String (ascii_of_nat 34) EmptyString.

(** [str(e)] of a RangeSet parse error.  Modelled from the spec: the error
    carries the offending substring (section 4.1). *)
Definition exn_str (e : exn) : string :=
  match e with
  | RangeSetParseError part msg => (msg ++ " : " ++ quote ++ part ++ quote)%string
  | _ => EmptyString
  end.

(** [RangeSet(rng, autostep)] inside the [try] block of the scanner. *)
Definition scan_rangeset (rng : string) (autostep : option Z) : res RangeSet :=
  match RangeSet_parse rng autostep with
  | Ok rset => Ok rset
  | Raise (RangeSetParseError _ _ as e) =>
      Raise (NodeSetParseRangeError (Some (exn_str e)) "bad range")
  | Raise e => Raise e
  end.

Definition rest_of (next : option (string * opcode)) : option string :=
  fst <$> next.

(** One round of the loop of [ParsingEngine._scan_string]. *)
Definition scan_step (autostep : option Z) (pat : string) (next_op_code : opcode) : scan_result :=
  (* Ignore whitespace(s) for convenience *)
  let pat := lstrip pat in
  let op_code := next_op_code in
  let '(op_idx, _) := _next_op pat in
  let bracket_idx := find "[" pat in
  if (0 <=? bracket_idx) && ((bracket_idx <? op_idx) || (op_idx <? 0)) then
    match split1 "[" pat with
    | None => ScanRaise (ValueError "need more than 1 value to unpack")
    | Some (pfx, sfx) =>
        match split1 "]" sfx with
        | None => ScanRaise (NodeSetParseError (Some pat) "missing bracket")
        | Some (rng, sfx) =>
            (* Check if we have a next op-separated node or pattern *)
            let '(sfx, next) := split_at_next_op sfx in
            let sfx := rstrip sfx in
            (* pfx + sfx cannot be empty *)
            if len pfx + len sfx =? 0 then
              ScanRaise (NodeSetParseError (rest_of next) "empty node name")
            else
              match scan_rangeset rng autostep with
              | Raise e => ScanRaise e
              | Ok rset =>
                  ScanYield (Event op_code (pfx ++ "%s" ++ sfx)%string (Some rset)) next
              end
        end
    end
  else
    let '(node, next) := split_at_next_op pat in
    let node := strip node in
    if len node =? 0 then
      ScanRaise (NodeSetParseError (rest_of next) "empty node name")
    else
      let '(pfx, idx, sfx) := single_node_re node in
      (* pfx+sfx cannot be empty *)
      if len pfx + len sfx =? 0 then
        ScanRaise (NodeSetParseError (rest_of next) "empty node name")
      else if negb (is_empty idx) then
        match scan_rangeset idx autostep with
        | Raise e => ScanRaise e
        | Ok rset =>
            ScanYield (Event op_code (pfx ++ "%s" ++ sfx)%string (Some rset)) next
        end
      else
        (* undefined pad means no node index *)
        ScanYield (Event op_code pfx None) next.

(** The first statements of [_scan_string]: the pattern that enters the
    loop. *)
Definition scan_init (nsstr : string) : string :=
  let pat := strip nsstr in
  if 0 <=? find "%" pat then escape_percent pat else pat.

(** How a run of the generator [_scan_string] ends. *)
Inductive scan_end : Type :=
  | ScanDone
  | ScanFailed (e : exn)
  | ScanOutOfFuel.

(** The generator [_scan_string] run to its end: the events it yields and
    how it stops. *)
Fixpoint scan_loop (fuel : nat) (autostep : option Z) (pat : string)
    (next_op_code : opcode) : list event * scan_end :=
  match fuel with
  | O => ([], ScanOutOfFuel)
  | S fuel' =>
      match scan_step autostep pat next_op_code with
      | ScanRaise e => ([], ScanFailed e)
      | ScanYield ev None => ([ev], ScanDone)
      | ScanYield ev (Some (pat', op')) =>
          let '(evs, fin) := scan_loop fuel' autostep pat' op' in
          (ev :: evs, fin)
      end
  end.

Definition _scan_string (nsstr : string) (autostep : option Z) : list event * scan_end :=
  let pat := scan_init nsstr in
  scan_loop (S (String.length pat)) autostep pat op_update.

(** ** NodeSetBase: iteration, rendering *)

Definition lift_res {A} (r : res A) : M A :=
  match r with
  | Ok a => ret a
  | Raise e => raise e
  end.

(** [sorted(self._patterns.iteritems())]: the keys are distinct, so the
    entries are ordered by their template, a byte string. *)
Definition sorted_items (d : gmap string (option loc)) : list (string * option loc) :=
  merge_sort (λ a b, String.le a.1 b.1) (map_to_list d).

(** [NodeSetBase._iter]: the tuples [(pat, idx, pad)], with [None] for the
    last two for an unnumbered node. *)
Definition NodeSetBase__iter (self : loc) : M (list (string * option (Z * nat))) :=
  do o <- read_ns self;
  for_fold (sorted_items (_patterns o)) []
    (λ '(pat, rangeset) acc,
      do c <- truth rangeset;
      if c then
        do r <- on_rangeset rangeset "padding" read_rs;
        ret (acc ++ ((λ idx, (pat, Some (idx, padding r))) <$> rs_sorted r))
      else ret (acc ++ [(pat, None)])).

(** The node name that [NodeSetBase.__iter__] builds from a tuple. *)
Definition node_name (item : string * option (Z * nat)) : res string :=
  match item with
  | (pat, Some (start, pad)) => format pat (format_padded pad start)
  | (pat, None) => Ok pat
  end.

(** [NodeSetBase.__iter__], run to its end. *)
Definition NodeSetBase___iter__ (self : loc) : M (list string) :=
  do items <- NodeSetBase__iter self;
  for_fold items [] (λ item acc, do s <- lift_res (node_name item); ret (acc ++ [s])).

(** [result[:-1]] *)
Fixpoint drop_last (s : string) : string :=
  match s with
  | EmptyString => EmptyString
  | String c EmptyString => EmptyString
  | String c s' => String c (drop_last s')
  end.

(** [NodeSetBase.__str__] *)
Definition NodeSetBase___str__ (self : loc) : M string :=
  do o <- read_ns self;
  do result <-
    for_fold (sorted_items (_patterns o)) EmptyString
      (λ '(pat, rangeset) result,
        do c <- truth rangeset;
        do result <-
          (if c then
             do r <- on_rangeset rangeset "__str__" read_rs;
             let s := RangeSet_str r in
             let cnt := rs_len r in
             let s := if 1 <? cnt then ("[" ++ s ++ "]")%string else s in
             do f <- lift_res (format pat s);
             ret (result ++ f)%string
           else ret (result ++ pat)%string);
        ret (result ++ ",")%string);
  ret (drop_last result).

(** ** ParsingEngine: building node sets *)

(** [getattr(nodeset, opc)(operand)] for an instance of the base class. *)
Definition apply_opcode (opc : opcode) (nodeset : loc) (operand : value) : M unit :=
  match opc with
  | op_update => NodeSetBase_update nodeset operand
  | op_difference_update => NodeSetBase_difference_update nodeset operand false
  | op_intersection_update => NodeSetBase_intersection_update nodeset operand
  | op_symmetric_difference_update =>
      NodeSetBase_symmetric_difference_update nodeset operand
  end.

(** The scanner's RangeSet enters the store. *)
Definition alloc_event_rangeset (rangeset : option RangeSet) : M (option loc) :=
  match rangeset with
  | Some r => do l <- alloc_rs r; ret (Some l)
  | None => ret None
  end.

(** [ParsingEngine.parse_group_string] *)
Definition parse_group_string (r : resolver) (nodegroup : string) : M string :=
  match nodegroup with
  | EmptyString => raise (IndexError "string index out of range")
  | String c grpstr =>
      py_assert (Ascii.eqb c "@") ;;
      if find ":" grpstr <? 0 then
        (* default namespace *)
        do l <- lift_res (group_nodes r grpstr None); ret (join "," l)
      else
        (* specified namespace *)
        match split1 ":" grpstr with
        | Some (namespace, group) =>
            do l <- lift_res (group_nodes r group (Some namespace)); ret (join "," l)
        | None => raise (ValueError "need more than 1 value to unpack")
        end
  end.

(** [ParsingEngine.parse], given the method that parses a string. *)
Definition parse_with (parse_string : string → option Z → M loc)
    (nsobj : value) (autostep : option Z) : M loc :=
  match nsobj with
  | VNone => NodeSetBase_new CNodeSetBase None None
  | VNodeSet l => ret l
  | VStr s =>
      λ st, match parse_string s autostep st with
            | (Raise (GroupSourceQueryFailed msg), st') =>
                (Raise (NodeSetParseError (Some s) msg), st')
            | r => r
            end
  | _ => raise (TypeError "Unsupported NodeSet input")
  end.

(** The body of the [for] loop of [parse_string] for one event. *)
Definition parse_event (parse : value → option Z → M loc) (engine : parsing_engine)
    (autostep : option Z) (nodeset : loc) (ev : event) : M unit :=
  let '(Event opc pat rangeset) := ev in
  do rangeset <- alloc_event_rangeset rangeset;
  match group_resolver engine, pat with
  | Some r, String "@" _ =>
      do ns_group <- NodeSetBase_new CNodeSetBase None None;
      do grp <- NodeSetBase_new CNodeGroupBase (Some pat) rangeset;
      do items <- NodeSetBase__iter grp;
      for_each items (λ item,
        do nodegroup <- lift_res (node_name item);
        (* parse/expand nodes group *)
        do ns_string_ext <- parse_group_string r nodegroup;
        if negb (is_empty ns_string_ext) then
          (* convert result and apply operation *)
          do ns <- parse (VStr ns_string_ext) autostep;
          NodeSetBase_update ns_group (VNodeSet ns)
        else ret tt) ;;
      (* perform operation *)
      apply_opcode opc nodeset (VNodeSet ns_group)
  | Some _, EmptyString => raise (IndexError "string index out of range")
  | _, _ =>
      do operand <- NodeSetBase_new CNodeSetBase (Some pat) rangeset;
      apply_opcode opc nodeset (VNodeSet operand)
  end.

(** The [for] loop of [parse_string] over the generator [_scan_string]: each
    event is applied before the scanner resumes. *)
Fixpoint parse_loop (fuel : nat) (on_event : event → M unit) (autostep : option Z)
    (pat : string) (next_op_code : opcode) : M unit :=
  match fuel with
  | O => raise (SystemError "scanner out of fuel")
  | S fuel' =>
      match scan_step autostep pat next_op_code with
      | ScanRaise e => raise e
      | ScanYield ev next =>
          on_event ev ;;
          match next with
          | None => ret tt
          | Some (pat', op') => parse_loop fuel' on_event autostep pat' op'
          end
      end
  end.

(** [ParsingEngine.parse_string].  [depth] bounds the nesting of group
    expansions, as the interpreter bounds the depth of recursion. *)
Fixpoint ParsingEngine_parse_string (depth : nat) (engine : parsing_engine)
    (nsstr : string) (autostep : option Z) : M loc :=
  match depth with
  | O => raise (RuntimeError "maximum recursion depth exceeded")
  | S depth' =>
      do nodeset <- NodeSetBase_new CNodeSetBase None None;
      let pat := scan_init nsstr in
      parse_loop (S (String.length pat))
        (parse_event (parse_with (ParsingEngine_parse_string depth' engine))
           engine autostep nodeset)
        autostep pat op_update ;;
      ret nodeset
  end.

Definition recursion_limit : nat := 100.

(** [ParsingEngine.parse] *)
Definition ParsingEngine_parse (engine : parsing_engine) (nsobj : value)
    (autostep : option Z) : M loc :=
  parse_with (ParsingEngine_parse_string recursion_limit engine) nsobj autostep.

(** ** NodeSet: the methods that parse their operand *)

Definition get_attrs (self : loc) (attr : string) : M nodeset_attrs :=
  do o <- read_ns self;
  match ob_attrs o with
  | Some a => ret a
  | None => raise (AttributeError attr)
  end.

(** [self._parser.parse(other, self._autostep)] *)
Definition parse_operand (self : loc) (other : value) : M loc :=
  do a <- get_attrs self "_parser";
  ParsingEngine_parse (_parser a) other (_autostep a).

(** [NodeSet.update] *)
Definition NodeSet_update (self : loc) (other : value) : M unit :=
  do nodeset <- parse_operand self other;
  NodeSetBase_update self (VNodeSet nodeset).

(** [NodeSet.intersection_update] *)
Definition NodeSet_intersection_update (self : loc) (other : value) : M unit :=
  do nodeset <- parse_operand self other;
  NodeSetBase_intersection_update self (VNodeSet nodeset).

(** [NodeSet.difference_update] *)
Definition NodeSet_difference_update (self : loc) (other : value) (strict : bool) : M unit :=
  do nodeset <- parse_operand self other;
  NodeSetBase_difference_update self (VNodeSet nodeset) strict.

(** [NodeSet.symmetric_difference_update] *)
Definition NodeSet_symmetric_difference_update (self : loc) (other : value) : M unit :=
  do nodeset <- parse_operand self other;
  NodeSetBase_symmetric_difference_update self (VNodeSet nodeset).

(** [NodeSet.issubset] *)
Definition NodeSet_issubset (self : loc) (other : value) : M bool :=
  do nodeset <- parse_operand self other;
  NodeSetBase_issuperset nodeset (VNodeSet self).

(** [NodeSet.issuperset] *)
Definition NodeSet_issuperset (self : loc) (other : value) : M bool :=
  do nodeset <- parse_operand self other;
  NodeSetBase_issuperset self (VNodeSet nodeset).

(** The [resolver] argument of the constructor: absent ([None]), the
    constant [NOGROUP_RESOLVER], or a resolver object. *)
Inductive resolver_arg : Type :=
  | ResolverNone
  | NOGROUP_RESOLVER
  | ResolverObject (r : resolver).

(** [NodeSet.__init__(nodes, autostep, resolver)] *)
Definition NodeSet_new (nodes : value) (autostep : option Z) (rarg : resolver_arg) : M loc :=
  do self <- alloc_ns (empty_NodeSetBase CNodeSet);
  do std <- get_std_resolver;
  (* Set group resolver. *)
  let _resolver := match rarg with
                   | NOGROUP_RESOLVER => None
                   | ResolverNone => Some std
                   | ResolverObject r => Some r
                   end in
  (* Initialize default parser. *)
  do o <- read_ns self;
  write_ns self
    {| ob_class := ob_class o; _length := _length o; _patterns := _patterns o;
       ob_attrs := Some {| _autostep := autostep; _resolver := _resolver;
                           _parser := {| group_resolver := _resolver |} |} |} ;;
  NodeSet_update self nodes ;;
  ret self.

(** ** Method resolution *)

Definition class_of (self : loc) : M klass :=
  do o <- read_ns self; ret (ob_class o).

(** [self.update(other)] *)
Definition call_update (self : loc) (other : value) : M unit :=
  do c <- class_of self;
  match c with
  | CNodeSet => NodeSet_update self other
  | _ => NodeSetBase_update self other
  end.

(** [self.intersection_update(other)] *)
Definition call_intersection_update (self : loc) (other : value) : M unit :=
  do c <- class_of self;
  match c with
  | CNodeSet => NodeSet_intersection_update self other
  | _ => NodeSetBase_intersection_update self other
  end.

(** [self.difference_update(other, strict)] *)
Definition call_difference_update (self : loc) (other : value) (strict : bool) : M unit :=
  do c <- class_of self;
  match c with
  | CNodeSet => NodeSet_difference_update self other strict
  | _ => NodeSetBase_difference_update self other strict
  end.

(** [self.symmetric_difference_update(other)] *)
Definition call_symmetric_difference_update (self : loc) (other : value) : M unit :=
  do c <- class_of self;
  match c with
  | CNodeSet => NodeSet_symmetric_difference_update self other
  | _ => NodeSetBase_symmetric_difference_update self other
  end.

(** [self.issuperset(other)] *)
Definition call_issuperset (self : loc) (other : value) : M bool :=
  do c <- class_of self;
  match c with
  | CNodeSet => NodeSet_issuperset self other
  | _ => NodeSetBase_issuperset self other
  end.

(** ** NodeSetBase: comparisons *)

(** [NodeSetBase.issubset]: [other.issuperset(self)] *)
Definition NodeSetBase_issubset (self : loc) (other : value) : M bool :=
  do other <- _binary_sanity_check other;
  call_issuperset other (VNodeSet self).

(** [self.issubset(other)] *)
Definition call_issubset (self : loc) (other : value) : M bool :=
  do c <- class_of self;
  match c with
  | CNodeSet => NodeSet_issubset self other
  | _ => NodeSetBase_issubset self other
  end.

(** [NodeSetBase.__contains__] *)
Definition NodeSetBase___contains__ (self : loc) (other : value) : M bool :=
  call_issuperset self other.

(** [NodeSetBase.__eq__]: [NotImplemented] or a boolean *)
Definition NodeSetBase___eq__ (self : loc) (other : value) : M value :=
  match other with
  | VNodeSet o =>
      do n <- NodeSetBase___len__ self;
      do m <- NodeSetBase___len__ o;
      if n =? m then do b <- call_issuperset self other; ret (VBool b)
      else ret (VBool false)
  | _ => ret VNotImplemented
  end.

(** [NodeSetBase.__lt__] *)
Definition NodeSetBase___lt__ (self : loc) (other : value) : M bool :=
  do o <- _binary_sanity_check other;
  do n <- NodeSetBase___len__ self;
  do m <- NodeSetBase___len__ o;
  if n <? m then call_issubset self other else ret false.

(** [NodeSetBase.__gt__] *)
Definition NodeSetBase___gt__ (self : loc) (other : value) : M bool :=
  do o <- _binary_sanity_check other;
  do n <- NodeSetBase___len__ self;
  do m <- NodeSetBase___len__ o;
  if m <? n then call_issuperset self other else ret false.

(** ** NodeSetBase: copies and the non-mutating operations *)

(** [self.__class__()] *)
Definition new_instance (c : klass) : M loc :=
  match c with
  | CNodeSet => NodeSet_new VNone None ResolverNone
  | c => NodeSetBase_new c None None
  end.

(** [NodeSetBase.copy] *)
Definition NodeSetBase_copy (self : loc) : M loc :=
  do c <- class_of self;
  do result <- new_instance c;
  do o <- read_ns self;
  do a <- get_attrs self "_autostep";
  do dic <-
    iteritems self (∅ : gmap string (option loc)) (λ pat rangeset dic,
      match rangeset with
      | None => ret (<[pat := None]> dic)
      | Some r => do r' <- RangeSet_copy r; ret (<[pat := Some r']> dic)
      end);
  do ro <- read_ns result;
  write_ns result
    {| ob_class := ob_class ro; _length := _length o; _patterns := dic;
       ob_attrs := Some {| _autostep := _autostep a; _resolver := _resolver a;
                           _parser := _parser a |} |} ;;
  ret result.

(** [NodeSetBase.union] *)
Definition NodeSetBase_union (self : loc) (other : value) : M loc :=
  do self_copy <- NodeSetBase_copy self;
  call_update self_copy other ;;
  ret self_copy.

(** [NodeSetBase.intersection] *)
Definition NodeSetBase_intersection (self : loc) (other : value) : M loc :=
  do self_copy <- NodeSetBase_copy self;
  call_intersection_update self_copy other ;;
  ret self_copy.

(** [NodeSetBase.difference] *)
Definition NodeSetBase_difference (self : loc) (other : value) : M loc :=
  do self_copy <- NodeSetBase_copy self;
  call_difference_update self_copy other false ;;
  ret self_copy.

(** [NodeSetBase.symmetric_difference] *)
Definition NodeSetBase_symmetric_difference (self : loc) (other : value) : M loc :=
  do self_copy <- NodeSetBase_copy self;
  call_symmetric_difference_update self_copy other ;;
  ret self_copy.

(** [NodeSetBase.remove] *)
Definition NodeSetBase_remove (self : loc) (elem : value) : M unit :=
  call_difference_update self elem true.

(** ** NodeSetBase: indexing and slicing *)

(** [sys.maxint] of a 64-bit interpreter *)
Definition sys_maxint : Z := 2 ^ 63 - 1.

(** [NodeSetBase._extractslice(self, index)], for a slice made of integers
    and [None] (which makes the final [isinstance] checks pass). *)
Definition NodeSetBase__extractslice (self : loc) (start stop step : option Z) : M (Z * Z * Z) :=
  do length <- NodeSetBase___len__ self;
  let sl_start :=
    match start with
    | None => 0
    | Some s => if s <? 0 then Z.max 0 (length + s) else s
    end in
  let sl_stop :=
    match stop with
    | None => sys_maxint
    | Some s => if s <? 0 then Z.max 0 (length + s) else s
    end in
  match step with
  | None => ret (sl_start, sl_stop, 1)
  | Some st =>
      if st <? 0 then
        (* We support negative step slicing with no start/stop, ie. r[::-n]. *)
        if bool_decide (is_Some start) || bool_decide (is_Some stop) then
          raise (IndexError "illegal start and stop when negative step is used")
        else
          let stepmod := (length + - st - 1) mod (- st) in
          let sl_start := if 0 <? stepmod then sl_start + stepmod else sl_start in
          ret (sl_start, sl_stop, - st)
      else ret (sl_start, sl_stop, st)
  end.

(** A call [self._extractslice(args)]: the interpreter binds [self] and the
    positional arguments to the two parameters [(self, index)] of the method
    and refuses any other number of arguments before the body runs. *)
Definition call__extractslice (self : loc) (args : list value) : M (Z * Z * Z) :=
  match args with
  | [VSlice start stop step] => NodeSetBase__extractslice self start stop step
  | [_] => raise (AttributeError "start")
  | _ => raise (TypeError "_extractslice() takes exactly 2 arguments")
  end.

(** Modelled from the spec: slicing a RangeSet object gives a new RangeSet
    object (section 4.1); a step of zero is refused as for any sequence. *)
Definition RangeSet_getslice (self : loc) (start stop step : Z) : M loc :=
  do r <- read_rs self;
  if step =? 0 then raise (ValueError "slice step cannot be zero")
  else alloc_rs (rs_slice r start stop step).

(** The loop of the slice branch of [__getitem__]. *)
Fixpoint getitem_slice_loop (inst : loc) (items : list (string * option loc))
    (sl_start sl_stop sl_step sl_next length : Z) : M unit :=
  match items with
  | [] => ret tt
  | (pat, rangeset) :: items' =>
      let continue length := getitem_slice_loop inst items' sl_start sl_stop sl_step sl_next length in
      let adjust (num cnt : Z) : M unit :=
        (* adjust sl_next... *)
        let sl_next := sl_next + num in
        if sl_step =? 0 then raise ZeroDivisionError
        else
          let sl_next :=
            if negb ((sl_next - sl_start) mod sl_step =? 0)
            then sl_start + ((sl_next - sl_start) / sl_step + 1) * sl_step
            else sl_next in
          if sl_stop <=? sl_next then ret tt
          else getitem_slice_loop inst items' sl_start sl_stop sl_step sl_next (length + cnt) in
      do c <- truth rangeset;
      if c then
        do cnt <- len_entry rangeset;
        let offset := sl_next - length in
        if offset <? cnt then
          let num := Z.min (sl_stop - sl_next) (cnt - offset) in
          do sub <- on_rangeset rangeset "__getitem__"
                      (λ r, RangeSet_getslice r offset (offset + num) sl_step);
          call__add inst pat (Some sub) ;;
          adjust num cnt
        else
          (* skip until sl_next is reached *)
          continue (length + cnt)
      else
        if length <? sl_next then continue (length + 1)
        else call__add inst pat None ;; adjust 1 1
  end.

(** The loop of the integer branch of [__getitem__]. *)
Fixpoint getitem_int_loop (items : list (string * option loc)) (index length : Z) : M value :=
  match items with
  | [] => raise (IndexError "out of range")
  | (pat, rangeset) :: items' =>
      do c <- truth rangeset;
      if c then
        do cnt <- len_entry rangeset;
        if index <? length + cnt then
          (* return a subrangeset of size 1 to manage padding *)
          do sub <- on_rangeset rangeset "__getitem__"
                      (λ r, RangeSet_getslice r (index - length) (index - length + 1) 1);
          do r <- read_rs sub;
          do s <- lift_res (format pat (RangeSet_str r));
          ret (VStr s)
        else getitem_int_loop items' index (length + cnt)
      else
        if index =? length then ret (VStr pat)
        else getitem_int_loop items' index (length + 1)
  end.

(** [NodeSetBase.__getitem__] *)
Definition NodeSetBase___getitem__ (self : loc) (index : value) : M value :=
  match index with
  | VSlice _ _ _ =>
      do inst <- NodeSetBase_new CNodeSetBase None None;
      do '(sl_start, sl_stop, sl_step) <- call__extractslice self [VNodeSet self; index];
      let sl_next := sl_start in
      if sl_stop <=? sl_next then ret (VNodeSet inst)
      else
        do o <- read_ns self;
        getitem_slice_loop inst (sorted_items (_patterns o))
          sl_start sl_stop sl_step sl_next 0 ;;
        ret (VNodeSet inst)
  | VInt index =>
      do index <-
        (if index <? 0 then
           do length <- NodeSetBase___len__ self;
           if - length <=? index then ret (length + index)
           else raise (IndexError "out of range")
         else ret index);
      do o <- read_ns self;
      getitem_int_loop (sorted_items (_patterns o)) index 0
  | _ => raise (TypeError "NodeSet indices must be integers")
  end.

(** [NodeSet.__getitem__] *)
Definition NodeSet___getitem__ (self : loc) (index : value) : M value :=
  do base <- NodeSetBase___getitem__ self index;
  match base with
  | VNodeSet b =>
      (* return a real NodeSet *)
      do a <- get_attrs self "_autostep";
      do inst <- NodeSet_new VNone (_autostep a)
                   (match _resolver a with
                    | Some r => ResolverObject r
                    | None => ResolverNone
                    end);
      do bo <- read_ns b;
      do io <- read_ns inst;
      write_ns inst (set_patterns io (_patterns bo)) ;;
      ret (VNodeSet inst)
  | _ => ret base
  end.

(** [NodeSet.split], the generator run to its end: the sub-nodesets it
    yields. *)
Definition NodeSet_split (self : loc) (nbr : Z) : M (list value) :=
  py_assert (0 <? nbr) ;;
  (* We put the same number of element in each sub-nodeset. *)
  do n <- NodeSetBase___len__ self;
  let slice_size := n / nbr in
  let left := n mod nbr in
  do '(_, yielded) <-
    for_fold (seqZ 0 (Z.min nbr n)) (0, [])
      (λ i '(begin, yielded),
        let length := slice_size + (if i <? left then 1 else 0) in
        do sub <- NodeSet___getitem__ self (VSlice (Some begin) (Some (begin + length)) None);
        ret (begin + length, yielded ++ [sub]));
  ret yielded.

(** * Vocabulary of the properties *)

Definition result_of {A} (m : M A) (st : state) : res A := (m st).1.
Definition state_after {A} (m : M A) (st : state) : state := (m st).2.

(** [wp m st Q]: the outcome of [m] from [st] satisfies [Q]. *)
Definition wp {A} (m : M A) (st : state) (Q : res A → state → Prop) : Prop :=
  Q (m st).1 (m st).2.

Definition isinstance_NodeSetBase (v : value) : bool :=
  match v with VNodeSet _ => true | _ => false end.

Definition sanity_TypeError {A} : res A :=
  Raise (TypeError "Binary operation only permitted between NodeSetBase").

(** The error of a call with a wrong number of arguments. *)
Definition arity_TypeError {A} : res A :=
  Raise (TypeError "_extractslice() takes exactly 2 arguments").

(** [NodeSet(s)] followed by [k] on the new object, from the empty store. *)
Definition with_NodeSet {A} (std : resolver) (s : string) (k : loc → M A) : res A :=
  result_of (do a <- NodeSet_new (VStr s) None ResolverNone; k a) (init_state std).

Definition is_VNodeSet (v : value) : bool :=
  match v with VNodeSet _ => true | _ => false end.

(** Code that only reads the store. *)
Definition read_only {A} (m : M A) : Prop := ∀ st, (m st).2 = st.

(** The store after [write_rs], [write_ns], [alloc_rs] and [alloc_ns]. *)
Definition upd_rs (l : loc) (r : RangeSet) (st : state) : state :=
  {| rsets := <[l := r]> (rsets st); nsets := nsets st;
     next_loc := next_loc st; STD_GROUP_RESOLVER := STD_GROUP_RESOLVER st |}.

Definition upd_ns (l : loc) (o : nodeset_obj) (st : state) : state :=
  {| rsets := rsets st; nsets := <[l := o]> (nsets st);
     next_loc := next_loc st; STD_GROUP_RESOLVER := STD_GROUP_RESOLVER st |}.

Definition new_rs (r : RangeSet) (st : state) : state :=
  {| rsets := <[next_loc st := r]> (rsets st); nsets := nsets st;
     next_loc := Pos.succ (next_loc st);
     STD_GROUP_RESOLVER := STD_GROUP_RESOLVER st |}.

Definition new_ns (o : nodeset_obj) (st : state) : state :=
  {| rsets := rsets st; nsets := <[next_loc st := o]> (nsets st);
     next_loc := Pos.succ (next_loc st);
     STD_GROUP_RESOLVER := STD_GROUP_RESOLVER st |}.

(** The pattern dictionary of the node set [a]. *)
Definition patterns_of (st : state) (a : loc) : option (gmap string (option loc)) :=
  _patterns <$> nsets st !! a.

(** What [self._patterns.get(pat)] returns. *)
Definition entry (d : gmap string (option loc)) (pat : string) : option loc :=
  match d !! pat with Some v => v | None => None end.

(** The truth value of a dictionary entry, when its reference is valid. *)
Definition truthy (st : state) (v : option loc) : option bool :=
  match v with
  | None => Some false
  | Some l => (λ r, 0 <? rs_len r) <$> rsets st !! l
  end.

(** The objects of [st] were all given identities below [next_loc st]. *)
Definition store_ok (st : state) : Prop :=
  (∀ l, is_Some (rsets st !! l) → (l < next_loc st)%positive)
  ∧ (∀ l, is_Some (nsets st !! l) → (l < next_loc st)%positive).

Definition store_okb (st : state) : bool :=
  forallb (λ l, Pos.ltb l (next_loc st)) (elements (dom (rsets st)))
  && forallb (λ l, Pos.ltb l (next_loc st)) (elements (dom (nsets st))).

(** A resolver without any group source. *)
Definition no_groups : resolver :=
  {| group_nodes := λ _ _, Raise (GroupSourceNoUpcall "no group source") |}.

(** Concrete inputs: a store with the node sets [bar[1-3],foo] (object 1)
    and [bar[2-5],foo] (object 2), whose RangeSets are the objects 3 and
    4. *)
Definition mk_rs (l : list Z) : RangeSet :=
  {| rs_members := list_to_set l; padding := 0; autostep := None |}.

Definition mk_nodeset (d : list (string * option loc)) : nodeset_obj :=
  {| ob_class := CNodeSet; _length := 0; _patterns := list_to_map d;
     ob_attrs := Some {| _autostep := None; _resolver := None;
                         _parser := {| group_resolver := None |} |} |}.

Definition bar_foo_1 : gmap string (option loc) :=
  list_to_map [("bar%s", Some 3%positive); ("foo", None)].

Definition bar_foo_2 : gmap string (option loc) :=
  list_to_map [("bar%s", Some 4%positive); ("foo", None)].

Definition demo_store : state :=
  {| rsets := list_to_map [(3%positive, mk_rs [1; 2; 3]);
                           (4%positive, mk_rs [2; 3; 4; 5])];
     nsets := list_to_map
                [(1%positive, mk_nodeset [("bar%s", Some 3%positive); ("foo", None)]);
                 (2%positive, mk_nodeset [("bar%s", Some 4%positive); ("foo", None)])];
     next_loc := 5%positive;
     STD_GROUP_RESOLVER := no_groups |}.

(** The data-model invariants of a node set [a] in a store: every RangeSet
    that a template of [a] refers to exists and is not empty
    ([no_empty_rangeset]), and no RangeSet object serves two templates
    ([unshared]). *)
Definition nonempty_at (st : state) (v : option loc) : bool :=
  match v with
  | None => true
  | Some l =>
      match rsets st !! l with
      | Some r => 0 <? rs_len r
      | None => false
      end
  end.

Definition no_empty_rangeset (st : state) (a : loc) : bool :=
  match patterns_of st a with
  | Some d => forallb (λ kv, nonempty_at st kv.2) (map_to_list d)
  | None => false
  end.

Definition unshared (st : state) (a : loc) : bool :=
  match patterns_of st a with
  | Some d => bool_decide (NoDup (omap snd (map_to_list d)))
  | None => false
  end.

(** The RangeSets that the dictionary [d] refers to exist and have
    members. *)
Definition rangesets_nonempty (st : state) (d : gmap string (option loc)) : Prop :=
  ∀ pat l, d !! pat = Some (Some l) → ∃ r, rsets st !! l = Some r ∧ 0 < rs_len r.

Definition nodeset_nonempty (st : state) (a : loc) : Prop :=
  ∃ d, patterns_of st a = Some d ∧ rangesets_nonempty st d.



(** The references to RangeSets held by a dictionary. *)
Definition refs (d : gmap string (option loc)) : list loc :=
  omap snd (map_to_list d).




(** Frame conditions, relative to the objects that existed when the
    identities below [n] had been given out: outside the node sets [N] and
    the RangeSets [R], the store [st] agrees with [st0]. *)
Definition frame (n : loc) (N R : loc → Prop) (st0 st : state) : Prop :=
  store_ok st
  ∧ (n ≤ next_loc st)%positive
  ∧ (∀ l, (l < n)%positive → ¬ N l → nsets st !! l = nsets st0 !! l)
  ∧ (∀ l, (l < n)%positive → ¬ R l → rsets st !! l = rsets st0 !! l).

(** The node set [x] only refers to RangeSets of [R] or to RangeSets
    created since [n]. *)
Definition owns (n : loc) (R : loc → Prop) (x : loc) (st : state) : Prop :=
  ∀ d k l, patterns_of st x = Some d → d !! k = Some (Some l) →
           R l ∨ (n ≤ l)%positive.

(** [self.<opc>(other)], the mutating method named by [opc], resolved on
    the class of [self]. *)
Definition call_method (opc : opcode) (self : loc) (other : value) : M unit :=
  match opc with
  | op_update => call_update self other
  | op_difference_update => call_difference_update self other false
  | op_intersection_update => call_intersection_update self other
  | op_symmetric_difference_update => call_symmetric_difference_update self other
  end.

(** The non-mutating operation that corresponds to [opc]: [union],
    [difference], [intersection] and [symmetric_difference]. *)
Definition set_operation (opc : opcode) (self : loc) (other : value) : M loc :=
  match opc with
  | op_update => NodeSetBase_union self other
  | op_difference_update => NodeSetBase_difference self other
  | op_intersection_update => NodeSetBase_intersection self other
  | op_symmetric_difference_update => NodeSetBase_symmetric_difference self other
  end.

(** The RangeSets of the node set [x] are older than [n]. *)
Definition refs_below (n : loc) (st : state) (x : loc) : bool :=
  match patterns_of st x with
  | Some d => forallb (λ l, Pos.ltb l n) (refs d)
  | None => false
  end.

Definition nothing : loc → Prop := λ _, False.

(** The object that [NodeSet.__init__] has built when it calls [update];
    [r] is the group resolver it has chosen. *)
Definition empty_NodeSet (autostep : option Z) (r : option resolver) : nodeset_obj :=
  {| ob_class := CNodeSet; _length := 0; _patterns := ∅;
     ob_attrs := Some {| _autostep := autostep; _resolver := r;
                         _parser := {| group_resolver := r |} |} |}.

Definition resolver_of (std : resolver) (rarg : resolver_arg) : option resolver :=
  match rarg with
  | NOGROUP_RESOLVER => None
  | ResolverNone => Some std
  | ResolverObject r => Some r
  end.

(** The store after [NodeSet(None, autostep, rarg)]: the new node set, and
    the empty NodeSetBase that the parser made of [None]. *)
Definition after_NodeSet_new (autostep : option Z) (rarg : resolver_arg) (st : state) : state :=
  new_ns (empty_NodeSetBase CNodeSetBase)
    (upd_ns (next_loc st) (empty_NodeSet autostep (resolver_of (STD_GROUP_RESOLVER st) rarg))
       (new_ns (empty_NodeSetBase CNodeSet) st)).

(** [c] is a deep copy of the node set object [o] of the store [st]: a new
    object of the same class with the same attributes and the same
    templates, whose RangeSets are new objects, one per template, with the
    contents of the RangeSets of [o]. *)
Definition is_copy (st : state) (o : nodeset_obj) (st' : state) (c : loc) : Prop :=
  (next_loc st ≤ c)%positive
  ∧ ∃ oc, nsets st' !! c = Some oc
      ∧ ob_class oc = ob_class o ∧ ob_attrs oc = ob_attrs o ∧ _length oc = _length o
      ∧ (∀ k, match _patterns o !! k with
              | None => _patterns oc !! k = None
              | Some None => _patterns oc !! k = Some None
              | Some (Some l) =>
                  ∃ l', _patterns oc !! k = Some (Some l')
                        ∧ (next_loc st ≤ l')%positive
                        ∧ is_Some (rsets st !! l)
                        ∧ rsets st' !! l' = rsets st !! l
              end)
      ∧ (∀ k k' l, _patterns oc !! k = Some (Some l) →
                   _patterns oc !! k' = Some (Some l) → k = k').

(** Every RangeSet that the node set [a] refers to exists. *)
Definition refs_valid (st : state) (a : loc) : bool :=
  match patterns_of st a with
  | Some d => forallb (λ l, bool_decide (is_Some (rsets st !! l))) (refs d)
  | None => false
  end.

(** The RangeSets of the node set [a]. *)
Definition rangesets_of (st : state) (a : loc) : loc → Prop :=
  λ l, ∃ d, patterns_of st a = Some d ∧ l ∈ refs d.

(** Every object of [st] is the same in [st']. *)
Definition unchanged (st st' : state) : Prop :=
  (∀ l, is_Some (nsets st !! l) → nsets st' !! l = nsets st !! l)
  ∧ (∀ l, is_Some (rsets st !! l) → rsets st' !! l = rsets st !! l).

(** The node set [c] and its RangeSets are not objects of [st]. *)
Definition fresh_nodeset (st st' : state) (c : loc) : Prop :=
  nsets st !! c = None
  ∧ ∀ d k l, patterns_of st' c = Some d → d !! k = Some (Some l) → rsets st !! l = None.

(** An instance made by [NodeSetBase()], in the store [demo_store]. *)
Definition demo_store_with_base : state :=
  new_ns (empty_NodeSetBase CNodeSetBase) demo_store.

Global Instance opcode_eq_dec : EqDecision opcode.
Proof. solve_decision. Defined.

(** The operator that a character stands for. *)
Definition opcode_of_char (c : ascii) : option opcode :=
  if Ascii.eqb c "," then Some op_update
  else if Ascii.eqb c "!" then Some op_difference_update
  else if Ascii.eqb c "&" then Some op_intersection_update
  else if Ascii.eqb c "^" then Some op_symmetric_difference_update
  else None.

(** The position of the first operator character of a string and the
    operator it stands for, or [(-1, None)]. *)
Fixpoint first_op (s : string) : Z * option opcode :=
  match s with
  | EmptyString => (-1, None)
  | String c s' =>
      match opcode_of_char c with
      | Some opc => (0, Some opc)
      | None => let '(i, o) := first_op s' in if i <? 0 then (-1, None) else (i + 1, o)
      end
  end.

(** An order in which the dictionary [OP_CODES] may be enumerated. *)
Definition is_enumeration (ops : list opcode) : bool :=
  bool_decide (ops ≡ₚ all_opcodes).

Definition no_digit (s : string) : bool :=
  forallb (λ c, negb (is_digit c)) (list_ascii_of_string s).

(** What the scanner promises about an event.  The template of a numbered
    term is the text before the index, [%s], and the text after it, every
    percent sign of the text being doubled: formatting it puts the index
    back between the two.  The template of an unnumbered node is its name
    (with doubled percent signs), which is not empty and has no digit. *)
Definition wf_event (ev : event) : Prop :=
  ev_pat ev ≠ EmptyString
  ∧ match ev_rangeset ev with
    | Some _ =>
        ∃ pfx sfx,
          ev_pat ev = (escape_percent pfx ++ "%s" ++ escape_percent sfx)%string
          ∧ ∀ x, format (ev_pat ev) x = Ok (pfx ++ x ++ sfx)%string
    | None =>
        ∃ name, ev_pat ev = escape_percent name ∧ no_digit name = true
    end.

(** A string made of whitespace only (or empty). *)
Definition is_blank (s : string) : bool :=
  forallb is_space (list_ascii_of_string s).

Definition empty_node_name {A} : res A :=
  Raise (NodeSetParseError None "empty node name").

(** The tuples that [_iter] yields for the entry [(pat, v)] of a pattern
    dictionary: one per index of the RangeSet, or the single unnumbered
    node when the value is [None] (or a RangeSet without members). *)
Definition entry_items (st : state) (pat : string) (v : option loc)
    : list (string * option (Z * nat)) :=
  match v with
  | Some l =>
      match rsets st !! l with
      | Some r =>
          if 0 <? rs_len r
          then (λ idx, (pat, Some (idx, padding r))) <$> rs_sorted r
          else [(pat, None)]
      | None => []
      end
  | None => [(pat, None)]
  end.

(** The nodes of a pattern dictionary, in the order of iteration. *)
Definition nodes_of (st : state) (d : gmap string (option loc))
    : list (string * option (Z * nat)) :=
  concat ((λ kv, entry_items st kv.1 kv.2) <$> sorted_items d).
















(* end of vocabulary *)

(** * Properties *)

(** ** Running monadic code *)

Lemma wp_ret {A} (a : A) st Q : Q (Ok a) st → wp (ret a) st Q.
Proof. done. Qed.

Lemma wp_raise {A} e st (Q : res A → state → Prop) : Q (Raise e) st → wp (raise e) st Q.
Proof. done. Qed.

Lemma wp_bind {A B} (m : M A) (k : A → M B) st Q :
  wp m st (λ r st', match r with
                    | Ok a => wp (k a) st' Q
                    | Raise e => Q (Raise e) st'
                    end) →
  wp (bind m k) st Q.
Proof. unfold wp, bind. by destruct (m st) as [[a|e] st']. Qed.

Lemma wp_mono {A} (m : M A) st (Q Q' : res A → state → Prop) :
  wp m st Q → (∀ r st', Q r st' → Q' r st') → wp m st Q'.
Proof. unfold wp. auto. Qed.

Lemma wp_for_fold {A B} (I : list A → B → state → Prop) (l : list A)
    (body : A → B → M B) (acc : B) st (Q : res B → state → Prop) :
  I [] acc st →
  (∀ done x rest acc st, l = done ++ x :: rest → I done acc st →
     wp (body x acc) st (λ r st', match r with
                                  | Ok acc' => I (done ++ [x]) acc' st'
                                  | Raise e => Q (Raise e) st'
                                  end)) →
  (∀ acc st, I l acc st → Q (Ok acc) st) →
  wp (for_fold l acc body) st Q.
Proof.
  intros HI Hbody Hend.
  assert (∀ rest done acc st, l = done ++ rest → I done acc st →
            wp (for_fold rest acc body) st Q) as H.
  { induction rest as [|x rest IH]; intros done acc' st' Hl HI'; simpl.
    - rewrite app_nil_r in Hl. subst done. by apply Hend.
    - apply wp_bind. eapply wp_mono; [by eapply Hbody|].
      intros [acc''|e] st''; [|done]. intros HI''.
      apply (IH (done ++ [x])); [by rewrite <- app_assoc|done]. }
  by apply (H l []).
Qed.

(** ** C10: type checks of the binary operations *)

(** C10.  Compared with an operand that is not a NodeSetBase, [__eq__]
    returns [NotImplemented] and raises nothing, whereas [issubset],
    [issuperset], [update], [intersection_update], [difference_update],
    [symmetric_difference_update], [__lt__] and [__gt__] raise [TypeError];
    none of them changes the store. *)
Theorem C10_eq_NotImplemented_others_TypeError (self : loc) (other : value)
    (strict : bool) (st : state) :
  isinstance_NodeSetBase other = false →
  NodeSetBase___eq__ self other st = (Ok VNotImplemented, st)
  ∧ NodeSetBase_issubset self other st = (sanity_TypeError, st)
  ∧ NodeSetBase_issuperset self other st = (sanity_TypeError, st)
  ∧ NodeSetBase_update self other st = (sanity_TypeError, st)
  ∧ NodeSetBase_intersection_update self other st = (sanity_TypeError, st)
  ∧ NodeSetBase_difference_update self other strict st = (sanity_TypeError, st)
  ∧ NodeSetBase_symmetric_difference_update self other st = (sanity_TypeError, st)
  ∧ NodeSetBase___lt__ self other st = (sanity_TypeError, st)
  ∧ NodeSetBase___gt__ self other st = (sanity_TypeError, st).
Proof.
  intros Hother. destruct other; try discriminate Hother; repeat split; reflexivity.
Qed.

Lemma C10_witness :
  NodeSetBase___eq__ 1%positive (VStr "node1") (init_state {| group_nodes := λ _ _, Ok [] |})
  = (Ok VNotImplemented, init_state {| group_nodes := λ _ _, Ok [] |}).
Proof.
  apply (C10_eq_NotImplemented_others_TypeError 1%positive (VStr "node1") false).
  reflexivity.
Defined.

(** ** C1, C2: slices *)

(** C1.  The claim is that [a[s]] returns the selected members as a new
    NodeSetBase.  In the code every slice access stops in the call
    [self._extractslice(self, index)], which passes one argument too many:
    [__getitem__] raises [TypeError] for every node set and every slice, in
    particular for [NodeSet("foo[1-5]")[0:2]]. *)
Theorem C1_getitem_slice_raises_TypeError :
  (∀ (self : loc) (start stop step : option Z) (st : state),
     result_of (NodeSetBase___getitem__ self (VSlice start stop step)) st
     = arity_TypeError)
  ∧ (∀ std, with_NodeSet std "foo[1-5]"
       (λ a, NodeSet___getitem__ a (VSlice (Some 0) (Some 2) None))
     = arity_TypeError).
Proof. split; [reflexivity | intros std; vm_compute; reflexivity]. Qed.

(** The integer branch of [__getitem__] works: the members of [foo[1-5]] in
    canonical order. *)
Lemma getitem_int_example std :
  with_NodeSet std "foo[1-5]" (λ a, NodeSetBase___getitem__ a (VInt 2)) = Ok (VStr "foo3")
  ∧ with_NodeSet std "foo[1-5]" (λ a, NodeSetBase___getitem__ a (VInt (-1))) = Ok (VStr "foo5")
  ∧ with_NodeSet std "foo[1-5]" (λ a, NodeSetBase___getitem__ a (VInt 5))
    = Raise (IndexError "out of range").
Proof. repeat split; vm_compute; reflexivity. Qed.

(** C2.  The claim (and the docstring of [split]) is that
    [NodeSet("foo[1-5]").split(3)] yields [foo[1-2]], [foo[3-4]], [foo5].  In
    the code the first slice taken by [split] raises [TypeError]. *)
Theorem C2_split_raises_TypeError :
  ∀ std, with_NodeSet std "foo[1-5]" (λ a, NodeSet_split a 3) = arity_TypeError.
Proof. intros std; vm_compute; reflexivity. Qed.

(** ** C4: parse errors *)

(** C4.  The claim is that the [part] of a parse error is the offending
    substring.  For a term with an empty node name the scanner raises the
    error after [pat] was set to what follows the term: the error of
    ["[1-3],foo"] carries ["foo"] and the error of ["[1-3]"] carries [None],
    not the offending ["[1-3]"]; likewise for an empty term.  A missing
    bracket is reported with the text from the faulty term on. *)
Theorem C4_empty_node_name_part_is_the_rest :
  _scan_string "[1-3],foo" None
    = ([], ScanFailed (NodeSetParseError (Some "foo") "empty node name"))
  ∧ _scan_string "[1-3]" None
    = ([], ScanFailed (NodeSetParseError None "empty node name"))
  ∧ _scan_string "foo,,bar" None
    = ([Event op_update "foo" None],
       ScanFailed (NodeSetParseError (Some "bar") "empty node name"))
  ∧ _scan_string "foo,bar[1-3" None
    = ([Event op_update "foo" None],
       ScanFailed (NodeSetParseError (Some "bar[1-3") "missing bracket")).
Proof. repeat split; vm_compute; reflexivity. Qed.

(** ** Basic facts on the monad and the store primitives *)

Lemma bind_eq {A B} (m : M A) (k : A → M B) st :
  bind m k st = match m st with
                | (Ok a, st') => k a st'
                | (Raise e, st') => (Raise e, st')
                end.
Proof. reflexivity. Qed.

Lemma bind_ok {A B} (m : M A) (k : A → M B) st a st' :
  m st = (Ok a, st') → bind m k st = k a st'.
Proof. intros H. by rewrite bind_eq, H. Qed.

Lemma bind_raise {A B} (m : M A) (k : A → M B) st e st' :
  m st = (Raise e, st') → bind m k st = (Raise e, st').
Proof. intros H. by rewrite bind_eq, H. Qed.

Lemma for_fold_ext {A B} (l : list A) (body body' : A → B → M B) acc st :
  (∀ x acc st, body x acc st = body' x acc st) →
  for_fold l acc body st = for_fold l acc body' st.
Proof.
  intros Hext. revert acc st.
  induction l as [|x l IH]; intros acc st; simpl; [done|].
  rewrite !bind_eq, Hext. destruct (body' x acc st) as [[acc'|e] st']; auto.
Qed.

Lemma iteritems_ext {B} d (body body' : string → option loc → B → M B) acc st :
  (∀ pat v acc st, body pat v acc st = body' pat v acc st) →
  iteritems d acc body st = iteritems d acc body' st.
Proof.
  intros Hext. unfold iteritems. rewrite !bind_eq.
  destruct (read_ns d st) as [[o|e] st']; [|done].
  apply for_fold_ext. intros pat acc' st''. rewrite !bind_eq.
  destruct (read_ns d st'') as [[o'|e] st3]; [|done].
  case_bool_decide; [|done]. destruct (_patterns o' !! pat); [apply Hext|done].
Qed.

Lemma read_only_ret {A} (a : A) : read_only (ret a).
Proof. done. Qed.

Lemma read_only_raise {A} e : read_only (@raise A e).
Proof. done. Qed.

Lemma read_only_bind {A B} (m : M A) (k : A → M B) :
  read_only m → (∀ a, read_only (k a)) → read_only (bind m k).
Proof.
  intros Hm Hk st. rewrite bind_eq. specialize (Hm st).
  destruct (m st) as [[a|e] st']; simpl in *; subst; [apply Hk|done].
Qed.

Lemma read_only_read_ns l : read_only (read_ns l).
Proof. intros st. unfold read_ns. by destruct (nsets st !! l). Qed.

Lemma read_only_read_rs l : read_only (read_rs l).
Proof. intros st. unfold read_rs. by destruct (rsets st !! l). Qed.

Lemma read_only_truth v : read_only (truth v).
Proof.
  destruct v as [l|]; [|apply read_only_ret].
  apply read_only_bind; [|intros; apply read_only_ret].
  apply read_only_bind; [apply read_only_read_rs|intros; apply read_only_ret].
Qed.

Lemma read_only_patterns_get self pat : read_only (patterns_get self pat).
Proof. apply read_only_bind; [apply read_only_read_ns|intros; apply read_only_ret]. Qed.

Lemma read_only_patterns_has_key self pat : read_only (patterns_has_key self pat).
Proof. apply read_only_bind; [apply read_only_read_ns|intros; apply read_only_ret]. Qed.

Lemma read_only_both_unnumbered self pat v : read_only (both_unnumbered self pat v).
Proof.
  apply read_only_bind; [apply read_only_truth|].
  intros []; [apply read_only_ret|apply read_only_patterns_has_key].
Qed.

(** Evaluating a read-only condition twice gives the same answer: the second
    of two identical [elif] branches is never taken. *)
Lemma duplicate_elif {A} (c : M bool) (body done : M A) st :
  read_only c →
  (do c1 <- c; if c1 then body else do c2 <- c; if c2 then body else done) st
  = (do c1 <- c; if c1 then body else done) st.
Proof.
  intros Hc. rewrite !bind_eq. pose proof (Hc st) as Hst.
  destruct (c st) as [[[]|e] st'] eqn:Hcst; simpl in Hst; subst; try done.
  by rewrite bind_eq, Hcst.
Qed.

Lemma intersection_update_duplicate_branch (self : loc) (other : value) (st : state) :
  NodeSetBase_intersection_update self other st
  = intersection_update_single_branch self other st.
Proof.
  unfold NodeSetBase_intersection_update, intersection_update_single_branch.
  rewrite !bind_eq. destruct (_binary_sanity_check other st) as [[o|e] st1]; [|done].
  case_bool_decide; [done|].
  rewrite !bind_eq. destruct (NodeSetBase_new _ _ _ st1) as [[tmp|e] st2]; [|done].
  rewrite !bind_eq.
  rewrite (iteritems_ext o _
    (λ pat irangeset _,
      do rangeset <- patterns_get self pat;
      do c <- truth rangeset;
      if c then intersect_rangesets tmp pat rangeset irangeset
      else
        do c1 <- both_unnumbered self pat irangeset;
        if c1 then call__add tmp pat None
        else ret tt)); [done|].
  intros pat v [] st3. rewrite !bind_eq.
  destruct (patterns_get self pat st3) as [[rangeset|e] st4]; [|done].
  rewrite !bind_eq. destruct (truth rangeset st4) as [[[]|e] st5]; [done| |done].
  apply duplicate_elif, read_only_both_unnumbered.
Qed.

(** ** Weakest preconditions of the primitives *)

Lemma store_okb_spec st : store_okb st = true → store_ok st.
Proof.
  unfold store_okb. intros [H1 H2]%andb_true_iff.
  rewrite forallb_forall in H1, H2. split; intros l Hl.
  - apply Pos.ltb_lt, H1, list_elem_of_In, elem_of_elements, elem_of_dom, Hl.
  - apply Pos.ltb_lt, H2, list_elem_of_In, elem_of_elements, elem_of_dom, Hl.
Qed.

Lemma wp_read_ns l st (Q : res nodeset_obj → state → Prop) :
  (∀ o, nsets st !! l = Some o → Q (Ok o) st) →
  (∀ e, is_missing_member e = false → nsets st !! l = None → Q (Raise e) st) →
  wp (read_ns l) st Q.
Proof. intros H1 H2. unfold wp, read_ns. destruct (nsets st !! l) eqn:E; simpl; eauto. Qed.

Lemma wp_read_rs l st (Q : res RangeSet → state → Prop) :
  (∀ r, rsets st !! l = Some r → Q (Ok r) st) →
  (∀ e, is_missing_member e = false → rsets st !! l = None → Q (Raise e) st) →
  wp (read_rs l) st Q.
Proof. intros H1 H2. unfold wp, read_rs. destruct (rsets st !! l) eqn:E; simpl; eauto. Qed.

Lemma wp_write_rs l r st (Q : res unit → state → Prop) :
  Q (Ok tt) (upd_rs l r st) → wp (write_rs l r) st Q.
Proof. done. Qed.

Lemma wp_write_ns l o st (Q : res unit → state → Prop) :
  Q (Ok tt) (upd_ns l o st) → wp (write_ns l o) st Q.
Proof. done. Qed.

Lemma wp_alloc_rs r st (Q : res loc → state → Prop) :
  Q (Ok (next_loc st)) (new_rs r st) → wp (alloc_rs r) st Q.
Proof. done. Qed.

Lemma wp_alloc_ns o st (Q : res loc → state → Prop) :
  Q (Ok (next_loc st)) (new_ns o st) → wp (alloc_ns o) st Q.
Proof. done. Qed.

Lemma wp_truth v st (Q : res bool → state → Prop) :
  (∀ b, truthy st v = Some b → Q (Ok b) st) →
  (∀ e, is_missing_member e = false → truthy st v = None → Q (Raise e) st) →
  wp (truth v) st Q.
Proof.
  intros H1 H2. destruct v as [l|]; [|by apply H1].
  unfold wp, truth, RangeSet_len, read_rs, bind, truthy in *.
  destruct (rsets st !! l) eqn:E; simpl; eauto.
Qed.

Lemma wp_patterns_get self pat st (Q : res (option loc) → state → Prop) :
  (∀ o, nsets st !! self = Some o → Q (Ok (entry (_patterns o) pat)) st) →
  (∀ e, is_missing_member e = false → nsets st !! self = None → Q (Raise e) st) →
  wp (patterns_get self pat) st Q.
Proof.
  intros H1 H2. unfold wp, patterns_get, read_ns, bind.
  destruct (nsets st !! self) eqn:E; simpl; eauto.
Qed.

Lemma wp_patterns_has_key self pat st (Q : res bool → state → Prop) :
  (∀ o, nsets st !! self = Some o →
     Q (Ok (bool_decide (is_Some (_patterns o !! pat)))) st) →
  (∀ e, is_missing_member e = false → nsets st !! self = None → Q (Raise e) st) →
  wp (patterns_has_key self pat) st Q.
Proof.
  intros H1 H2. unfold wp, patterns_has_key, read_ns, bind.
  destruct (nsets st !! self) eqn:E; simpl; eauto.
Qed.

Lemma wp_patterns_set self pat v st (Q : res unit → state → Prop) :
  (∀ o, nsets st !! self = Some o →
     Q (Ok tt) (upd_ns self (set_patterns o (<[pat := v]> (_patterns o))) st)) →
  (∀ e, is_missing_member e = false → nsets st !! self = None → Q (Raise e) st) →
  wp (patterns_set self pat v) st Q.
Proof.
  intros H1 H2. unfold wp, patterns_set, read_ns, bind.
  destruct (nsets st !! self) eqn:E; simpl; eauto.
Qed.

Lemma wp_patterns_del self pat st (Q : res unit → state → Prop) :
  (∀ o v, nsets st !! self = Some o → _patterns o !! pat = Some v →
     Q (Ok tt) (upd_ns self (set_patterns o (delete pat (_patterns o))) st)) →
  (∀ o, nsets st !! self = Some o → _patterns o !! pat = None →
     Q (Raise (KeyError pat)) st) →
  (∀ e, is_missing_member e = false → nsets st !! self = None → Q (Raise e) st) →
  wp (patterns_del self pat) st Q.
Proof.
  intros H1 H2 H3. unfold wp, patterns_del, read_ns, bind.
  destruct (nsets st !! self) as [o|] eqn:E1; simpl; eauto.
  destruct (_patterns o !! pat) eqn:E; simpl; eauto.
Qed.

Lemma wp_py_assert b st (Q : res unit → state → Prop) :
  (b = true → Q (Ok tt) st) → (b = false → Q (Raise AssertionError) st) →
  wp (py_assert b) st Q.
Proof. intros H1 H2. destruct b; [by apply H1|by apply H2]. Qed.

Lemma wp_rs_arg v st (Q : res RangeSet → state → Prop) :
  (∀ l r, v = Some l → rsets st !! l = Some r → Q (Ok r) st) →
  (∀ e, is_missing_member e = false → Q (Raise e) st) →
  wp (rs_arg v) st Q.
Proof.
  intros H1 H2. destruct v as [l|]; [|by apply H2].
  apply wp_read_rs; eauto.
Qed.

Lemma wp_on_rangeset {A} v meth (f : loc → M A) st (Q : res A → state → Prop) :
  (∀ l, v = Some l → wp (f l) st Q) →
  (v = None → Q (Raise (AttributeError meth)) st) →
  wp (on_rangeset v meth f) st Q.
Proof. intros H1 H2. destruct v; simpl; [by apply H1|by apply H2]. Qed.

Lemma wp_iteritems {B} (I : list string → B → state → Prop) d m
    (body : string → option loc → B → M B) acc st (Q : res B → state → Prop) :
  patterns_of st d = Some m →
  I [] acc st →
  (∀ done pat v rest acc st,
     (map_to_list m).*1 = done ++ pat :: rest → m !! pat = Some v →
     pat ∉ done → patterns_of st d = Some m → I done acc st →
     wp (body pat v acc) st
       (λ r st', match r with
                 | Ok acc' => patterns_of st' d = Some m ∧ I (done ++ [pat]) acc' st'
                 | Raise e => Q (Raise e) st'
                 end)) →
  (∀ acc st, patterns_of st d = Some m → I (map_to_list m).*1 acc st → Q (Ok acc) st) →
  wp (iteritems d acc body) st Q.
Proof.
  intros Hd HI Hbody Hend. unfold iteritems.
  apply wp_bind, wp_read_ns; intros o Ho;
    [|intros Hn; unfold patterns_of in Hd; by rewrite Hn in Hd].
  assert (_patterns o = m) as Hm.
  { unfold patterns_of in Hd. rewrite Ho in Hd. by injection Hd. }
  subst m. clear Ho.
  apply (wp_for_fold (λ done acc st,
           patterns_of st d = Some (_patterns o) ∧ I done acc st)); [by split| |].
  - intros done pat rest acc' st' Hl [Hd' HI'].
    assert (NoDup (map_to_list (_patterns o)).*1) as Hnd by apply NoDup_fst_map_to_list.
    assert (pat ∉ done) as Hnotin.
    { rewrite Hl in Hnd. apply NoDup_app in Hnd as (_ & Hnd & _).
      intros Hin. apply (Hnd pat Hin). left. }
    assert (is_Some (_patterns o !! pat)) as [v Hv].
    { apply elem_of_dom. rewrite <- (list_to_set_elements_L (dom (_patterns o))).
      apply elem_of_list_to_set. apply elem_of_elements.
      apply elem_of_dom. destruct (_patterns o !! pat) eqn:E; [eauto|].
      exfalso. assert (pat ∈ (map_to_list (_patterns o)).*1) as Hin.
      { rewrite Hl. apply elem_of_app. right. left. }
      apply list_elem_of_fmap in Hin as ([k w] & -> & Hin).
      apply elem_of_map_to_list in Hin. simpl in E. congruence. }
    apply wp_bind, wp_read_ns; intros o' Ho';
      [|intros Hn; unfold patterns_of in Hd'; by rewrite Hn in Hd'].
    assert (_patterns o' = _patterns o) as Heq.
    { unfold patterns_of in Hd'. rewrite Ho' in Hd'. by injection Hd'. }
    rewrite Heq. rewrite bool_decide_true by done. rewrite Hv.
    by eapply Hbody.
  - intros acc' st' [Hd' HI']. by apply Hend.
Qed.

Lemma wp_eq {A} (m m' : M A) st (Q : res A → state → Prop) :
  m st = m' st → wp m' st Q → wp m st Q.
Proof. intros H HQ. unfold wp in *. by rewrite H. Qed.

Lemma wp_run {A} (m : M A) st (Q : res A → state → Prop) r st' :
  wp m st Q → m st = (r, st') → Q r st'.
Proof. intros HQ H. unfold wp in *. by rewrite H in HQ. Qed.

Lemma wp_any {A} (m : M A) st : wp m st (λ _ _, True).
Proof. done. Qed.

Lemma wp_bind_any {A B} (m : M A) (k : A → M B) st (Q : res B → state → Prop) :
  (∀ a st', wp (k a) st' Q) → (∀ e st', Q (Raise e) st') → wp (bind m k) st Q.
Proof.
  intros Hk He. apply wp_bind. eapply wp_mono; [apply wp_any|].
  intros [a|e] st' _; auto.
Qed.

Lemma wp_and {A} (m : M A) st (Q1 Q2 : res A → state → Prop) :
  wp m st Q1 → wp m st Q2 → wp m st (λ r st', Q1 r st' ∧ Q2 r st').
Proof. done. Qed.

Global Arguments wp : simpl never.
Global Opaque wp.

(** ** Weakest preconditions of the RangeSet methods *)

Lemma wp_RangeSet_copy l st (Q : res loc → state → Prop) :
  (∀ r, rsets st !! l = Some r → Q (Ok (next_loc st)) (new_rs r st)) →
  (∀ e, is_missing_member e = false → rsets st !! l = None → Q (Raise e) st) →
  wp (RangeSet_copy l) st Q.
Proof.
  intros H1 H2. unfold RangeSet_copy.
  apply wp_bind, wp_read_rs; [|done]. intros r Hr. by apply wp_alloc_rs, H1.
Qed.

Lemma wp_RangeSet_len l st (Q : res Z → state → Prop) :
  (∀ r, rsets st !! l = Some r → Q (Ok (rs_len r)) st) →
  (∀ e, is_missing_member e = false → rsets st !! l = None → Q (Raise e) st) →
  wp (RangeSet_len l) st Q.
Proof.
  intros H1 H2. unfold RangeSet_len.
  apply wp_bind, wp_read_rs; [|done]. intros r Hr. by apply wp_ret, H1.
Qed.

Lemma wp_len_entry v st (Q : res Z → state → Prop) :
  (∀ l r, v = Some l → rsets st !! l = Some r → Q (Ok (rs_len r)) st) →
  (∀ e, is_missing_member e = false → Q (Raise e) st) →
  wp (len_entry v) st Q.
Proof.
  intros H1 H2. destruct v as [l|]; [|by apply wp_raise, H2].
  apply wp_RangeSet_len; eauto.
Qed.

(** The three in-place operations that cannot fail on membership grounds. *)
Lemma wp_rs_binop (f : gset Z → gset Z → gset Z) self other st
    (Q : res unit → state → Prop) :
  (∀ lo o r, other = Some lo → rsets st !! lo = Some o → rsets st !! self = Some r →
     Q (Ok tt) (upd_rs self (rs_with r (f (rs_members r) (rs_members o))) st)) →
  (∀ e, is_missing_member e = false → Q (Raise e) st) →
  wp (do o <- rs_arg other; do r <- read_rs self;
      write_rs self (rs_with r (f (rs_members r) (rs_members o)))) st Q.
Proof.
  intros H1 H2. apply wp_bind, wp_rs_arg; [|done]. intros lo o -> Ho.
  apply wp_bind, wp_read_rs; [|by intros; apply H2]. intros r Hr.
  apply wp_write_rs. by eapply H1.
Qed.

Lemma wp_RangeSet_update self other st (Q : res unit → state → Prop) :
  (∀ lo o r, other = Some lo → rsets st !! lo = Some o → rsets st !! self = Some r →
     Q (Ok tt) (upd_rs self (rs_with r (rs_members r ∪ rs_members o)) st)) →
  (∀ e, is_missing_member e = false → Q (Raise e) st) →
  wp (RangeSet_update self other) st Q.
Proof. apply (wp_rs_binop (∪)). Qed.

Lemma wp_RangeSet_intersection_update self other st (Q : res unit → state → Prop) :
  (∀ lo o r, other = Some lo → rsets st !! lo = Some o → rsets st !! self = Some r →
     Q (Ok tt) (upd_rs self (rs_with r (rs_members r ∩ rs_members o)) st)) →
  (∀ e, is_missing_member e = false → Q (Raise e) st) →
  wp (RangeSet_intersection_update self other) st Q.
Proof. apply (wp_rs_binop (∩)). Qed.

Lemma wp_RangeSet_symmetric_difference_update self other st
    (Q : res unit → state → Prop) :
  (∀ lo o r, other = Some lo → rsets st !! lo = Some o → rsets st !! self = Some r →
     Q (Ok tt) (upd_rs self (rs_with r ((rs_members r ∖ rs_members o)
                                        ∪ (rs_members o ∖ rs_members r))) st)) →
  (∀ e, is_missing_member e = false → Q (Raise e) st) →
  wp (RangeSet_symmetric_difference_update self other) st Q.
Proof. apply (wp_rs_binop (λ r o, (r ∖ o) ∪ (o ∖ r))). Qed.

Lemma rs_sorted_nil r : rs_sorted r = [] ↔ rs_members r = ∅.
Proof.
  unfold rs_sorted. split.
  - intros H. apply leibniz_equiv, elements_empty_inv.
    apply Permutation_nil_r. rewrite <- H. symmetry. apply merge_sort_Permutation.
  - intros ->. by rewrite elements_empty.
Qed.

Lemma wp_RangeSet_difference_update self other strict st
    (Q : res unit → state → Prop) :
  (∀ lo o r, other = Some lo → rsets st !! lo = Some o → rsets st !! self = Some r →
     (strict = true → rs_members o ⊆ rs_members r) →
     Q (Ok tt) (upd_rs self (rs_with r (rs_members r ∖ rs_members o)) st)) →
  (∀ lo o r i, other = Some lo → rsets st !! lo = Some o → rsets st !! self = Some r →
     strict = true → ¬ rs_members o ⊆ rs_members r →
     Q (Raise (MissingMember i)) st) →
  (∀ e, is_missing_member e = false → Q (Raise e) st) →
  wp (RangeSet_difference_update self other strict) st Q.
Proof.
  intros H1 H2 H3. unfold RangeSet_difference_update.
  apply wp_bind, wp_rs_arg; [|done]. intros lo o -> Ho.
  apply wp_bind, wp_read_rs; [|by intros; apply H3]. intros r Hr.
  destruct strict; simpl.
  - destruct (head _) as [i|] eqn:Hhead.
    + apply wp_raise. eapply H2; eauto. intros Hsub.
      assert (rs_sorted (rs_with o (rs_members o ∖ rs_members r)) = []) as Hnil.
      { apply rs_sorted_nil. simpl. set_solver. }
      by rewrite Hnil in Hhead.
    + apply wp_write_rs. eapply H1; eauto. intros _.
      apply head_None, rs_sorted_nil in Hhead. simpl in Hhead. intros x Hx.
      destruct (decide (x ∈ rs_members r)); [done|]. set_solver.
  - apply wp_write_rs. eapply H1; eauto. done.
Qed.

(** ** The outcomes of [_add] *)

(** [_add] either fails before it writes anything, or merges into the
    RangeSet already stored for the pattern, or stores a fresh copy of its
    argument, or stores [None]. *)
Lemma wp_NodeSetBase__add self pat v st (Q : res unit → state → Prop) :
  (∀ e, is_missing_member e = false → Q (Raise e) st) →
  (∀ o le re lv rv,
     nsets st !! self = Some o → _patterns o !! pat = Some (Some le) →
     rsets st !! le = Some re → 0 < rs_len re →
     v = Some lv → rsets st !! lv = Some rv →
     Q (Ok tt) (upd_rs le (rs_with re (rs_members re ∪ rs_members rv)) st)) →
  (∀ o lv rv,
     nsets st !! self = Some o → truthy st (entry (_patterns o) pat) = Some false →
     v = Some lv → rsets st !! lv = Some rv → 0 < rs_len rv →
     Q (Ok tt) (upd_ns self (set_patterns o (<[pat := Some (next_loc st)]> (_patterns o)))
                  (new_rs rv st))) →
  (∀ o,
     nsets st !! self = Some o → truthy st (entry (_patterns o) pat) = Some false →
     truthy st v = Some false →
     Q (Ok tt) (upd_ns self (set_patterns o (<[pat := None]> (_patterns o))) st)) →
  wp (NodeSetBase__add self pat v) st Q.
Proof.
  intros Herr Hmerge Hcopy Hnone. unfold NodeSetBase__add.
  apply wp_bind, wp_patterns_get; [|by intros; apply Herr]. intros o Ho.
  apply wp_bind, wp_truth; [|by intros; apply Herr]. intros [] Hc.
  - apply wp_bind, wp_py_assert; [|by intros; apply Herr]. intros Hv.
    apply bool_decide_eq_true in Hv as [lv ->].
    apply wp_on_rangeset; [|by intros; apply Herr]. intros le Hle.
    rewrite Hle in Hc. simpl in Hc.
    destruct (rsets st !! le) as [re|] eqn:Hre; [|done]. simpl in Hc.
    injection Hc as Hc. apply Z.ltb_lt in Hc.
    apply wp_RangeSet_update; [|done]. intros lo rv r [= <-] Hrv Hr.
    rewrite Hre in Hr. injection Hr as <-.
    eapply Hmerge; eauto.
    unfold entry in Hle. destruct (_patterns o !! pat) as [w|]; [by subst|done].
  - apply wp_bind, wp_truth; [|by intros; apply Herr]. intros [] Hc'.
    + apply wp_bind, wp_on_rangeset; [|by intros; apply Herr]. intros lv ->.
      apply wp_RangeSet_copy; [|by intros; apply Herr]. intros rv Hrv.
      apply wp_patterns_set; [|intros e _ Hn; simpl in Hn; congruence]. intros o' Ho'.
      simpl in Ho'. rewrite Ho in Ho'. injection Ho' as <-.
      eapply Hcopy; eauto. simpl in Hc'. rewrite Hrv in Hc'. simpl in Hc'.
      injection Hc' as Hc'. by apply Z.ltb_lt.
    + apply wp_patterns_set; [|by intros; apply Herr]. intros o' Ho'.
      rewrite Ho in Ho'. injection Ho' as <-. by eapply Hnone.
Qed.

Lemma wp_call__add self pat v st (Q : res unit → state → Prop) :
  (∀ e, is_missing_member e = false → Q (Raise e) st) →
  (∀ o le re lv rv,
     nsets st !! self = Some o → _patterns o !! pat = Some (Some le) →
     rsets st !! le = Some re → 0 < rs_len re →
     v = Some lv → rsets st !! lv = Some rv →
     Q (Ok tt) (upd_rs le (rs_with re (rs_members re ∪ rs_members rv)) st)) →
  (∀ o lv rv,
     nsets st !! self = Some o → truthy st (entry (_patterns o) pat) = Some false →
     v = Some lv → rsets st !! lv = Some rv → 0 < rs_len rv →
     Q (Ok tt) (upd_ns self (set_patterns o (<[pat := Some (next_loc st)]> (_patterns o)))
                  (new_rs rv st))) →
  (∀ o,
     nsets st !! self = Some o → truthy st (entry (_patterns o) pat) = Some false →
     truthy st v = Some false →
     Q (Ok tt) (upd_ns self (set_patterns o (<[pat := None]> (_patterns o))) st)) →
  wp (call__add self pat v) st Q.
Proof.
  intros Herr Hmerge Hcopy Hnone. unfold call__add.
  apply wp_bind, wp_read_ns; [|by intros; apply Herr]. intros o Ho.
  destruct (ob_class o); try by apply wp_NodeSetBase__add.
  unfold NodeGroupBase__add. apply wp_bind.
  destruct pat as [|c pat']; [apply wp_ret; by apply wp_NodeSetBase__add|].
  case_bool_decide; [by apply wp_raise, Herr|].
  apply wp_ret. by apply wp_NodeSetBase__add.
Qed.

(** ** C8: the unnumbered node present on both sides survives *)

Lemma wp_NodeSetBase_new_empty c st (Q : res loc → state → Prop) :
  Q (Ok (next_loc st)) (new_ns (empty_NodeSetBase c) st) →
  wp (NodeSetBase_new c None None) st Q.
Proof.
  intros H. unfold NodeSetBase_new. apply wp_bind, wp_alloc_ns.
  apply wp_bind, wp_ret. by apply wp_ret.
Qed.

Lemma store_ok_fresh_ns st l o :
  store_ok st → nsets st !! l = Some o → l ≠ next_loc st.
Proof. intros [_ H] Hl ->. apply (Pos.lt_irrefl (next_loc st)), H. eauto. Qed.

Lemma store_ok_fresh_rs st l r :
  store_ok st → rsets st !! l = Some r → l ≠ next_loc st.
Proof. intros [H _] Hl ->. apply (Pos.lt_irrefl (next_loc st)), H. eauto. Qed.

Lemma entry_Some d pat l : entry d pat = Some l → d !! pat = Some (Some l).
Proof. unfold entry. destruct (d !! pat) as [[]|]; naive_solver. Qed.

Lemma intersection_update_keeps_unnumbered st a b da db pat :
  store_ok st →
  patterns_of st a = Some da → patterns_of st b = Some db →
  da !! pat = Some None → db !! pat = Some None →
  wp (NodeSetBase_intersection_update a (VNodeSet b)) st
    (λ r st', r = Ok tt → ∃ da', patterns_of st' a = Some da' ∧ da' !! pat = Some None).
Proof.
  intros Hok Ha Hb Hpa Hpb.
  apply (wp_eq _ _ _ _ (intersection_update_duplicate_branch a (VNodeSet b) st)).
  unfold intersection_update_single_branch.
  apply wp_bind, wp_ret. case_bool_decide as Hab; [apply wp_ret; eauto|].
  apply wp_bind, wp_NodeSetBase_new_empty.
  set (tmp := next_loc st). set (st1 := new_ns _ st).
  unfold patterns_of in Ha, Hb.
  destruct (nsets st !! a) as [oa|] eqn:Hoa; [|done].
  destruct (nsets st !! b) as [ob|] eqn:Hob; [|done].
  injection Ha as Ha. injection Hb as Hb.
  assert (a ≠ tmp) as Hat by by eapply store_ok_fresh_ns.
  assert (b ≠ tmp) as Hbt by by eapply store_ok_fresh_ns.
  apply wp_bind.
  apply (wp_iteritems (λ done _ st',
           nsets st' !! a = Some oa
           ∧ ∃ ot, nsets st' !! tmp = Some ot
                   ∧ (pat ∈ done → _patterns ot !! pat = Some None)) b db).
  - unfold patterns_of, st1. simpl. rewrite lookup_insert_ne by done. rewrite Hob. simpl. by f_equal.
  - unfold st1. simpl. rewrite lookup_insert_ne by done. split; [done|].
    eexists. rewrite lookup_insert_eq. split; [done|]. by intros ?%elem_of_nil.
  - intros done k v rest [] st2 Hl Hk Hkdone Hb2 (Ha2 & ot & Hot & Hpat).
    assert (∀ st3, nsets st3 !! a = Some oa →
                   (∃ ot', nsets st3 !! tmp = Some ot'
                           ∧ (pat ∈ done ++ [k] → _patterns ot' !! pat = Some None)) →
                   nsets st3 !! b = nsets st2 !! b →
                   patterns_of st3 b = Some db
                   ∧ nsets st3 !! a = Some oa
                   ∧ ∃ ot', nsets st3 !! tmp = Some ot'
                            ∧ (pat ∈ done ++ [k] → _patterns ot' !! pat = Some None))
      as Hpost.
    { intros st3 H1 H2 H3. split_and!; try done. unfold patterns_of in *. by rewrite H3. }
    assert (k ≠ pat → pat ∈ done ++ [k] → pat ∈ done) as Hin.
    { intros Hne [?|?%list_elem_of_singleton]%elem_of_app; [done|congruence]. }
    apply wp_bind, wp_patterns_get; [|done]. intros o Ho.
    rewrite Ha2 in Ho. injection Ho as <-.
    apply wp_bind, wp_truth; [|done]. intros [] Hc.
    + (* both sides have a RangeSet: the key is not [pat] *)
      assert (k ≠ pat) as Hne.
      { intros ->. unfold entry in Hc. rewrite Ha, Hpa in Hc. done. }
      unfold intersect_rangesets.
      apply wp_bind, wp_on_rangeset; [|done]. intros l Hl'.
      apply wp_RangeSet_copy; [|done]. intros r Hr.
      apply wp_bind, wp_RangeSet_intersection_update; [|done]. intros lo o r' -> Hlo Hr'.
      apply wp_bind, wp_RangeSet_len; [|done]. intros r'' Hr''.
      destruct (0 <? rs_len r''); [|apply wp_ret; apply Hpost; simpl; eauto].
      apply wp_call__add; [done| | |].
      * intros. apply Hpost; simpl; eauto.
      * intros o' lv rv Ho' _ _ _ _. simpl in Ho'. rewrite Hot in Ho'. injection Ho' as <-.
        apply Hpost; simpl.
        -- by rewrite lookup_insert_ne.
        -- rewrite lookup_insert_eq. eexists; split; [done|]. simpl.
           rewrite lookup_insert_ne by done. auto.
        -- by rewrite lookup_insert_ne.
      * intros o' Ho' _ _. simpl in Ho'. rewrite Hot in Ho'. injection Ho' as <-.
        apply Hpost; simpl.
        -- by rewrite lookup_insert_ne.
        -- rewrite lookup_insert_eq. eexists; split; [done|]. simpl.
           rewrite lookup_insert_ne by done. auto.
        -- by rewrite lookup_insert_ne.
    + unfold both_unnumbered.
      apply wp_bind, wp_bind, wp_truth; [|done]. intros cv Hcv.
      assert (∀ c1, (k = pat → c1 = true) →
                wp (if c1 then call__add tmp k None else ret tt) st2
                  (λ r st', match r with
                            | Ok _ => patterns_of st' b = Some db
                                      ∧ nsets st' !! a = Some oa
                                      ∧ ∃ ot', nsets st' !! tmp = Some ot'
                                        ∧ (pat ∈ done ++ [k] → _patterns ot' !! pat = Some None)
                            | Raise _ => True
                            end)) as Hbranch.
      { intros [] Hc1.
        - apply wp_call__add; [done| | |].
          + intros; discriminate.
          + intros; discriminate.
          + intros o' Ho' _ _. rewrite Hot in Ho'. injection Ho' as <-.
            apply Hpost; simpl.
            * by rewrite lookup_insert_ne.
            * rewrite lookup_insert_eq. eexists; split; [done|]. simpl.
              destruct (decide (k = pat)) as [->|Hne];
                [by rewrite lookup_insert_eq|rewrite lookup_insert_ne by done; auto].
            * by rewrite lookup_insert_ne.
        - apply wp_ret. apply Hpost; eauto.
          eexists; split; [done|]. intros Hp. apply Hpat, Hin; [|done].
          intros ->. by specialize (Hc1 eq_refl). }
      destruct cv; simpl.
      * apply wp_ret. simpl. eapply wp_mono; [apply (Hbranch false)|].
        -- intros ->. rewrite Hpb in Hk. injection Hk as <-. done.
        -- intros [] ?; [|done]. intros H. exact H.
      * apply wp_patterns_has_key; [|done]. intros o Ho.
        rewrite Ha2 in Ho. injection Ho as <-.
        eapply wp_mono; [apply Hbranch|].
        -- intros ->. rewrite Ha, Hpa. by apply bool_decide_eq_true.
        -- intros [] ?; [|done]. intros H. exact H.
  - intros [] st2 Hb2 (Ha2 & ot & Hot & Hpat).
    apply wp_bind, wp_read_ns; [|done]. intros t Ht.
    apply wp_bind, wp_read_ns; [|done]. intros o Ho.
    apply wp_write_ns. intros _. unfold patterns_of. simpl.
    rewrite lookup_insert_eq. simpl. eexists; split; [done|].
    rewrite Hot in Ht. injection Ht as <-. apply Hpat.
    assert (pat ∈ dom db) as Hin by (apply elem_of_dom; eauto).
    apply elem_of_dom in Hin as [w Hw].
    apply list_elem_of_fmap. exists (pat, w). split; [done|].
    by apply elem_of_map_to_list.
Qed.

(** C8.  The second of the two identical [elif] branches of
    [intersection_update] is dead: the method computes the same result and
    the same store without it.  A template that both operands map to [None]
    (an unnumbered node) is still a key of [a], with value [None], when
    [a.intersection_update(b)] returns. *)
Theorem C8_duplicate_branch_is_dead :
  (∀ self other st,
     NodeSetBase_intersection_update self other st
     = intersection_update_single_branch self other st)
  ∧ (∀ st a b da db pat st',
       store_okb st = true →
       patterns_of st a = Some da → patterns_of st b = Some db →
       da !! pat = Some None → db !! pat = Some None →
       NodeSetBase_intersection_update a (VNodeSet b) st = (Ok tt, st') →
       ∃ da', patterns_of st' a = Some da' ∧ da' !! pat = Some None).
Proof.
  split; [apply intersection_update_duplicate_branch|].
  intros st a b da db pat st' Hok%store_okb_spec Ha Hb Hpa Hpb Hrun.
  by apply (wp_run _ _ _ _ _
              (intersection_update_keeps_unnumbered st a b da db pat Hok Ha Hb Hpa Hpb) Hrun).
Qed.

Lemma C8_witness :
  ∃ da', patterns_of
           (NodeSetBase_intersection_update 1%positive (VNodeSet 2%positive) demo_store).2
           1%positive = Some da'
         ∧ da' !! "foo" = Some None.
Proof.
  apply (proj2 C8_duplicate_branch_is_dead demo_store 1%positive 2%positive
           bar_foo_1 bar_foo_2 "foo").
  - vm_compute; reflexivity.
  - vm_compute; reflexivity.
  - vm_compute; reflexivity.
  - vm_compute; reflexivity.
  - vm_compute; reflexivity.
  - vm_compute; reflexivity.
Defined.

(** ** The data-model invariants *)

Lemma no_empty_rangeset_spec st a :
  no_empty_rangeset st a = true ↔
  ∃ d, patterns_of st a = Some d
       ∧ ∀ pat l, d !! pat = Some (Some l) →
           ∃ r, rsets st !! l = Some r ∧ 0 < rs_len r.
Proof.
  unfold no_empty_rangeset. destruct (patterns_of st a) as [d|]; [|naive_solver].
  rewrite forallb_forall. split.
  - intros H. exists d. split; [done|]. intros pat l Hl.
    specialize (H (pat, Some l)). simpl in H.
    destruct (rsets st !! l) as [r|]; [|discriminate H; by apply list_elem_of_In, elem_of_map_to_list].
    exists r. split; [done|]. apply Z.ltb_lt, H, list_elem_of_In. by apply elem_of_map_to_list.
  - intros (d' & [= <-] & H) [pat [l|]] Hin; [|done]. simpl.
    apply list_elem_of_In, elem_of_map_to_list in Hin.
    destruct (H pat l Hin) as (r & -> & Hr). by apply Z.ltb_lt.
Qed.

Lemma unshared_spec st a d pat pat' l :
  unshared st a = true → patterns_of st a = Some d →
  d !! pat = Some (Some l) → d !! pat' = Some (Some l) → pat = pat'.
Proof.
  unfold unshared. intros H Hd. rewrite Hd in H. apply bool_decide_eq_true in H.
  intros H1 H2. apply elem_of_map_to_list in H1, H2.
  assert (NoDup (map_to_list d)) as Hnd by apply NoDup_map_to_list.
  revert H Hnd H1 H2. generalize (map_to_list d). intros lst.
  induction lst as [|[k [w|]] lst IH]; simpl; intros Hnd1 Hnd2 H1 H2.
  - by apply elem_of_nil in H1.
  - apply NoDup_cons in Hnd1 as [Hnotin Hnd1]. apply NoDup_cons in Hnd2 as [_ Hnd2].
    apply elem_of_cons in H1 as [H1|H1], H2 as [H2|H2].
    + congruence.
    + injection H1 as -> ->. exfalso. apply Hnotin.
      apply list_elem_of_omap. by exists (pat', Some w).
    + injection H2 as -> ->. exfalso. apply Hnotin.
      apply list_elem_of_omap. by exists (pat, Some w).
    + by apply IH.
  - apply NoDup_cons in Hnd2 as [_ Hnd2].
    apply elem_of_cons in H1 as [H1|H1], H2 as [H2|H2]; try discriminate. by apply IH.
Qed.

Lemma rs_len_pos r : 0 < rs_len r ↔ rs_members r ≠ ∅.
Proof.
  unfold rs_len. split.
  - intros H Hempty. rewrite Hempty, size_empty in H. lia.
  - intros H. assert (size (rs_members r) ≠ 0%nat); [|lia].
    apply size_non_empty_iff. intros Hx. by apply H, leibniz_equiv.
Qed.

Lemma rs_len_nonneg r : 0 ≤ rs_len r.
Proof. unfold rs_len. lia. Qed.

Lemma rs_len_union_pos r s :
  0 < rs_len r → 0 < rs_len (rs_with r (rs_members r ∪ s)).
Proof. rewrite !rs_len_pos. simpl. set_solver. Qed.

Lemma store_ok_new_rs st r : store_ok st → store_ok (new_rs r st).
Proof.
  intros [H1 H2]. split; simpl; intros l Hl.
  - apply lookup_insert_is_Some in Hl as [->|[_ Hl]]; [lia|]. apply H1 in Hl. lia.
  - apply H2 in Hl. lia.
Qed.

Lemma store_ok_new_ns st o : store_ok st → store_ok (new_ns o st).
Proof.
  intros [H1 H2]. split; simpl; intros l Hl.
  - apply H1 in Hl. lia.
  - apply lookup_insert_is_Some in Hl as [->|[_ Hl]]; [lia|]. apply H2 in Hl. lia.
Qed.

Lemma store_ok_upd_rs st l r r' :
  store_ok st → rsets st !! l = Some r' → store_ok (upd_rs l r st).
Proof.
  intros [H1 H2] Hl. split; simpl; [|done]. intros l' Hl'.
  apply lookup_insert_is_Some in Hl' as [<-|[_ Hl']]; apply H1; eauto.
Qed.

Lemma store_ok_upd_ns st l o o' :
  store_ok st → nsets st !! l = Some o' → store_ok (upd_ns l o st).
Proof.
  intros [H1 H2] Hl. split; simpl; [done|]. intros l' Hl'.
  apply lookup_insert_is_Some in Hl' as [<-|[_ Hl']]; apply H2; eauto.
Qed.

(** [purge]: the listed keys are deleted, nothing else changes; it can only
    fail on a key that is absent or listed twice. *)
Lemma wp_purge a P st d :
  patterns_of st a = Some d →
  wp (purge a P) st
    (λ r st', match r with
              | Ok _ =>
                  rsets st' = rsets st
                  ∧ (∀ l, l ≠ a → nsets st' !! l = nsets st !! l)
                  ∧ next_loc st' = next_loc st
                  ∧ ∃ d', patterns_of st' a = Some d'
                          ∧ ∀ k, d' !! k = if decide (k ∈ P) then None else d !! k
              | Raise e => ¬ (NoDup P ∧ ∀ k, k ∈ P → is_Some (d !! k))
              end).
Proof.
  unfold purge, for_each. revert st d.
  induction P as [|k P IH]; intros st d Hd; simpl.
  - apply wp_ret. split_and!; try done. exists d. split; [done|].
    done.
  - unfold patterns_of in Hd. destruct (nsets st !! a) as [o|] eqn:Ho; [|done].
    injection Hd as <-.
    apply wp_bind, wp_patterns_del.
    + intros o' v Ho' Hv. rewrite Ho in Ho'. injection Ho' as <-.
      eapply wp_mono.
      { apply (IH _ (delete k (_patterns o))). unfold patterns_of. simpl.
        by rewrite lookup_insert_eq. }
      intros [[]|e] st'; simpl.
      * intros (Hrs & Hns & Hnext & d' & Hd' & Hchar). split_and!; try done.
        { intros l Hl. rewrite Hns by done. by rewrite lookup_insert_ne. }
        exists d'. split; [done|]. intros k'. rewrite Hchar.
        destruct (decide (k' = k)) as [->|Hne].
        -- rewrite lookup_delete_eq. rewrite (decide_True _ _ (list_elem_of_here _ _)).
           by destruct (decide (k ∈ P)).
        -- rewrite lookup_delete_ne by done.
           destruct (decide (k' ∈ P)) as [Hin|Hnin].
           ++ by rewrite decide_True by by right.
           ++ rewrite decide_False; [done|]. by intros [?|?]%elem_of_cons.
      * intros Hneg [Hnd Hall]. apply Hneg. apply NoDup_cons in Hnd as [Hk Hnd].
        split; [done|]. intros k' Hk'. rewrite lookup_delete_ne; [apply Hall; by right|].
        by intros ->.
    + intros o' Ho' Hnone [_ Hall]. rewrite Ho in Ho'. injection Ho' as <-.
      destruct (Hall k (list_elem_of_here _ _)) as [? ?]. congruence.
    + intros e _ Hn. congruence.
Qed.

(** ** C5: no template is left with an empty RangeSet *)

Lemma nodeset_nonempty_spec st a :
  no_empty_rangeset st a = true ↔ nodeset_nonempty st a.
Proof. apply no_empty_rangeset_spec. Qed.

Lemma wp_iteritems_unallocated {B} d (acc : B) body st (Q : res B → state → Prop) :
  patterns_of st d = None →
  (∀ e, is_missing_member e = false → Q (Raise e) st) →
  wp (iteritems d acc body) st Q.
Proof.
  intros Hd HQ. unfold iteritems. apply wp_bind, wp_read_ns; [|by intros; apply HQ].
  intros o Ho. unfold patterns_of in Hd. by rewrite Ho in Hd.
Qed.

Lemma patterns_of_upd_rs st l r a : patterns_of (upd_rs l r st) a = patterns_of st a.
Proof. done. Qed.

Lemma patterns_of_new_rs st r a : patterns_of (new_rs r st) a = patterns_of st a.
Proof. done. Qed.

Lemma patterns_of_upd_ns st l o a :
  patterns_of (upd_ns l o st) a
  = if decide (l = a) then Some (_patterns o) else patterns_of st a.
Proof.
  unfold patterns_of. simpl. case_decide as H; [subst; by rewrite lookup_insert_eq|].
  by rewrite lookup_insert_ne.
Qed.

Lemma rangesets_nonempty_upd_rs st d l r :
  rangesets_nonempty st d → 0 < rs_len r → rangesets_nonempty (upd_rs l r st) d.
Proof.
  intros H Hr pat l' Hl'. simpl. destruct (decide (l = l')) as [->|Hne].
  - rewrite lookup_insert_eq. eauto.
  - rewrite lookup_insert_ne by done. eauto.
Qed.

Lemma rangesets_nonempty_new_rs st d r :
  rangesets_nonempty st d → 0 < rs_len r → rangesets_nonempty (new_rs r st) d.
Proof.
  intros H Hr pat l' Hl'. simpl. destruct (decide (next_loc st = l')) as [->|Hne].
  - rewrite lookup_insert_eq. eauto.
  - rewrite lookup_insert_ne by done. eauto.
Qed.

Lemma rangesets_nonempty_upd_ns st d l o :
  rangesets_nonempty st d → rangesets_nonempty (upd_ns l o st) d.
Proof. done. Qed.

Lemma rangesets_nonempty_insert_None st d k :
  rangesets_nonempty st d → rangesets_nonempty st (<[k := None]> d).
Proof.
  intros H pat l Hl. apply lookup_insert_Some in Hl as [[_ [=]]|[_ Hl]]. eauto.
Qed.

Lemma rangesets_nonempty_insert_Some st d k l r :
  rangesets_nonempty st d → rsets st !! l = Some r → 0 < rs_len r →
  rangesets_nonempty st (<[k := Some l]> d).
Proof.
  intros H Hl Hr pat l' Hl'.
  apply lookup_insert_Some in Hl' as [[_ [= <-]]|[_ Hl']]; eauto.
Qed.

Lemma truthy_false_nonempty st d k l :
  rangesets_nonempty st d → d !! k = Some (Some l) → truthy st (Some l) = Some false → False.
Proof.
  intros H Hk Ht. destruct (H k l Hk) as (r & Hr & Hlen). simpl in Ht.
  rewrite Hr in Ht. simpl in Ht. injection Ht as Ht. apply Z.ltb_ge in Ht. lia.
Qed.

(** What [_add] does to the node set it is applied to. *)
Lemma add_keeps_nonempty a k v st (Q : res unit → state → Prop) :
  nodeset_nonempty st a →
  (∀ e, Q (Raise e) st) →
  (∀ st', nodeset_nonempty st' a →
          (∀ b, b ≠ a → nsets st' !! b = nsets st !! b) →
          (∀ d, patterns_of st a = Some d → d !! k = Some v →
                patterns_of st' a = Some d) →
          (store_ok st → store_ok st') →
          Q (Ok tt) st') →
  wp (call__add a k v) st Q.
Proof.
  intros (d & Hd & Hne) Herr HQ.
  assert (∀ o, nsets st !! a = Some o → _patterns o = d) as Hod.
  { intros o Ho. unfold patterns_of in Hd. rewrite Ho in Hd. by injection Hd. }
  apply wp_call__add.
  - intros; apply Herr.
  - intros o le re lv rv Ho Hle Hre Hlen -> Hrv. apply HQ; [|done|done|].
    + exists d. split; [done|]. apply rangesets_nonempty_upd_rs; [done|].
      by apply rs_len_union_pos.
    + intros Hok. by eapply store_ok_upd_rs.
  - intros o lv rv Ho Ht -> Hrv Hlen. rewrite (Hod o Ho) in *. apply HQ.
    + eexists. split; [by rewrite patterns_of_upd_ns, decide_True|]. simpl.
      apply rangesets_nonempty_upd_ns.
      apply rangesets_nonempty_insert_Some with rv; [|by simpl; rewrite lookup_insert_eq|done].
      by apply rangesets_nonempty_new_rs.
    + intros b Hb. simpl. by rewrite lookup_insert_ne.
    + intros d' Hd' Hk. rewrite Hd in Hd'. injection Hd' as <-.
      exfalso. unfold entry in Ht. rewrite Hk in Ht. simpl in Ht.
      rewrite Hrv in Ht. simpl in Ht. injection Ht as Ht. apply Z.ltb_ge in Ht. lia.
    + intros Hok. eapply store_ok_upd_ns; [by apply store_ok_new_rs|]. simpl. done.
  - intros o Ho Ht Hv. rewrite (Hod o Ho) in *. apply HQ.
    + eexists. split; [by rewrite patterns_of_upd_ns, decide_True|]. simpl.
      by apply rangesets_nonempty_upd_ns, rangesets_nonempty_insert_None.
    + intros b Hb. simpl. by rewrite lookup_insert_ne.
    + intros d' Hd' Hk. rewrite Hd in Hd'. injection Hd' as <-.
      rewrite patterns_of_upd_ns, decide_True by done. simpl. f_equal.
      apply insert_id. rewrite Hk. f_equal. destruct v as [lv|]; [|done].
      exfalso. by eapply truthy_false_nonempty.
    + intros Hok. by eapply store_ok_upd_ns.
Qed.

Lemma update_keeps_nonempty st a b :
  nodeset_nonempty st a →
  wp (NodeSetBase_update a (VNodeSet b)) st
    (λ r st', r = Ok tt → nodeset_nonempty st' a).
Proof.
  intros Hne. unfold NodeSetBase_update. apply wp_bind, wp_ret.
  destruct (patterns_of st b) as [db|] eqn:Hb;
    [|by apply wp_iteritems_unallocated].
  apply (wp_iteritems (λ _ _ st', nodeset_nonempty st' a) b db); [done|done| |].
  - intros done k v rest [] st2 _ Hk _ Hb2 Hne2.
    apply add_keeps_nonempty; [done|done|].
    intros st3 Hne3 Hframe Hsame _. split; [|done].
    destruct (decide (b = a)) as [->|Hba]; [by apply Hsame|].
    unfold patterns_of in *. by rewrite Hframe.
  - done.
Qed.

Lemma nodeset_nonempty_allocated st a :
  nodeset_nonempty st a → is_Some (nsets st !! a).
Proof.
  intros (d & Hd & _). unfold patterns_of in Hd. destruct (nsets st !! a); [eauto|done].
Qed.

(** Writing to a newly allocated RangeSet does not disturb the RangeSets of
    a dictionary of the store. *)
Lemma rangesets_nonempty_fresh st d r x :
  store_ok st → rangesets_nonempty st d →
  rangesets_nonempty (upd_rs (next_loc st) x (new_rs r st)) d.
Proof.
  intros Hok H pat l Hl. destruct (H pat l Hl) as (r' & Hr' & Hlen).
  exists r'. split; [|done]. simpl.
  assert (l ≠ next_loc st) by by eapply store_ok_fresh_rs.
  by rewrite !lookup_insert_ne.
Qed.

Lemma intersection_update_keeps_nonempty st a b :
  store_ok st → nodeset_nonempty st a →
  wp (NodeSetBase_intersection_update a (VNodeSet b)) st
    (λ r st', r = Ok tt → nodeset_nonempty st' a).
Proof.
  intros Hok Hne.
  apply (wp_eq _ _ _ _ (intersection_update_duplicate_branch a (VNodeSet b) st)).
  unfold intersection_update_single_branch.
  apply wp_bind, wp_ret. case_bool_decide as Hab; [by apply wp_ret|].
  apply wp_bind, wp_NodeSetBase_new_empty.
  set (tmp := next_loc st). set (st1 := new_ns _ st).
  assert (store_ok st1) as Hok1 by by apply store_ok_new_ns.
  assert (nodeset_nonempty st1 tmp) as Hne1.
  { exists ∅. split; [|by intros ? ? ?]. unfold patterns_of, st1. simpl.
    by rewrite lookup_insert_eq. }
  destruct (patterns_of st1 b) as [db|] eqn:Hb;
    [|by apply wp_bind, wp_iteritems_unallocated].
  assert (b = tmp → db = ∅) as Hbt.
  { intros ->. unfold patterns_of, st1 in Hb. simpl in Hb.
    rewrite lookup_insert_eq in Hb. simpl in Hb. by injection Hb. }
  apply wp_bind.
  apply (wp_iteritems (λ _ _ st', store_ok st' ∧ nodeset_nonempty st' tmp) b db);
    [done|done| |].
  - intros done k v rest [] st2 _ Hk _ Hb2 [Hok2 Hne2].
    assert (b ≠ tmp) as Hbt'.
    { intros Heq. by rewrite (Hbt Heq), lookup_empty in Hk. }
    assert (∀ st3, store_ok st3 → nodeset_nonempty st3 tmp →
                   nsets st3 !! b = nsets st2 !! b →
                   patterns_of st3 b = Some db
                   ∧ store_ok st3 ∧ nodeset_nonempty st3 tmp) as Hpost.
    { intros st3 ? ? H3. split_and!; try done. unfold patterns_of in *. by rewrite H3. }
    assert (∀ v' st3, store_ok st3 → nodeset_nonempty st3 tmp →
              nsets st3 !! b = nsets st2 !! b →
              wp (call__add tmp k v') st3
                (λ r st', match r with
                          | Ok _ => patterns_of st' b = Some db
                                    ∧ store_ok st' ∧ nodeset_nonempty st' tmp
                          | Raise e => Raise e = Ok tt → nodeset_nonempty st' a
                          end)) as Hadd.
    { intros v' st3 Hok3 Hne3 Hb3. apply add_keeps_nonempty; [done|done|].
      intros st4 Hne4 Hframe _ Hok4. apply Hpost; auto.
      rewrite Hframe by done. done. }
    apply wp_bind, wp_patterns_get; [|done]. intros oa Hoa.
    apply wp_bind, wp_truth; [|done]. intros [] Hc.
    + unfold intersect_rangesets.
      apply wp_bind, wp_on_rangeset; [|done]. intros l Hl.
      rewrite Hl in Hc. simpl in Hc.
      apply wp_RangeSet_copy; [|done]. intros r Hr.
      rewrite Hr in Hc. simpl in Hc. injection Hc as Hc. apply Z.ltb_lt in Hc.
      apply wp_bind, wp_RangeSet_intersection_update; [|done]. intros lo o r' -> Hlo Hr'.
      simpl in Hr'. rewrite lookup_insert_eq in Hr'. injection Hr' as <-.
      apply wp_bind, wp_RangeSet_len; [|done]. intros r'' Hr''.
      simpl in Hr''. rewrite lookup_insert_eq in Hr''. injection Hr'' as <-.
      assert (store_ok (upd_rs (next_loc st2)
                (rs_with r (rs_members r ∩ rs_members o)) (new_rs r st2))) as Hok4.
      { eapply store_ok_upd_rs; [by apply store_ok_new_rs|]. simpl.
        by rewrite lookup_insert_eq. }
      assert (nodeset_nonempty (upd_rs (next_loc st2)
                (rs_with r (rs_members r ∩ rs_members o)) (new_rs r st2)) tmp) as Hne4.
      { destruct Hne2 as (d & Hd & Hd'). exists d. split; [done|].
        by apply rangesets_nonempty_fresh. }
      destruct (0 <? rs_len _); [by apply Hadd|]. apply wp_ret. by apply Hpost.
    + unfold both_unnumbered.
      apply wp_bind, wp_bind, wp_truth; [|done]. intros cv Hcv.
      destruct cv; simpl.
      * apply wp_ret. apply wp_ret. by apply Hpost.
      * apply wp_patterns_has_key; [|done]. intros o' Ho'.
        destruct (bool_decide _); [by apply Hadd|]. apply wp_ret. by apply Hpost.
  - intros [] st2 Hb2 [Hok2 (d & Hd & Hne2)].
    apply wp_bind, wp_read_ns; [|done]. intros t Ht.
    apply wp_bind, wp_read_ns; [|done]. intros o Ho.
    apply wp_write_ns. intros _. exists (_patterns t).
    split; [by rewrite patterns_of_upd_ns, decide_True|].
    apply rangesets_nonempty_upd_ns. unfold patterns_of in Hd. rewrite Ht in Hd.
    by injection Hd as ->.
Qed.

Lemma difference_update_keeps_nonempty st a b strict :
  nodeset_nonempty st a → unshared st a = true →
  wp (NodeSetBase_difference_update a (VNodeSet b) strict) st
    (λ r st', r = Ok tt → nodeset_nonempty st' a).
Proof.
  intros (da & Hda & Hne) Hun. unfold NodeSetBase_difference_update.
  apply wp_bind, wp_ret.
  destruct (patterns_of st b) as [db|] eqn:Hb;
    [|by apply wp_bind, wp_iteritems_unallocated].
  apply wp_bind.
  apply (wp_iteritems (λ _ purge_patterns st',
           patterns_of st' a = Some da
           ∧ ∀ k l, da !! k = Some (Some l) →
               ∃ r, rsets st' !! l = Some r ∧ (0 < rs_len r ∨ k ∈ purge_patterns))
           b db); [done| | |].
  - split; [done|]. intros k l Hk. destruct (Hne k l Hk) as (r & ? & ?). eauto.
  - intros done k v rest purge_patterns st2 _ Hk _ Hb2 [Ha2 Hinv].
    apply wp_bind, wp_patterns_get; [|done]. intros o Ho.
    assert (_patterns o = da) as ->.
    { unfold patterns_of in Ha2. rewrite Ho in Ha2. by injection Ha2. }
    apply wp_bind, wp_truth; [|done]. intros [] Hc.
    + apply wp_bind, wp_on_rangeset; [|done]. intros l Hl.
      apply entry_Some in Hl as Hkl. clear Hc.
      apply wp_RangeSet_difference_update; [|done|done].
      intros lo o' r -> Hlo Hr _.
      apply wp_bind. rewrite Hl. apply wp_RangeSet_len; [|done]. intros r' Hr'.
      simpl in Hr'. rewrite lookup_insert_eq in Hr'. injection Hr' as <-.
      assert (∀ P : list string, (rs_len (rs_with r (rs_members r ∖ rs_members o')) = 0 → k ∈ P) →
                (∀ x, x ∈ purge_patterns → x ∈ P) →
                patterns_of (upd_rs l (rs_with r (rs_members r ∖ rs_members o')) st2) b = Some db
                ∧ patterns_of (upd_rs l (rs_with r (rs_members r ∖ rs_members o')) st2) a = Some da
                ∧ ∀ k' l', da !! k' = Some (Some l') →
                    ∃ r', rsets (upd_rs l (rs_with r (rs_members r ∖ rs_members o')) st2) !! l'
                          = Some r' ∧ (0 < rs_len r' ∨ k' ∈ P)) as Hpost.
      { intros P HP Hsub. split_and!; try done. intros k' l' Hk'. simpl.
        destruct (decide (l' = l)) as [->|Hne'].
        - rewrite lookup_insert_eq. eexists. split; [done|].
          assert (k' = k) as -> by by eapply unshared_spec.
          pose proof (rs_len_nonneg (rs_with r (rs_members r ∖ rs_members o'))).
          destruct (decide (rs_len (rs_with r (rs_members r ∖ rs_members o')) = 0)); [auto|lia].
        - rewrite lookup_insert_ne by done.
          destruct (Hinv k' l' Hk') as (r' & ? & [?|?]); eauto. }
      destruct (_ =? 0) eqn:Hz; apply wp_ret, Hpost.
      * intros _. apply elem_of_app. right. apply list_elem_of_here.
      * intros x Hx. apply elem_of_app. by left.
      * intros Hz'. rewrite Hz' in Hz. done.
      * done.
    + apply wp_bind, wp_patterns_has_key; [|done]. intros o' Ho'.
      destruct (bool_decide _).
      * apply wp_ret. split_and!; try done. intros k' l Hk'.
        destruct (Hinv k' l Hk') as (r & ? & [?|?]); eauto.
        exists r. split; [done|]. right. apply elem_of_app. by left.
      * destruct strict; [by apply wp_raise|]. apply wp_ret. by split_and!.
  - intros purge_patterns st2 Hb2 [Ha2 Hinv].
    eapply wp_mono; [by apply wp_purge|].
    intros [[]|e] st3; [|done]. intros (Hrs & _ & _ & d' & Hd' & Hchar) _.
    exists d'. split; [done|]. intros pat l Hl. rewrite Hchar in Hl.
    destruct (decide (pat ∈ purge_patterns)); [done|].
    destruct (Hinv pat l Hl) as (r & Hr & [Hpos|Hin]); [|done].
    exists r. by rewrite Hrs.
Qed.

Lemma elem_of_keys (d : gmap string (option loc)) k v :
  d !! k = Some v → k ∈ (map_to_list d).*1.
Proof.
  intros H. apply list_elem_of_fmap. exists (k, v). split; [done|].
  by apply elem_of_map_to_list.
Qed.

(** The last two loops of [symmetric_difference_update]: whatever the store
    and the purge list left by the first two loops, the cleanup removes every
    template whose RangeSet is empty. *)
Lemma symmetric_difference_cleanup a purge0 st :
  wp (do purge_patterns <-
        iteritems a purge0 (λ pat rangeset purge_patterns,
          match rangeset with
          | Some r =>
              do n <- RangeSet_len r;
              if n =? 0 then ret (purge_patterns ++ [pat]) else ret purge_patterns
          | None => ret purge_patterns
          end);
      purge a purge_patterns) st
    (λ r st', r = Ok tt → nodeset_nonempty st' a).
Proof.
  destruct (patterns_of st a) as [d|] eqn:Hd;
    [|by apply wp_bind, wp_iteritems_unallocated].
  apply wp_bind.
  apply (wp_iteritems (λ done purge_patterns st',
           st' = st
           ∧ ∀ k l, k ∈ done → d !! k = Some (Some l) →
               ∃ r, rsets st !! l = Some r ∧ (0 < rs_len r ∨ k ∈ purge_patterns))
           a d); [done| | |].
  - split; [done|]. by intros k l ?%elem_of_nil.
  - intros done k v rest P st2 _ Hk Hkdone Ha2 [-> Hinv].
    assert (∀ P' : list string,
              (∀ x, x ∈ P → x ∈ P') →
              (∀ l, v = Some l → ∃ r, rsets st !! l = Some r ∧ (0 < rs_len r ∨ k ∈ P')) →
              patterns_of st a = Some d
              ∧ st = st
              ∧ ∀ k' l, k' ∈ done ++ [k] → d !! k' = Some (Some l) →
                  ∃ r, rsets st !! l = Some r ∧ (0 < rs_len r ∨ k' ∈ P')) as Hpost.
    { intros P' Hsub Hv. split_and!; try done.
      intros k' l [Hin|Heq%list_elem_of_singleton]%elem_of_app Hk'.
      - destruct (Hinv k' l Hin Hk') as (r & ? & [?|?]); eauto.
      - subst k'. apply Hv. congruence. }
    destruct v as [l|]; [|apply wp_ret, Hpost; [done|by intros]].
    apply wp_bind, wp_RangeSet_len; [|done]. intros r Hr.
    destruct (rs_len r =? 0) eqn:Hz; apply wp_ret, Hpost.
    + intros x Hx. apply elem_of_app. by left.
    + intros l' [= <-]. exists r. split; [done|]. right.
      apply elem_of_app. right. apply list_elem_of_here.
    + done.
    + intros l' [= <-]. exists r. split; [done|]. left.
      pose proof (rs_len_nonneg r). apply Z.eqb_neq in Hz. lia.
  - intros P st2 Ha2 [-> Hinv].
    eapply wp_mono; [by apply wp_purge|].
    intros [[]|e] st3; [|done]. intros (Hrs & _ & _ & d' & Hd' & Hchar) _.
    exists d'. split; [done|]. intros pat l Hl. rewrite Hchar in Hl.
    destruct (decide (pat ∈ P)); [done|].
    destruct (Hinv pat l (elem_of_keys _ _ _ Hl) Hl) as (r & Hr & [Hpos|Hin]); [|done].
    exists r. by rewrite Hrs.
Qed.

Lemma symmetric_difference_update_keeps_nonempty st a b :
  wp (NodeSetBase_symmetric_difference_update a (VNodeSet b)) st
    (λ r st', r = Ok tt → nodeset_nonempty st' a).
Proof.
  unfold NodeSetBase_symmetric_difference_update.
  apply wp_bind, wp_ret. apply wp_bind_any; [|done]. intros purge0 st1.
  apply wp_bind_any; [|done]. intros [] st2.
  apply symmetric_difference_cleanup.
Qed.

(** C5.  Let [a] satisfy the data-model invariants (its RangeSets exist, are
    not empty and are not shared between templates) in a well-formed store.
    When [a.update(b)], [a.intersection_update(b)], [a.difference_update(b)]
    or [a.symmetric_difference_update(b)] returns, no template of [a] maps to
    an empty RangeSet.  Nothing is assumed of [b], which may be [a] itself. *)
Theorem C5_no_template_keeps_an_empty_RangeSet (opc : opcode) (a b : loc)
    (st st' : state) :
  store_okb st = true →
  no_empty_rangeset st a = true →
  unshared st a = true →
  apply_opcode opc a (VNodeSet b) st = (Ok tt, st') →
  no_empty_rangeset st' a = true.
Proof.
  intros Hok%store_okb_spec Hne%nodeset_nonempty_spec Hun Hrun.
  apply nodeset_nonempty_spec.
  destruct opc; simpl in Hrun.
  - by apply (wp_run _ _ _ _ _ (update_keeps_nonempty st a b Hne) Hrun).
  - by apply (wp_run _ _ _ _ _ (difference_update_keeps_nonempty st a b false Hne Hun) Hrun).
  - by apply (wp_run _ _ _ _ _ (intersection_update_keeps_nonempty st a b Hok Hne) Hrun).
  - by apply (wp_run _ _ _ _ _ (symmetric_difference_update_keeps_nonempty st a b) Hrun).
Qed.

Lemma C5_witness :
  no_empty_rangeset
    (apply_opcode op_difference_update 1%positive (VNodeSet 1%positive) demo_store).2
    1%positive = true
  ∧ no_empty_rangeset
      (apply_opcode op_symmetric_difference_update 1%positive (VNodeSet 2%positive)
         demo_store).2
      1%positive = true.
Proof.
  split.
  - apply (C5_no_template_keeps_an_empty_RangeSet op_difference_update
             1%positive 1%positive demo_store); vm_compute; reflexivity.
  - apply (C5_no_template_keeps_an_empty_RangeSet op_symmetric_difference_update
             1%positive 2%positive demo_store); vm_compute; reflexivity.
Defined.

(** ** C6: missing-member errors *)


Lemma elem_of_refs d l : l ∈ refs d ↔ ∃ k, d !! k = Some (Some l).
Proof.
  unfold refs. rewrite list_elem_of_omap. split.
  - intros ([k v] & Hin & Hv). simpl in Hv. subst v. exists k.
    by apply elem_of_map_to_list in Hin.
  - intros [k Hk]. exists (k, Some l). split; [|done]. by apply elem_of_map_to_list.
Qed.






Lemma wp_RangeSet_issuperset_exact self lo st r o (Q : res bool → state → Prop) :
  rsets st !! self = Some r → rsets st !! lo = Some o →
  Q (Ok (bool_decide (rs_members o ⊆ rs_members r))) st →
  wp (RangeSet_issuperset self (Some lo)) st Q.
Proof.
  intros Hr Ho H. unfold RangeSet_issuperset.
  apply wp_bind, wp_read_rs; [|by intros; congruence]. intros o' Ho'.
  rewrite Ho in Ho'. injection Ho' as <-.
  apply wp_bind, wp_read_rs; [|by intros; congruence]. intros r' Hr'.
  rewrite Hr in Hr'. injection Hr' as <-. by apply wp_ret.
Qed.







(** ** C9: what the operations write *)

(** The rule for [iteritems] when the body rebinds keys of the dictionary
    it iterates over: the iterator yields the current value of each key. *)
Lemma wp_iteritems_live {B} (I : list string → B → state → Prop) d m
    (body : string → option loc → B → M B) acc st (Q : res B → state → Prop) :
  patterns_of st d = Some m →
  I [] acc st →
  (∀ done pat rest acc st m' v,
     (map_to_list m).*1 = done ++ pat :: rest →
     patterns_of st d = Some m' → dom m' = dom m → m' !! pat = Some v →
     I done acc st →
     wp (body pat v acc) st
       (λ r st', match r with
                 | Ok acc' => (∃ m'', patterns_of st' d = Some m'' ∧ dom m'' = dom m)
                              ∧ I (done ++ [pat]) acc' st'
                 | Raise e => Q (Raise e) st'
                 end)) →
  (∀ acc st, I (map_to_list m).*1 acc st → Q (Ok acc) st) →
  wp (iteritems d acc body) st Q.
Proof.
  intros Hd HI Hbody Hend. unfold iteritems.
  apply wp_bind, wp_read_ns; intros o Ho;
    [|intros Hn; unfold patterns_of in Hd; by rewrite Hn in Hd].
  assert (_patterns o = m) as Hm.
  { unfold patterns_of in Hd. rewrite Ho in Hd. by injection Hd. }
  subst m. clear Ho.
  apply (wp_for_fold (λ done acc st,
           (∃ m', patterns_of st d = Some m' ∧ dom m' = dom (_patterns o))
           ∧ I done acc st)); [split; eauto| |].
  - intros done pat rest acc' st' Hl [(m' & Hd' & Hdom) HI'].
    assert (pat ∈ dom (_patterns o)) as Hin.
    { assert (pat ∈ (map_to_list (_patterns o)).*1) as Hin.
      { rewrite Hl. apply elem_of_app. right. left. }
      apply list_elem_of_fmap in Hin as ([k w] & -> & Hin).
      apply elem_of_map_to_list in Hin. apply elem_of_dom. eauto. }
    rewrite <- Hdom in Hin. apply elem_of_dom in Hin as [v Hv].
    apply wp_bind, wp_read_ns; intros o' Ho';
      [|intros Hn; unfold patterns_of in Hd'; by rewrite Hn in Hd'].
    assert (_patterns o' = m') as ->.
    { unfold patterns_of in Hd'. rewrite Ho' in Hd'. by injection Hd'. }
    rewrite bool_decide_true.
    2:{ rewrite <- !size_dom. by rewrite Hdom. }
    rewrite Hv. by eapply Hbody.
  - intros acc' st' [_ HI']. by apply Hend.
Qed.

Lemma frame_refl n N R st :
  store_ok st → (n ≤ next_loc st)%positive → frame n N R st st.
Proof. by intros; split_and!. Qed.

Lemma frame_upd_rs n N R st0 st l r r' :
  frame n N R st0 st → rsets st !! l = Some r' → R l ∨ (n ≤ l)%positive →
  frame n N R st0 (upd_rs l r st).
Proof.
  intros (Hok & Hn & Hns & Hrs) Hl Hown. split_and!; try done.
  - by eapply store_ok_upd_rs.
  - intros l' Hl' HR. simpl. rewrite lookup_insert_ne; [by apply Hrs|].
    intros <-. destruct Hown; [done|lia].
Qed.

Lemma frame_new_rs n N R st0 st r :
  frame n N R st0 st → frame n N R st0 (new_rs r st).
Proof.
  intros (Hok & Hn & Hns & Hrs). split_and!; try done.
  - by apply store_ok_new_rs.
  - simpl. lia.
  - intros l' Hl' HR. simpl. rewrite lookup_insert_ne; [by apply Hrs|]. lia.
Qed.

Lemma frame_new_ns n N R st0 st o :
  frame n N R st0 st → frame n N R st0 (new_ns o st).
Proof.
  intros (Hok & Hn & Hns & Hrs). split_and!; try done.
  - by apply store_ok_new_ns.
  - simpl. lia.
  - intros l' Hl' HN. simpl. rewrite lookup_insert_ne; [by apply Hns|]. lia.
Qed.

Lemma frame_upd_ns n N R st0 st x o o' :
  frame n N R st0 st → nsets st !! x = Some o' → N x ∨ (n ≤ x)%positive →
  frame n N R st0 (upd_ns x o st).
Proof.
  intros (Hok & Hn & Hns & Hrs) Hx Hown. split_and!; try done.
  - by eapply store_ok_upd_ns.
  - intros l' Hl' HN. simpl. rewrite lookup_insert_ne; [by apply Hns|].
    intros <-. destruct Hown; [done|lia].
Qed.

Lemma owns_upd_rs n R x st l r : owns n R x st → owns n R x (upd_rs l r st).
Proof. done. Qed.

Lemma owns_new_rs n R x st r : owns n R x st → owns n R x (new_rs r st).
Proof. done. Qed.

Lemma owns_upd_ns_other n R x y st o :
  x ≠ y → owns n R x st → owns n R x (upd_ns y o st).
Proof.
  intros Hne H d k l Hd. apply (H d k l).
  rewrite patterns_of_upd_ns in Hd. by rewrite decide_False in Hd.
Qed.

Lemma owns_upd_ns n R x st o :
  (∀ k l, _patterns o !! k = Some (Some l) → R l ∨ (n ≤ l)%positive) →
  owns n R x (upd_ns x o st).
Proof.
  intros H d k l Hd. rewrite patterns_of_upd_ns, decide_True in Hd by done.
  injection Hd as <-. apply H.
Qed.

(** [_add] on the node set [x] writes to [x], to the RangeSets of [x] and to
    new objects only; it keeps the keys that [x] already has. *)
Lemma add_frame n N R st0 x k v st (Q : res unit → state → Prop) :
  frame n N R st0 st → owns n R x st → N x ∨ (n ≤ x)%positive →
  (∀ r st', frame n N R st0 st' → owns n R x st' →
            (∀ y, y ≠ x → nsets st' !! y = nsets st !! y) →
            (∀ d, patterns_of st x = Some d → is_Some (d !! k) →
                  ∃ d', patterns_of st' x = Some d' ∧ dom d' = dom d) →
            Q r st') →
  wp (call__add x k v) st Q.
Proof.
  intros Hfr Hown Hx HQ.
  assert (∀ o, nsets st !! x = Some o → patterns_of st x = Some (_patterns o)) as Hpat.
  { intros o Ho. unfold patterns_of. by rewrite Ho. }
  apply wp_call__add.
  - intros e _. apply HQ; eauto.
  - intros o le re lv rv Ho Hle Hre Hlen -> Hrv. apply HQ; eauto.
    + eapply frame_upd_rs; eauto.
  - intros o lv rv Ho Ht -> Hrv Hlen. apply HQ.
    + eapply frame_upd_ns; [by apply frame_new_rs|done|done].
    + apply owns_upd_ns. simpl. intros k' l Hl.
      apply lookup_insert_Some in Hl as [[_ [= <-]]|[_ Hl]]; [|by eauto].
      right. by destruct Hfr as (_ & ? & _).
    + intros y Hy. simpl. by rewrite lookup_insert_ne.
    + intros d Hd Hk. rewrite (Hpat o Ho) in Hd. injection Hd as <-.
      eexists. split; [by rewrite patterns_of_upd_ns, decide_True|]. simpl.
      rewrite dom_insert_L. apply elem_of_dom in Hk. set_solver.
  - intros o Ho Ht Hv. apply HQ.
    + by eapply frame_upd_ns.
    + apply owns_upd_ns. simpl. intros k' l Hl.
      apply lookup_insert_Some in Hl as [[_ [=]]|[_ Hl]]. by eauto.
    + intros y Hy. simpl. by rewrite lookup_insert_ne.
    + intros d Hd Hk. rewrite (Hpat o Ho) in Hd. injection Hd as <-.
      eexists. split; [by rewrite patterns_of_upd_ns, decide_True|]. simpl.
      rewrite dom_insert_L. apply elem_of_dom in Hk. set_solver.
Qed.

Lemma update_frame n N R st0 self other st :
  frame n N R st0 st → owns n R self st → N self ∨ (n ≤ self)%positive →
  wp (NodeSetBase_update self other) st
    (λ _ st', frame n N R st0 st' ∧ owns n R self st').
Proof.
  intros Hfr Hown Hself. unfold NodeSetBase_update. apply wp_bind.
  destruct other; try by apply wp_raise. apply wp_ret. rename l into b.
  destruct (patterns_of st b) as [db|] eqn:Hb;
    [|by apply wp_iteritems_unallocated].
  apply (wp_iteritems_live (λ _ _ st', frame n N R st0 st' ∧ owns n R self st') b db);
    [done|done| |done].
  - intros done k rest [] st2 m' v _ Hb2 Hdom Hk [Hfr2 Hown2].
    apply add_frame with n N R st0; [done|done|done|].
    intros r st3 Hfr3 Hown3 Hother Hkeys. destruct r as [[]|e]; [|done].
    split; [|done].
    destruct (decide (b = self)) as [->|Hne].
    + destruct (Hkeys m' Hb2) as (d' & Hd' & Hdom'); [eauto|].
      exists d'. split; [done|]. congruence.
    + exists m'. split; [|done]. unfold patterns_of in *. by rewrite Hother.
Qed.

Lemma purge_frame n N R st0 self P st :
  frame n N R st0 st → owns n R self st → N self ∨ (n ≤ self)%positive →
  wp (purge self P) st (λ _ st', frame n N R st0 st' ∧ owns n R self st').
Proof.
  intros Hfr Hown Hself. unfold purge, for_each.
  apply (wp_for_fold (λ _ _ st', frame n N R st0 st' ∧ owns n R self st'));
    [done| |done].
  intros done k rest [] st2 _ [Hfr2 Hown2].
  apply wp_patterns_del; [|done|done].
  intros o v Ho Hv. split.
  - by eapply frame_upd_ns.
  - apply owns_upd_ns. simpl. intros k' l Hl.
    apply lookup_delete_Some in Hl as [_ Hl]. apply (Hown2 (_patterns o) k' l); [|done].
    unfold patterns_of. by rewrite Ho.
Qed.

Lemma difference_update_frame n N R st0 self other strict st :
  frame n N R st0 st → owns n R self st → N self ∨ (n ≤ self)%positive →
  wp (NodeSetBase_difference_update self other strict) st
    (λ _ st', frame n N R st0 st' ∧ owns n R self st').
Proof.
  intros Hfr Hown Hself. unfold NodeSetBase_difference_update. apply wp_bind.
  destruct other; try by apply wp_raise. apply wp_ret. rename l into b.
  destruct (patterns_of st b) as [db|] eqn:Hb;
    [|by apply wp_bind, wp_iteritems_unallocated].
  apply wp_bind.
  apply (wp_iteritems (λ _ _ st', frame n N R st0 st' ∧ owns n R self st') b db);
    [done|done| |].
  - intros done k v rest P st2 _ Hk _ Hb2 [Hfr2 Hown2].
    apply wp_bind, wp_patterns_get; [|done]. intros o Ho.
    apply wp_bind, wp_truth; [|done]. intros [] Hc.
    + apply wp_bind, wp_on_rangeset; [|done]. intros l Hl.
      apply entry_Some in Hl as Hkl.
      assert (R l ∨ (n ≤ l)%positive) as Hl'.
      { apply (Hown2 (_patterns o) k l); [|done]. unfold patterns_of. by rewrite Ho. }
      apply wp_RangeSet_difference_update; [|done|done].
      intros lo o' r -> Hlo Hr _.
      apply wp_bind, wp_len_entry; [|intros; split; [by eapply frame_upd_rs|done]].
      intros l' r' _ _.
      destruct (_ =? 0); apply wp_ret; (split_and!; [done|by eapply frame_upd_rs|done]).
    + apply wp_bind, wp_patterns_has_key; [|done]. intros o' Ho'.
      destruct (bool_decide _); [by apply wp_ret|].
      destruct strict; [by apply wp_raise|by apply wp_ret].
  - intros P st2 _ [Hfr2 Hown2]. by apply purge_frame.
Qed.

Lemma intersection_update_frame n N R st0 self other st :
  frame n N R st0 st → owns n R self st → N self ∨ (n ≤ self)%positive →
  wp (NodeSetBase_intersection_update self other) st
    (λ _ st', frame n N R st0 st' ∧ owns n R self st').
Proof.
  intros Hfr Hown Hself.
  apply (wp_eq _ _ _ _ (intersection_update_duplicate_branch self other st)).
  unfold intersection_update_single_branch. apply wp_bind.
  destruct other; try by apply wp_raise. apply wp_ret. rename l into b.
  case_bool_decide as Hab; [by apply wp_ret|].
  apply wp_bind, wp_NodeSetBase_new_empty.
  set (tmp := next_loc st). set (st1 := new_ns _ st).
  assert ((n ≤ tmp)%positive) as Htmp by by destruct Hfr as (_ & ? & _).
  assert (frame n N R st0 st1) as Hfr1 by by apply frame_new_ns.
  assert (owns n R tmp st1) as Hown1.
  { intros d k l Hd. unfold patterns_of, st1 in Hd. simpl in Hd.
    rewrite lookup_insert_eq in Hd. by injection Hd as <-. }
  assert (owns n R self st1) as Hself1.
  { destruct (decide (self = tmp)) as [->|Hne]; [done|].
    intros d k l Hd. apply (Hown d k l). unfold patterns_of, st1 in *. simpl in Hd.
    by rewrite lookup_insert_ne in Hd. }
  destruct (patterns_of st1 b) as [db|] eqn:Hb;
    [|by apply wp_bind, wp_iteritems_unallocated].
  assert (b = tmp → db = ∅) as Hbt.
  { intros ->. unfold patterns_of, st1 in Hb. simpl in Hb.
    rewrite lookup_insert_eq in Hb. simpl in Hb. by injection Hb. }
  apply wp_bind.
  apply (wp_iteritems (λ _ _ st', frame n N R st0 st' ∧ owns n R tmp st'
                                  ∧ owns n R self st') b db); [done|done| |].
  - intros done k v rest [] st2 _ Hk _ Hb2 (Hfr2 & Hown2 & Hself2).
    assert (b ≠ tmp) as Hbt'.
    { intros Heq. by rewrite (Hbt Heq), lookup_empty in Hk. }
    assert (∀ v' st3, frame n N R st0 st3 → owns n R tmp st3 → owns n R self st3 →
              patterns_of st3 b = Some db →
              wp (call__add tmp k v') st3
                (λ r st', match r with
                          | Ok _ => patterns_of st' b = Some db
                                    ∧ frame n N R st0 st' ∧ owns n R tmp st'
                                    ∧ owns n R self st'
                          | Raise _ => frame n N R st0 st' ∧ owns n R self st'
                          end)) as Hadd.
    { intros v' st3 Hfr3 Hown3 Hself3 Hb3.
      apply add_frame with n N R st0; [done|done|by right|].
      intros r st4 Hfr4 Hown4 Hother _.
      assert (owns n R self st4) as Hself4.
      { destruct (decide (self = tmp)) as [->|Hne]; [done|].
        intros d k' l Hd. apply (Hself3 d k' l). unfold patterns_of in *.
        by rewrite Hother in Hd. }
      destruct r; [|done]. split_and!; try done.
      unfold patterns_of in *. by rewrite Hother. }
    apply wp_bind, wp_patterns_get; [|done]. intros oa Hoa.
    apply wp_bind, wp_truth; [|done]. intros [] Hc.
    + unfold intersect_rangesets.
      apply wp_bind, wp_on_rangeset; [|done]. intros l Hl.
      apply wp_RangeSet_copy; [|done]. intros r Hr.
      assert (frame n N R st0 (new_rs r st2)) as Hfr3 by by apply frame_new_rs.
      apply wp_bind, wp_RangeSet_intersection_update; [|done]. intros lo o r' -> Hlo Hr'.
      assert (frame n N R st0
                (upd_rs (next_loc st2) (rs_with r' (rs_members r' ∩ rs_members o))
                   (new_rs r st2))) as Hfr4.
      { eapply frame_upd_rs; [done|done|]. right. by destruct Hfr2 as (_ & ? & _). }
      apply wp_bind, wp_RangeSet_len; [|done]. intros r'' Hr''.
      destruct (0 <? rs_len r''); [by apply Hadd|]. apply wp_ret. by split_and!.
    + unfold both_unnumbered.
      apply wp_bind, wp_bind, wp_truth; [|done]. intros cv Hcv.
      destruct cv; simpl.
      * apply wp_ret. apply wp_ret. by split_and!.
      * apply wp_patterns_has_key; [|done]. intros o' Ho'.
        destruct (bool_decide _); [by apply Hadd|]. apply wp_ret. by split_and!.
  - intros [] st2 Hb2 (Hfr2 & Hown2 & Hself2).
    apply wp_bind, wp_read_ns; [|done]. intros t Ht.
    apply wp_bind, wp_read_ns; [|done]. intros o Ho.
    apply wp_write_ns. split.
    + by eapply frame_upd_ns.
    + apply owns_upd_ns. simpl. intros k l Hl. apply (Hown2 (_patterns t) k l); [|done].
      unfold patterns_of. by rewrite Ht.
Qed.

Lemma symmetric_difference_update_frame n N R st0 self other st :
  frame n N R st0 st → owns n R self st → N self ∨ (n ≤ self)%positive →
  wp (NodeSetBase_symmetric_difference_update self other) st
    (λ _ st', frame n N R st0 st' ∧ owns n R self st').
Proof.
  intros Hfr Hown Hself. unfold NodeSetBase_symmetric_difference_update. apply wp_bind.
  destruct other; try by apply wp_raise. apply wp_ret. rename l into b.
  (* iterate over our rangesets *)
  apply wp_bind.
  destruct (patterns_of st self) as [d|] eqn:Hd; [|by apply wp_iteritems_unallocated].
  apply (wp_iteritems (λ _ _ st', frame n N R st0 st' ∧ owns n R self st') self d);
    [done|done| |].
  { intros done k v rest P st2 _ Hk _ Hd2 [Hfr2 Hown2].
    apply wp_bind, wp_patterns_get; [|done]. intros ob Hob.
    apply wp_bind, wp_truth; [|done]. intros [] Hc.
    - apply wp_bind, wp_on_rangeset; [|done]. intros l ->.
      apply wp_RangeSet_symmetric_difference_update; [|done]. intros lo o r _ Hlo Hr.
      apply wp_ret. split_and!; [done| |done]. eapply frame_upd_rs; eauto.
    - apply wp_bind, wp_patterns_has_key; [|done]. intros o' Ho'.
      destruct (bool_decide _); by apply wp_ret. }
  intros purge0 st1 _ [Hfr1 Hown1].
  (* iterate over other's rangesets *)
  apply wp_bind.
  destruct (patterns_of st1 b) as [db|] eqn:Hb; [|by apply wp_iteritems_unallocated].
  apply (wp_iteritems_live (λ _ _ st', frame n N R st0 st' ∧ owns n R self st') b db);
    [done|done| |].
  { intros done k rest [] st2 m' v _ Hb2 Hdom Hk [Hfr2 Hown2].
    apply wp_bind, wp_patterns_get; [|done]. intros o Ho.
    apply wp_bind, wp_truth; [|done]. intros [] Hc; [apply wp_ret; eauto|].
    apply wp_bind, wp_patterns_has_key; [|done]. intros o' Ho'.
    destruct (bool_decide _); [apply wp_ret; eauto|].
    apply add_frame with n N R st0; [done|done|done|].
    intros r st3 Hfr3 Hown3 Hother Hkeys. destruct r as [[]|e]; [|done].
    split; [|done].
    destruct (decide (b = self)) as [->|Hne].
    - destruct (Hkeys m' Hb2) as (d' & Hd' & Hdom'); [eauto|].
      exists d'. split; [done|]. congruence.
    - exists m'. split; [|done]. unfold patterns_of in *. by rewrite Hother. }
  intros [] st2 [Hfr2 Hown2].
  (* check for patterns cleanup *)
  apply wp_bind.
  destruct (patterns_of st2 self) as [d2|] eqn:Hd2; [|by apply wp_iteritems_unallocated].
  apply (wp_iteritems (λ _ _ st', frame n N R st0 st' ∧ owns n R self st') self d2);
    [done|done| |].
  { intros done k v rest P st3 _ Hk _ Hd3 [Hfr3 Hown3].
    destruct v as [l|]; [|by apply wp_ret].
    apply wp_bind, wp_RangeSet_len; [|done]. intros r Hr.
    destruct (_ =? 0); by apply wp_ret. }
  intros P st3 _ [Hfr3 Hown3]. by apply purge_frame.
Qed.

(** * Further properties of the module *)

(** ** Empty operands and new instances *)

Lemma iteritems_empty {B} d (acc : B) body st :
  patterns_of st d = Some ∅ → iteritems d acc body st = (Ok acc, st).
Proof.
  unfold patterns_of, iteritems, bind, read_ns. intros H.
  destruct (nsets st !! d) as [o|]; [|done]. simpl in H. injection H as H.
  by rewrite H, map_to_list_empty.
Qed.

Lemma update_empty_operand self b st :
  patterns_of st b = Some ∅ → NodeSetBase_update self (VNodeSet b) st = (Ok tt, st).
Proof.
  intros H. unfold NodeSetBase_update. simpl. rewrite bind_eq. simpl.
  by apply iteritems_empty.
Qed.

Lemma NodeSet_new_None autostep rarg st :
  NodeSet_new VNone autostep rarg st
  = (Ok (next_loc st), after_NodeSet_new autostep rarg st).
Proof.
  unfold NodeSet_new.
  rewrite bind_eq. simpl.
  rewrite bind_eq. simpl.
  rewrite bind_eq. unfold read_ns at 1. simpl. rewrite lookup_insert_eq.
  rewrite bind_eq. simpl.
  rewrite bind_eq.
  unfold NodeSet_update, parse_operand, get_attrs.
  rewrite !bind_eq. unfold read_ns at 1. simpl. rewrite lookup_insert_eq. simpl.
  rewrite update_empty_operand.
  - done.
  - unfold patterns_of. simpl. by rewrite lookup_insert_eq.
Qed.

Lemma new_instance_eq c st :
  new_instance c st
  = (Ok (next_loc st),
     match c with
     | CNodeSet => after_NodeSet_new None ResolverNone st
     | _ => new_ns (empty_NodeSetBase c) st
     end).
Proof. destruct c; try reflexivity. apply NodeSet_new_None. Qed.

Transparent wp.

Lemma wp_intro {A} (m : M A) st (Q : res A → state → Prop) r st' :
  m st = (r, st') → Q r st' → wp m st Q.
Proof. intros H HQ. unfold wp. by rewrite H. Qed.

Global Opaque wp.

(** ** The footprint of the methods *)

Lemma wp_parse_operand_nodeset self c st (Q : res loc → state → Prop) :
  Q (Ok c) st → (∀ e, Q (Raise e) st) → wp (parse_operand self (VNodeSet c)) st Q.
Proof.
  intros H1 H2. unfold parse_operand, get_attrs.
  apply wp_bind, wp_bind, wp_read_ns; [|done]. intros o Ho.
  destruct (ob_attrs o); [|by apply wp_raise]. apply wp_ret.
  unfold ParsingEngine_parse, parse_with. by apply wp_ret.
Qed.

Lemma call_method_frame n N R st0 opc self c st :
  frame n N R st0 st → owns n R self st → N self ∨ (n ≤ self)%positive →
  wp (call_method opc self (VNodeSet c)) st
    (λ _ st', frame n N R st0 st' ∧ owns n R self st').
Proof.
  intros Hfr Hown Hself.
  destruct opc; simpl;
    unfold call_update, call_difference_update, call_intersection_update,
      call_symmetric_difference_update, class_of;
    (apply wp_bind, wp_bind, wp_read_ns; [|done]); intros o Ho; apply wp_ret;
    destruct (ob_class o);
    try (by apply update_frame);
    try (by apply difference_update_frame);
    try (by apply intersection_update_frame);
    try (by apply symmetric_difference_update_frame).
  - unfold NodeSet_update. apply wp_bind, wp_parse_operand_nodeset; [|done].
    by apply update_frame.
  - unfold NodeSet_difference_update. apply wp_bind, wp_parse_operand_nodeset; [|done].
    by apply difference_update_frame.
  - unfold NodeSet_intersection_update. apply wp_bind, wp_parse_operand_nodeset; [|done].
    by apply intersection_update_frame.
  - unfold NodeSet_symmetric_difference_update.
    apply wp_bind, wp_parse_operand_nodeset; [|done].
    by apply symmetric_difference_update_frame.
Qed.

Lemma new_instance_frame n N R st0 c st :
  frame n N R st0 st →
  ∃ st1 oc, new_instance c st = (Ok (next_loc st), st1)
    ∧ frame n N R st0 st1
    ∧ rsets st1 = rsets st
    ∧ nsets st1 !! next_loc st = Some oc ∧ ob_class oc = c ∧ _patterns oc = ∅
    ∧ ∀ l, (l < next_loc st)%positive → nsets st1 !! l = nsets st !! l.
Proof.
  intros Hfr.
  assert ((n ≤ next_loc st)%positive) as Hn by by destruct Hfr as (_ & ? & _).
  rewrite new_instance_eq.
  assert (∀ c', ∃ st1 oc, (Ok (next_loc st), new_ns (empty_NodeSetBase c') st)
                          = (Ok (next_loc st), st1)
            ∧ frame n N R st0 st1
            ∧ rsets st1 = rsets st
            ∧ nsets st1 !! next_loc st = Some oc ∧ ob_class oc = c' ∧ _patterns oc = ∅
            ∧ ∀ l, (l < next_loc st)%positive → nsets st1 !! l = nsets st !! l) as Hbase.
  { intros c'. exists (new_ns (empty_NodeSetBase c') st), (empty_NodeSetBase c').
    split_and!; [done|by apply frame_new_ns|done| |done|done|].
    - simpl. by rewrite lookup_insert_eq.
    - intros l Hl. simpl. rewrite lookup_insert_ne; [done|lia]. }
  destruct c; try apply Hbase.
  exists (after_NodeSet_new None ResolverNone st),
    (empty_NodeSet None (resolver_of (STD_GROUP_RESOLVER st) ResolverNone)).
  split_and!; [done| |done| |done|done|].
  - unfold after_NodeSet_new. apply frame_new_ns.
    eapply frame_upd_ns; [by apply frame_new_ns| |by right].
    simpl. by rewrite lookup_insert_eq.
  - unfold after_NodeSet_new. simpl.
    rewrite lookup_insert_ne by lia. by rewrite lookup_insert_eq.
  - intros l Hl. unfold after_NodeSet_new. simpl.
    rewrite !lookup_insert_ne by lia. done.
Qed.

(** [copy] writes to new objects only.  When the RangeSets of the node set
    exist, it fails only for want of the attributes of [NodeSet], and
    otherwise returns a deep copy. *)
Lemma copy_spec st a :
  store_ok st →
  wp (NodeSetBase_copy a) st
    (λ r st', frame (next_loc st) nothing nothing st st'
              ∧ (∀ c, r = Ok c →
                   (next_loc st ≤ c)%positive ∧ owns (next_loc st) nothing c st')
              ∧ ∀ o, nsets st !! a = Some o →
                  (∀ k l, _patterns o !! k = Some (Some l) → is_Some (rsets st !! l)) →
                  match r with
                  | Ok c => is_copy st o st' c
                  | Raise e => ob_attrs o = None
                  end).
Proof.
  intros Hok.
  assert (frame (next_loc st) nothing nothing st st) as Hfr0
    by (apply frame_refl; [done|lia]).
  unfold NodeSetBase_copy, class_of.
  apply wp_bind, wp_bind, wp_read_ns.
  2:{ intros e _ Hn. split_and!; [done|done|]. intros o Ho. congruence. }
  intros o Ho. apply wp_ret.
  destruct (new_instance_frame _ nothing nothing st (ob_class o) st Hfr0)
    as (st1 & oc0 & Hnew & Hfr1 & Hrs1 & Hoc0 & Hclass & Hpat0 & Hold1).
  apply wp_bind. eapply wp_intro; [exact Hnew|].
  assert ((a < next_loc st)%positive) as Han by (apply Hok; eauto).
  assert (nsets st1 !! a = Some o) as Ho1 by (by rewrite Hold1).
  apply wp_bind, wp_read_ns; [|intros e _ Hn'; congruence]. intros o' Ho'.
  rewrite Ho1 in Ho'. injection Ho' as <-.
  unfold get_attrs. apply wp_bind, wp_bind, wp_read_ns; [|intros; congruence].
  intros o' Ho'. rewrite Ho1 in Ho'. injection Ho' as <-.
  destruct (ob_attrs o) as [attrs|] eqn:Hattrs.
  2:{ apply wp_raise. split_and!; [done|done|]. intros o' Ho' _. congruence. }
  apply wp_ret. apply wp_bind.
  set (m := _patterns o).
  pose (V := ∀ k l, m !! k = Some (Some l) → is_Some (rsets st !! l)).
  assert (∀ l st2, V → frame (next_loc st) nothing nothing st st2 →
            (∃ k, m !! k = Some (Some l)) → rsets st2 !! l = rsets st !! l) as Hsame.
  { intros l st2 HV (_ & _ & _ & Hrs2) [k Hk]. apply Hrs2; [|by intros []].
    apply (proj1 Hok). by apply (HV k). }
  apply (wp_iteritems (λ done dic st2,
     frame (next_loc st) nothing nothing st st2 ∧ nsets st2 = nsets st1
     ∧ (∀ k l, dic !! k = Some (Some l) → (next_loc st ≤ l)%positive)
     ∧ (∀ k, k ∉ done → dic !! k = None)
     ∧ (V → (∀ k, k ∈ done →
               match m !! k with
               | None => True
               | Some None => dic !! k = Some None
               | Some (Some l) =>
                   ∃ l', dic !! k = Some (Some l') ∧ (next_loc st ≤ l')%positive
                         ∧ rsets st2 !! l' = rsets st !! l
               end)
            ∧ (∀ k l, dic !! k = Some (Some l) → (l < next_loc st2)%positive)
            ∧ (∀ k k' l, dic !! k = Some (Some l) → dic !! k' = Some (Some l) → k = k')))
          a m).
  - unfold patterns_of. by rewrite Ho1.
  - split_and!; [done|done| |done|].
    { intros k l Hk. by rewrite lookup_empty in Hk. }
    intros _. split_and!.
    + by intros k ?%elem_of_nil.
    + intros k l Hk. by rewrite lookup_empty in Hk.
    + intros k k' l Hk. by rewrite lookup_empty in Hk.
  - intros done pat v rest dic st2 _ Hv Hnotin Hpat2 (Hfr2 & Hns2 & Hnew2 & Hnone & HV).
    assert (∀ k, k ∉ done ++ [pat] → k ≠ pat ∧ k ∉ done) as Hsplit.
    { intros k Hk. split.
      - intros ->. apply Hk, elem_of_app. right. apply list_elem_of_here.
      - intros Hin. apply Hk, elem_of_app. by left. }
    destruct v as [r|].
    + apply wp_bind, wp_RangeSet_copy.
      2:{ intros e _ Hn. split_and!; [done|done|]. intros o' Ho' Hvalid. exfalso.
          rewrite Ho in Ho'. injection Ho' as <-.
          rewrite (Hsame r st2 Hvalid Hfr2) in Hn by eauto.
          destruct (Hvalid pat r Hv) as [? ?]. congruence. }
      intros rr Hrr. apply wp_ret. split; [done|].
      split_and!; [by apply frame_new_rs|done| | |].
      * intros k l Hk.
        apply lookup_insert_Some in Hk as [[_ [= <-]]|[_ Hk]]; [|by apply (Hnew2 k)].
        by destruct Hfr2 as (_ & ? & _).
      * intros k [Hne Hk]%Hsplit. rewrite lookup_insert_ne by done. by apply Hnone.
      * intros HV'. destruct (HV HV') as (Hdone & Hlt & Hinj). split_and!.
        -- intros k [Hk|Hk%list_elem_of_singleton]%elem_of_app.
           ++ assert (k ≠ pat) by congruence.
              specialize (Hdone k Hk). destruct (m !! k) as [[l|]|]; [| |done].
              ** destruct Hdone as (l' & Hl' & Hn' & Heq). exists l'.
                 rewrite lookup_insert_ne by done. split_and!; [done|done|].
                 simpl. rewrite lookup_insert_ne; [done|].
                 apply Hlt in Hl'. lia.
              ** by rewrite lookup_insert_ne.
           ++ subst k. rewrite Hv. exists (next_loc st2).
              rewrite lookup_insert_eq. split_and!; [done|by destruct Hfr2 as (_ & ? & _)|].
              simpl. rewrite lookup_insert_eq. rewrite <- Hrr.
              apply Hsame; eauto.
        -- intros k l Hk. simpl.
           apply lookup_insert_Some in Hk as [[_ [= <-]]|[_ Hk]]; [lia|].
           apply Hlt in Hk. lia.
        -- intros k k' l Hk Hk'.
           apply lookup_insert_Some in Hk as [[<- [= <-]]|[Hne Hk]];
             apply lookup_insert_Some in Hk' as [[<- Heq]|[Hne' Hk']]; try done.
           ++ apply Hlt in Hk'. lia.
           ++ injection Heq as <-. apply Hlt in Hk. lia.
           ++ by apply (Hinj k k' l).
    + apply wp_ret. split; [done|]. split_and!; [done|done| | |].
      * intros k l Hk.
        apply lookup_insert_Some in Hk as [[_ [=]]|[_ Hk]]. by apply (Hnew2 k).
      * intros k [Hne Hk]%Hsplit. rewrite lookup_insert_ne by done. by apply Hnone.
      * intros HV'. destruct (HV HV') as (Hdone & Hlt & Hinj). split_and!.
        -- intros k [Hk|Hk%list_elem_of_singleton]%elem_of_app.
           ++ assert (k ≠ pat) by congruence.
              specialize (Hdone k Hk). destruct (m !! k) as [[l|]|]; [| |done].
              ** destruct Hdone as (l' & Hl' & Hn' & Heq). exists l'.
                 by rewrite lookup_insert_ne by done.
              ** by rewrite lookup_insert_ne.
           ++ subst k. rewrite Hv. by rewrite lookup_insert_eq.
        -- intros k l Hk.
           apply lookup_insert_Some in Hk as [[_ [=]]|[_ Hk]]. by apply (Hlt k).
        -- intros k k' l Hk Hk'.
           apply lookup_insert_Some in Hk as [[_ [=]]|[Hne Hk]].
           apply lookup_insert_Some in Hk' as [[_ [=]]|[Hne' Hk']].
           by apply (Hinj k k' l).
  - intros dic st2 Hpat2 (Hfr2 & Hns2 & Hnew2 & Hnone & HV).
    apply wp_bind, wp_read_ns; [|intros e _ Hn; congruence].
    intros ro Hro. rewrite Hns2, Hoc0 in Hro. injection Hro as <-.
    apply wp_bind, wp_write_ns. apply wp_ret. split_and!.
    + eapply frame_upd_ns; [done| |right; lia]. by rewrite Hns2.
    + intros c [= <-]. split; [lia|]. apply owns_upd_ns. simpl.
      intros k l Hk. right. by apply (Hnew2 k).
    + intros o' Ho' Hvalid. rewrite Ho in Ho'. injection Ho' as <-.
      destruct (HV Hvalid) as (Hdone & Hlt & Hinj).
      split; [lia|]. eexists. split; [simpl; by rewrite lookup_insert_eq|]. simpl.
      split_and!; [done|by destruct attrs|done| |done].
      intros k. fold m. destruct (m !! k) as [[l|]|] eqn:Hk.
      * pose proof (Hdone k (elem_of_keys _ _ _ Hk)) as Hd. rewrite Hk in Hd.
        destruct Hd as (l' & Hl' & Hn' & Heq).
        exists l'. split_and!; [done|done|by apply (Hvalid k)|done].
      * specialize (Hdone k (elem_of_keys _ _ _ Hk)). by rewrite Hk in Hdone.
      * apply Hnone. intros ([k' v] & -> & Hin%elem_of_map_to_list)%list_elem_of_fmap.
        simpl in Hk. congruence.
Qed.

Lemma frame_unchanged st st' :
  store_ok st → frame (next_loc st) nothing nothing st st' → unchanged st st'.
Proof.
  intros [Hrs Hns] (_ & _ & Hns' & Hrs'). split; intros l Hl.
  - apply Hns'; [by apply Hns|by intros []].
  - apply Hrs'; [by apply Hrs|by intros []].
Qed.

Lemma refs_valid_spec st a o :
  refs_valid st a = true → nsets st !! a = Some o →
  ∀ k l, _patterns o !! k = Some (Some l) → is_Some (rsets st !! l).
Proof.
  unfold refs_valid, patterns_of. intros H Ho k l Hk. rewrite Ho in H. simpl in H.
  rewrite forallb_forall in H. eapply bool_decide_eq_true, H, list_elem_of_In, elem_of_refs.
  eauto.
Qed.

Lemma store_ok_unallocated st l :
  store_ok st → (next_loc st ≤ l)%positive → nsets st !! l = None ∧ rsets st !! l = None.
Proof.
  intros [Hrs Hns] Hl. split.
  - destruct (nsets st !! l) eqn:E; [|done]. assert (l < next_loc st)%positive; [|lia].
    apply Hns. eauto.
  - destruct (rsets st !! l) eqn:E; [|done]. assert (l < next_loc st)%positive; [|lia].
    apply Hrs. eauto.
Qed.

(** X1.  [copy] of a node set that has the attributes of [NodeSet] and whose
    RangeSets exist returns a deep copy: a new object of the same class,
    with the same attributes and templates, and for each numbered template a
    new RangeSet object of its own with the same content.  No existing
    object is changed. *)
Theorem copy_returns_a_deep_copy (st : state) (a : loc) (o : nodeset_obj)
    (attrs : nodeset_attrs) :
  store_okb st = true → refs_valid st a = true →
  nsets st !! a = Some o → ob_attrs o = Some attrs →
  ∃ c st', NodeSetBase_copy a st = (Ok c, st') ∧ is_copy st o st' c ∧ unchanged st st'.
Proof.
  intros Hok%store_okb_spec Hvalid Ho Hattrs.
  destruct (NodeSetBase_copy a st) as [r st'] eqn:Hrun.
  destruct (wp_run _ _ _ _ _ (copy_spec st a Hok) Hrun) as (Hfr & _ & H).
  specialize (H o Ho (refs_valid_spec st a o Hvalid Ho)).
  destruct r as [c|e]; [|congruence].
  exists c, st'. split_and!; [done|done|by apply frame_unchanged].
Qed.

Lemma copy_returns_a_deep_copy_witness :
  ∃ c st', NodeSetBase_copy 1%positive demo_store = (Ok c, st')
           ∧ is_copy demo_store (mk_nodeset [("bar%s", Some 3%positive); ("foo", None)]) st' c
           ∧ unchanged demo_store st'.
Proof.
  apply (copy_returns_a_deep_copy demo_store 1%positive
           (mk_nodeset [("bar%s", Some 3%positive); ("foo", None)])
           {| _autostep := None; _resolver := None;
              _parser := {| group_resolver := None |} |});
    vm_compute; reflexivity.
Defined.

(** X2.  [copy] reads [self._autostep], an attribute that only
    [NodeSet.__init__] sets: on an instance without these attributes, such
    as one made by [NodeSetBase()], [copy] raises [AttributeError], and so do
    [union], [intersection], [difference] and [symmetric_difference], which
    begin by copying. *)
Theorem copy_without_NodeSet_attributes_raises (st : state) (a : loc)
    (o : nodeset_obj) (opc : opcode) (other : value) :
  store_okb st = true → nsets st !! a = Some o → ob_attrs o = None →
  result_of (NodeSetBase_copy a) st = Raise (AttributeError "_autostep")
  ∧ result_of (set_operation opc a other) st = Raise (AttributeError "_autostep").
Proof.
  intros Hok%store_okb_spec Ho Hattrs.
  assert (wp (NodeSetBase_copy a) st (λ r _, r = Raise (AttributeError "_autostep"))) as H.
  { unfold NodeSetBase_copy, class_of.
    apply wp_bind, wp_bind, wp_read_ns; [|intros; congruence].
    intros o' Ho'. rewrite Ho in Ho'. injection Ho' as <-. apply wp_ret.
    destruct (new_instance_frame _ nothing nothing st (ob_class o) st
                (frame_refl _ _ _ _ Hok (Pos.le_refl _)))
      as (st1 & oc0 & Hnew & _ & _ & _ & _ & _ & Hold1).
    apply wp_bind. eapply wp_intro; [exact Hnew|].
    assert (nsets st1 !! a = Some o) as Ho1.
    { rewrite Hold1; [done|]. apply (proj2 Hok). eauto. }
    apply wp_bind, wp_read_ns; [|intros; congruence]. intros o' Ho'.
    unfold get_attrs. apply wp_bind, wp_bind, wp_read_ns; [|intros; congruence].
    intros o'' Ho''. rewrite Ho1 in Ho''. injection Ho'' as <-.
    rewrite Hattrs. by apply wp_raise. }
  unfold result_of. split.
  - destruct (NodeSetBase_copy a st) as [r st'] eqn:Hrun.
    apply (wp_run _ _ _ _ _ H Hrun).
  - assert (set_operation opc a other
            = (do self_copy <- NodeSetBase_copy a;
               call_method opc self_copy other ;; ret self_copy)) as ->
      by by destruct opc.
    rewrite bind_eq.
    destruct (NodeSetBase_copy a st) as [r st'] eqn:Hrun.
    by rewrite (wp_run _ _ _ _ _ H Hrun).
Qed.

Lemma copy_without_NodeSet_attributes_raises_witness :
  result_of (NodeSetBase_copy 5%positive) demo_store_with_base
  = Raise (AttributeError "_autostep")
  ∧ result_of (set_operation op_update 5%positive (VNodeSet 1%positive)) demo_store_with_base
    = Raise (AttributeError "_autostep").
Proof.
  apply (copy_without_NodeSet_attributes_raises demo_store_with_base 5%positive
           (empty_NodeSetBase CNodeSetBase)); vm_compute; reflexivity.
Defined.

Lemma remove_frame n N R st0 self c st :
  frame n N R st0 st → owns n R self st → N self ∨ (n ≤ self)%positive →
  wp (NodeSetBase_remove self (VNodeSet c)) st
    (λ _ st', frame n N R st0 st' ∧ owns n R self st').
Proof.
  intros Hfr Hown Hself. unfold NodeSetBase_remove, call_difference_update, class_of.
  apply wp_bind, wp_bind, wp_read_ns; [|done]. intros o Ho. apply wp_ret.
  destruct (ob_class o); try (by apply difference_update_frame).
  unfold NodeSet_difference_update. apply wp_bind, wp_parse_operand_nodeset; [|done].
  by apply difference_update_frame.
Qed.

Lemma self_frame_spec st a st' :
  store_ok st →
  frame (next_loc st) (eq a) (rangesets_of st a) st st' →
  (∀ l, l ≠ a → is_Some (nsets st !! l) → nsets st' !! l = nsets st !! l)
  ∧ (∀ l, is_Some (rsets st !! l) → ¬ rangesets_of st a l → rsets st' !! l = rsets st !! l).
Proof.
  intros [Hrs Hns] (_ & _ & Hns' & Hrs'). split.
  - intros l Hne Hl. apply Hns'; [by apply Hns|congruence].
  - intros l Hl HR. apply Hrs'; [by apply Hrs|done].
Qed.

Lemma owns_self st a : owns (next_loc st) (rangesets_of st a) a st.
Proof. intros d k l Hd Hk. left. exists d. split; [done|]. apply elem_of_refs. eauto. Qed.

(** X3.  The in-place methods [update], [difference_update],
    [intersection_update], [symmetric_difference_update] and [remove] of a
    node set [a], applied to a node set [b], write to [a] and to the
    RangeSets of [a] only: whatever the outcome, every other node set object
    and every RangeSet that [a] did not refer to are as before.  In
    particular an operand that shares no RangeSet with [a] is never
    modified. *)
Theorem in_place_methods_write_to_self_only (opc : opcode) (a b : loc) (st : state) :
  store_okb st = true →
  ((∀ l, l ≠ a → is_Some (nsets st !! l) →
      nsets (state_after (call_method opc a (VNodeSet b)) st) !! l = nsets st !! l)
   ∧ (∀ l, is_Some (rsets st !! l) → ¬ rangesets_of st a l →
        rsets (state_after (call_method opc a (VNodeSet b)) st) !! l = rsets st !! l))
  ∧ ((∀ l, l ≠ a → is_Some (nsets st !! l) →
        nsets (state_after (NodeSetBase_remove a (VNodeSet b)) st) !! l = nsets st !! l)
     ∧ (∀ l, is_Some (rsets st !! l) → ¬ rangesets_of st a l →
          rsets (state_after (NodeSetBase_remove a (VNodeSet b)) st) !! l = rsets st !! l)).
Proof.
  intros Hok%store_okb_spec.
  assert (frame (next_loc st) (eq a) (rangesets_of st a) st st) as Hfr
    by (apply frame_refl; [done|lia]).
  unfold state_after. split.
  - destruct (call_method opc a (VNodeSet b) st) as [r st'] eqn:Hrun.
    apply self_frame_spec; [done|].
    apply (wp_run _ _ _ _ _
             (call_method_frame _ _ _ st opc a b st Hfr (owns_self st a) (or_introl eq_refl))
             Hrun).
  - destruct (NodeSetBase_remove a (VNodeSet b) st) as [r st'] eqn:Hrun.
    apply self_frame_spec; [done|].
    apply (wp_run _ _ _ _ _
             (remove_frame _ _ _ st a b st Hfr (owns_self st a) (or_introl eq_refl))
             Hrun).
Qed.

Lemma in_place_methods_write_to_self_only_witness :
  nsets (state_after (call_method op_intersection_update 1%positive (VNodeSet 2%positive))
           demo_store) !! 2%positive
  = nsets demo_store !! 2%positive.
Proof.
  apply (in_place_methods_write_to_self_only op_intersection_update 1%positive 2%positive
           demo_store); [vm_compute; reflexivity|lia|vm_compute; eauto].
Defined.

(** X4.  [union], [intersection], [difference] and [symmetric_difference]
    with a node set operand only create objects: whatever the outcome, every
    object that existed before the call is unchanged, and the node set they
    return is a new object whose RangeSets are all new. *)
Theorem set_operations_only_create_objects (opc : opcode) (a b : loc) (st : state) :
  store_okb st = true →
  unchanged st (state_after (set_operation opc a (VNodeSet b)) st)
  ∧ ∀ c, result_of (set_operation opc a (VNodeSet b)) st = Ok c →
         fresh_nodeset st (state_after (set_operation opc a (VNodeSet b)) st) c.
Proof.
  intros Hok%store_okb_spec.
  assert (wp (set_operation opc a (VNodeSet b)) st
            (λ r st', frame (next_loc st) nothing nothing st st'
                      ∧ ∀ c, r = Ok c →
                          (next_loc st ≤ c)%positive
                          ∧ owns (next_loc st) nothing c st')) as H.
  { assert (set_operation opc a (VNodeSet b)
            = (do self_copy <- NodeSetBase_copy a;
               call_method opc self_copy (VNodeSet b) ;; ret self_copy)) as ->
      by by destruct opc.
    apply wp_bind. eapply wp_mono; [by apply copy_spec|].
    intros [c|e] st1 (Hfr1 & Hc & _); [|by split].
    destruct (Hc c eq_refl) as [Hle Hown].
    apply wp_bind. eapply wp_mono; [by apply call_method_frame; [| |right]|].
    intros [[]|e] st2 [Hfr2 Hown2]; [|by split].
    apply wp_ret. split; [done|]. by intros c' [= <-]. }
  unfold state_after, result_of.
  destruct (set_operation opc a (VNodeSet b) st) as [r st'] eqn:Hrun.
  destruct (wp_run _ _ _ _ _ H Hrun) as [Hfr Hc]. simpl.
  split; [by apply frame_unchanged|].
  intros c ->. destruct (Hc c eq_refl) as [Hle Hown]. split.
  - by apply store_ok_unallocated.
  - intros d k l Hd Hk. destruct (Hown d k l Hd Hk) as [[]|Hl].
    by apply store_ok_unallocated.
Qed.

Lemma set_operations_only_create_objects_witness :
  unchanged demo_store
    (state_after (set_operation op_symmetric_difference_update 1%positive (VNodeSet 2%positive))
       demo_store).
Proof.
  apply (set_operations_only_create_objects op_symmetric_difference_update 1%positive
           2%positive demo_store).
  vm_compute; reflexivity.
Defined.

(** ** The scanner: operators *)

Lemma find_ge c s : -1 ≤ find c s.
Proof.
  induction s as [|a s IH]; simpl; [lia|].
  destruct (Ascii.eqb a c); [lia|]. destruct (find c s <? 0) eqn:E; lia.
Qed.

Lemma opcode_of_char_Some c opc : opcode_of_char c = Some opc → c = OP_CODES opc.
Proof.
  unfold opcode_of_char.
  destruct (Ascii.eqb c ",") eqn:E1; [intros [= <-]; by apply Ascii.eqb_eq|].
  destruct (Ascii.eqb c "!") eqn:E2; [intros [= <-]; by apply Ascii.eqb_eq|].
  destruct (Ascii.eqb c "&") eqn:E3; [intros [= <-]; by apply Ascii.eqb_eq|].
  destruct (Ascii.eqb c "^") eqn:E4; [intros [= <-]; by apply Ascii.eqb_eq|done].
Qed.

Lemma opcode_of_char_None c opc : opcode_of_char c = None → Ascii.eqb c (OP_CODES opc) = false.
Proof.
  unfold opcode_of_char.
  destruct (Ascii.eqb c ",") eqn:E1; [done|].
  destruct (Ascii.eqb c "!") eqn:E2; [done|].
  destruct (Ascii.eqb c "&") eqn:E3; [done|].
  destruct (Ascii.eqb c "^") eqn:E4; [done|]. by destruct opc.
Qed.

Lemma OP_CODES_inj o o' : Ascii.eqb (OP_CODES o) (OP_CODES o') = true → o = o'.
Proof. by destruct o, o'. Qed.

(** The indices that [str.find] gives for the four operator characters,
    in terms of the first operator character of the string. *)
Lemma find_first_op pat :
  match first_op pat with
  | (i, Some opc) =>
      0 ≤ i ∧ find (OP_CODES opc) pat = i
      ∧ ∀ o, o ≠ opc → find (OP_CODES o) pat = -1 ∨ i < find (OP_CODES o) pat
  | (i, None) => i = -1 ∧ ∀ o, find (OP_CODES o) pat = -1
  end.
Proof.
  induction pat as [|c s IH]; [done|]. simpl.
  destruct (opcode_of_char c) as [opc|] eqn:Hc.
  - apply opcode_of_char_Some in Hc as ->. split_and!; [done| |].
    + by rewrite Ascii.eqb_refl.
    + intros o Hne. destruct (Ascii.eqb (OP_CODES opc) (OP_CODES o)) eqn:E.
      * by apply OP_CODES_inj in E.
      * pose proof (find_ge (OP_CODES o) s). destruct (find (OP_CODES o) s <? 0) eqn:E'; lia.
  - destruct (first_op s) as [i [opc|]].
    + destruct IH as (Hi & Hfind & Hothers).
      assert ((i <? 0) = false) as -> by lia. split_and!; [lia| |].
      * rewrite (opcode_of_char_None c opc Hc), Hfind.
        by assert ((i <? 0) = false) as -> by lia.
      * intros o Hne. rewrite (opcode_of_char_None c o Hc).
        destruct (Hothers o Hne) as [->|Hlt]; [by left|].
        right. assert ((find (OP_CODES o) s <? 0) = false) as -> by lia. lia.
    + destruct IH as [-> Hall]. simpl. split; [done|].
      intros o. by rewrite (opcode_of_char_None c o Hc), Hall.
Qed.

Lemma next_op_step_stable pat i opc ops :
  0 ≤ i → find (OP_CODES opc) pat = i →
  (∀ o, o ≠ opc → find (OP_CODES o) pat = -1 ∨ i < find (OP_CODES o) pat) →
  fold_left
    (λ '(op_idx, next_op_code) opc,
       let idx := find (OP_CODES opc) pat in
       if (0 <=? idx) && ((op_idx <? 0) || (idx <=? op_idx))
       then (idx, Some opc) else (op_idx, next_op_code))
    ops (i, Some opc) = (i, Some opc).
Proof.
  intros Hi Hfind Hothers. induction ops as [|o ops IH]; [done|]. simpl.
  destruct (decide (o = opc)) as [->|Hne].
  - rewrite Hfind.
    assert ((0 <=? i) && ((i <? 0) || (i <=? i)) = true) as -> by lia. done.
  - destruct (Hothers o Hne) as [->|Hlt]; [done|].
    assert ((0 <=? find (OP_CODES o) pat)
            && ((i <? 0) || (find (OP_CODES o) pat <=? i)) = false) as -> by lia.
    done.
Qed.

Lemma next_op_step_first pat i opc ops acc :
  0 ≤ i → find (OP_CODES opc) pat = i →
  (∀ o, o ≠ opc → find (OP_CODES o) pat = -1 ∨ i < find (OP_CODES o) pat) →
  opc ∈ ops → acc.1 = -1 ∨ i < acc.1 →
  fold_left
    (λ '(op_idx, next_op_code) opc,
       let idx := find (OP_CODES opc) pat in
       if (0 <=? idx) && ((op_idx <? 0) || (idx <=? op_idx))
       then (idx, Some opc) else (op_idx, next_op_code))
    ops acc = (i, Some opc).
Proof.
  intros Hi Hfind Hothers. revert acc.
  induction ops as [|o ops IH]; intros [j code] Hin Hacc; [by apply elem_of_nil in Hin|].
  simpl in *. destruct (decide (o = opc)) as [->|Hne].
  - rewrite Hfind.
    assert ((0 <=? i) && ((j <? 0) || (i <=? j)) = true) as -> by lia.
    by apply next_op_step_stable.
  - apply elem_of_cons in Hin as [Heq|Hin]; [congruence|].
    destruct (Hothers o Hne) as [Ho|Hlt].
    + rewrite Ho. simpl. by apply IH.
    + destruct ((0 <=? find (OP_CODES o) pat)
                && ((j <? 0) || (find (OP_CODES o) pat <=? j))); apply IH; simpl; auto.
Qed.

(** X5.  [_next_op] returns the position of the first operator character
    of the pattern and the method that it stands for, and [(-1, None)] when
    there is none, whatever the order in which the dictionary [OP_CODES] is
    enumerated. *)
Theorem next_op_is_the_first_operator (ops : list opcode) (pat : string) :
  is_enumeration ops = true →
  next_op_from ops pat = first_op pat ∧ _next_op pat = first_op pat.
Proof.
  intros Hperm%bool_decide_eq_true.
  assert (∀ ops', (∀ o, o ∈ ops') → next_op_from ops' pat = first_op pat) as H.
  { intros ops' Hall. unfold next_op_from. pose proof (find_first_op pat) as Hf.
    destruct (first_op pat) as [i [opc|]].
    - destruct Hf as (Hi & Hfind & Hothers).
      apply next_op_step_first; auto.
    - destruct Hf as [-> Hnone]. clear Hall.
      induction ops' as [|o ops' IH]; [done|]. simpl. by rewrite Hnone. }
  split; apply H; intros o.
  - rewrite Hperm. destruct o; set_solver.
  - unfold all_opcodes. destruct o; set_solver.
Qed.

Lemma next_op_is_the_first_operator_witness :
  next_op_from [op_symmetric_difference_update; op_update; op_intersection_update;
                op_difference_update] "node[1-3]!node2,node7"
  = (9, Some op_difference_update).
Proof.
  apply (next_op_is_the_first_operator
           [op_symmetric_difference_update; op_update; op_intersection_update;
            op_difference_update] "node[1-3]!node2,node7").
  vm_compute; reflexivity.
Defined.

(** ** The scanner: termination *)

Lemma split1_length c s l r :
  split1 c s = Some (l, r) → String.length s = S (String.length l + String.length r).
Proof.
  revert l. induction s as [|a s IH]; intros l; simpl; [done|].
  destruct (Ascii.eqb a c); [by intros [= <- <-]|].
  destruct (split1 c s) as [[l' r']|]; [|done]. intros [= <- <-]. simpl.
  by rewrite (IH l' eq_refl).
Qed.

Lemma lstrip_length s : (String.length (lstrip s) ≤ String.length s)%nat.
Proof. induction s as [|a s IH]; simpl; [done|]. destruct (is_space a); simpl; lia. Qed.

Lemma split_at_next_op_length s head pat' op' :
  split_at_next_op s = (head, Some (pat', op')) →
  (String.length pat' < String.length s)%nat.
Proof.
  unfold split_at_next_op. destruct (_next_op s) as [op_idx [opc|]]; [|done].
  destruct (op_idx <? 0); [done|].
  destruct (split1 (OP_CODES opc) s) as [[h p]|] eqn:E; [|done].
  intros [= <- <- <-]. apply split1_length in E. lia.
Qed.

(** Each round of the loop of [_scan_string] that does not end it leaves a
    strictly shorter pattern. *)
Lemma scan_step_shrinks autostep pat op ev pat' op' :
  scan_step autostep pat op = ScanYield ev (Some (pat', op')) →
  (String.length pat' < String.length pat)%nat.
Proof.
  unfold scan_step. pose proof (lstrip_length pat) as Hl.
  destruct (_next_op (lstrip pat)) as [op_idx o].
  destruct ((0 <=? find "[" (lstrip pat)) && _).
  - destruct (split1 "[" (lstrip pat)) as [[pfx sfx]|] eqn:E1; [|done].
    destruct (split1 "]" sfx) as [[rng sfx']|] eqn:E2; [|done].
    destruct (split_at_next_op sfx') as [head next] eqn:E3.
    destruct (len pfx + len (rstrip head) =? 0); [done|].
    destruct (scan_rangeset rng autostep); [|done]. intros [= <- ->].
    apply split1_length in E1, E2. apply split_at_next_op_length in E3. lia.
  - destruct (split_at_next_op (lstrip pat)) as [node next] eqn:E3.
    destruct (len (strip node) =? 0); [done|].
    destruct (single_node_re (strip node)) as [[pfx idx] sfx].
    destruct (len pfx + len sfx =? 0); [done|].
    destruct (negb (is_empty idx)).
    + destruct (scan_rangeset idx autostep); [|done]. intros [= <- ->].
      apply split_at_next_op_length in E3. lia.
    + intros [= <- ->]. apply split_at_next_op_length in E3. lia.
Qed.

Lemma scan_loop_enough autostep fuel :
  ∀ fuel' pat op,
    (String.length pat < fuel)%nat → (String.length pat < fuel')%nat →
    scan_loop fuel autostep pat op = scan_loop fuel' autostep pat op
    ∧ (scan_loop fuel autostep pat op).2 ≠ ScanOutOfFuel
    ∧ (length (scan_loop fuel autostep pat op).1 ≤ S (String.length pat))%nat.
Proof.
  induction fuel as [|fuel IH]; intros fuel' pat op Hf Hf'; [lia|].
  destruct fuel' as [|fuel']; [lia|]. simpl.
  destruct (scan_step autostep pat op) as [e|ev [[pat' op']|]] eqn:Hstep;
    [split_and!; [done|done|simpl; lia]| |split_and!; [done|done|simpl; lia]].
  apply scan_step_shrinks in Hstep.
  destruct (IH fuel' pat' op') as (Heq & Hend & Hlen); [lia|lia|].
  rewrite <- Heq. destruct (scan_loop fuel autostep pat' op') as [evs fin].
  simpl in *. split_and!; [done|done|lia].
Qed.

Lemma parse_loop_enough on_event autostep fuel :
  ∀ fuel' pat op,
    (String.length pat < fuel)%nat → (String.length pat < fuel')%nat →
    parse_loop fuel on_event autostep pat op = parse_loop fuel' on_event autostep pat op.
Proof.
  induction fuel as [|fuel IH]; intros fuel' pat op Hf Hf'; [lia|].
  destruct fuel' as [|fuel']; [lia|]. simpl.
  destruct (scan_step autostep pat op) as [e|ev [[pat' op']|]] eqn:Hstep; [done| |done].
  apply scan_step_shrinks in Hstep. f_equal.
  rewrite (IH fuel' pat' op'); [done|lia|lia].
Qed.

(** X6.  The loop of [_scan_string] terminates on every input: every
    round that does not end the scan shortens the pattern, so the scan of a
    string ends (normally or with an exception) within as many rounds as
    the stripped string has characters, plus one.  It yields at most that
    many events, and more rounds would not change its result. *)
Theorem scanner_terminates (nsstr : string) (autostep : option Z) :
  (_scan_string nsstr autostep).2 ≠ ScanOutOfFuel
  ∧ (length (_scan_string nsstr autostep).1 ≤ S (String.length (scan_init nsstr)))%nat
  ∧ ∀ fuel, (String.length (scan_init nsstr) < fuel)%nat →
      scan_loop fuel autostep (scan_init nsstr) op_update = _scan_string nsstr autostep.
Proof.
  unfold _scan_string.
  destruct (scan_loop_enough autostep (S (String.length (scan_init nsstr)))
              (S (String.length (scan_init nsstr))) (scan_init nsstr) op_update)
    as (_ & Hend & Hlen); [lia|lia|].
  split_and!; [done|done|]. intros fuel Hfuel.
  by apply scan_loop_enough; [|lia].
Qed.

Lemma scanner_terminates_witness :
  scan_loop 40 None (scan_init "node[1-3]!node2,node7") op_update
  = _scan_string "node[1-3]!node2,node7" None.
Proof.
  apply (scanner_terminates "node[1-3]!node2,node7" None). vm_compute. lia.
Defined.

(** ** The scanner: the templates it builds *)

Lemma is_empty_escape t : is_empty (escape_percent t) = is_empty t.
Proof. destruct t as [|c t]; [done|]. simpl. by destruct (Ascii.eqb c "%"). Qed.

Lemma escape_lstrip t : lstrip (escape_percent t) = escape_percent (lstrip t).
Proof.
  induction t as [|c t IH]; [done|]. simpl.
  destruct (Ascii.eqb c "%") eqn:E.
  - apply Ascii.eqb_eq in E as ->. simpl. by rewrite ?Ascii.eqb_refl.
  - simpl. destruct (is_space c); [done|]. simpl. by rewrite E.
Qed.

Lemma escape_rstrip t : rstrip (escape_percent t) = escape_percent (rstrip t).
Proof.
  induction t as [|c t IH]; [done|]. simpl.
  destruct (Ascii.eqb c "%") eqn:E.
  - apply Ascii.eqb_eq in E as ->. simpl. rewrite IH.
    rewrite ?andb_false_r. simpl. by rewrite ?Ascii.eqb_refl.
  - simpl. rewrite IH, is_empty_escape.
    destruct (is_empty (rstrip t) && is_space c); [done|]. simpl. by rewrite E.
Qed.

Lemma escape_strip t : strip (escape_percent t) = escape_percent (strip t).
Proof. unfold strip. by rewrite escape_rstrip, escape_lstrip. Qed.

Lemma escape_percent_cons a t :
  escape_percent (String a t)
  = if Ascii.eqb a "%" then String "%" (String "%" (escape_percent t))
    else String a (escape_percent t).
Proof. done. Qed.

Lemma split1_cons c a s :
  split1 c (String a s)
  = if Ascii.eqb a c then Some (EmptyString, s)
    else match split1 c s with
         | Some (l, r) => Some (String a l, r)
         | None => None
         end.
Proof. done. Qed.

Lemma escape_split1 c t :
  Ascii.eqb c "%" = false →
  split1 c (escape_percent t)
  = (λ '(l, r), (escape_percent l, escape_percent r)) <$> split1 c t.
Proof.
  intros Hc. assert (Ascii.eqb "%" c = false) as Hc' by by rewrite Ascii.eqb_sym.
  induction t as [|a t IH]; [done|].
  rewrite escape_percent_cons. destruct (Ascii.eqb a "%") eqn:E.
  - apply Ascii.eqb_eq in E as ->. rewrite !split1_cons, Hc', IH.
    by destruct (split1 c t) as [[l r]|].
  - rewrite !split1_cons. destruct (Ascii.eqb a c); [done|]. rewrite IH.
    destruct (split1 c t) as [[l r]|]; [|done]. simpl. by rewrite E.
Qed.

Lemma escape_span p t :
  span p (escape_percent t)
  = let '(l, r) := span p t in (escape_percent l, escape_percent r).
Proof.
  induction t as [|a t IH]; [done|]. simpl.
  destruct (Ascii.eqb a "%") eqn:E.
  - apply Ascii.eqb_eq in E as ->. simpl. destruct (p "%"%char) eqn:Hp; [|done].
    rewrite IH. destruct (span p t) as [l r]. simpl. by rewrite ?Ascii.eqb_refl.
  - simpl. destruct (p a); [|by simpl; rewrite E].
    rewrite IH. destruct (span p t) as [l r]. simpl. by rewrite E.
Qed.

Lemma escape_single_node_re t :
  single_node_re (escape_percent t)
  = let '(pfx, idx, sfx) := single_node_re t in
    (escape_percent pfx, escape_percent idx, escape_percent sfx).
Proof.
  unfold single_node_re. rewrite escape_span.
  destruct (span _ t) as [pfx r]. rewrite escape_span.
  destruct (span is_digit r) as [idx r']. rewrite escape_span.
  by destruct (span _ r') as [sfx r''].
Qed.

Lemma escape_no_percent s : find "%" s < 0 → escape_percent s = s.
Proof.
  induction s as [|a s IH]; [done|]. simpl. destruct (Ascii.eqb a "%"); [lia|].
  intros H. rewrite IH; [done|]. pose proof (find_ge "%" s).
  destruct (find "%" s <? 0) eqn:E; lia.
Qed.

Lemma scan_init_escape nsstr : ∃ t, scan_init nsstr = escape_percent t.
Proof.
  unfold scan_init. destruct (0 <=? find "%" (strip nsstr)) eqn:E; [eauto|].
  exists (strip nsstr). rewrite escape_no_percent; [done|lia].
Qed.

Lemma split_at_next_op_escape t head next :
  split_at_next_op (escape_percent t) = (head, next) →
  (∃ h, head = escape_percent h)
  ∧ ∀ pat op, next = Some (pat, op) → ∃ p, pat = escape_percent p.
Proof.
  unfold split_at_next_op.
  destruct (_next_op (escape_percent t)) as [op_idx [opc|]];
    [|intros [= <- <-]; split; [eauto|done]].
  destruct (op_idx <? 0); [intros [= <- <-]; split; [eauto|done]|].
  rewrite escape_split1 by by destruct opc.
  destruct (split1 (OP_CODES opc) t) as [[h p]|]; simpl;
    [|intros [= <- <-]; split; [eauto|done]].
  intros [= <- <-]. split; [eauto|]. intros pat op [= <- <-]. eauto.
Qed.

(** Formatting an escaped template puts the argument between the two
    texts. *)
Lemma format_escape_nil s : format_args (escape_percent s) [] = Ok s.
Proof.
  induction s as [|a s IH]; [done|]. simpl.
  destruct (Ascii.eqb a "%") eqn:E.
  - apply Ascii.eqb_eq in E as ->. simpl. by rewrite IH.
  - simpl. by rewrite E, IH.
Qed.

Lemma append_nil_l (s : string) : (EmptyString ++ s)%string = s.
Proof. done. Qed.

Lemma append_cons a (s t : string) : (String a s ++ t)%string = String a (s ++ t)%string.
Proof. done. Qed.

Lemma format_escape_app pfx rest args :
  format_args (escape_percent pfx ++ rest) args
  = match format_args rest args with
    | Ok r => Ok (pfx ++ r)%string
    | Raise e => Raise e
    end.
Proof.
  induction pfx as [|a pfx IH].
  - simpl escape_percent. rewrite append_nil_l. by destruct (format_args rest args).
  - rewrite escape_percent_cons. destruct (Ascii.eqb a "%") eqn:E.
    + apply Ascii.eqb_eq in E as ->. rewrite !append_cons. simpl. rewrite IH.
      by destruct (format_args rest args).
    + rewrite !append_cons. simpl. rewrite E, IH.
      by destruct (format_args rest args).
Qed.

Lemma format_escape pfx sfx x :
  format (escape_percent pfx ++ "%s" ++ escape_percent sfx) x = Ok (pfx ++ x ++ sfx)%string.
Proof.
  unfold format. rewrite format_escape_app.
  rewrite append_cons, append_cons, append_nil_l. simpl.
  by rewrite format_escape_nil.
Qed.

Lemma append_nonempty (s t : string) : t ≠ EmptyString → (s ++ t)%string ≠ EmptyString.
Proof. destruct s; [done|]. rewrite append_cons. by intros. Qed.

Lemma span_rest p s l r :
  span p s = (l, r) → r = EmptyString ∨ ∃ c r', r = String c r' ∧ p c = false.
Proof.
  revert l. induction s as [|a s IH]; intros l; simpl; [intros [= <- <-]; by left|].
  destruct (p a) eqn:Hp; [|intros [= <- <-]; right; eauto].
  destruct (span p s) as [l' r']. intros [= <- <-]. by eapply IH.
Qed.

Lemma span_all p s l r :
  span p s = (l, r) → forallb p (list_ascii_of_string l) = true.
Proof.
  revert l. induction s as [|a s IH]; intros l; simpl; [by intros [= <- <-]|].
  destruct (p a) eqn:Hp; [|by intros [= <- <-]].
  destruct (span p s) as [l' r']. intros [= <- <-]. simpl. rewrite Hp. by eapply IH.
Qed.

(** Without an index, the regular expression puts the whole node name in
    its first group. *)
Lemma single_node_re_no_index node pfx sfx :
  single_node_re node = (pfx, EmptyString, sfx) →
  sfx = EmptyString ∧ no_digit pfx = true.
Proof.
  unfold single_node_re.
  destruct (span (λ c, negb (is_digit c)) node) as [p r] eqn:E1.
  destruct (span is_digit r) as [i r'] eqn:E2.
  destruct (span (λ c, negb (Ascii.eqb c "010")) r') as [s r''] eqn:E3.
  intros [= -> -> ->]. split; [|by eapply span_all].
  destruct (span_rest _ _ _ _ E1) as [->|(c & r0 & -> & Hc)].
  - simpl in E2. injection E2 as <-. simpl in E3. by injection E3 as <-.
  - simpl in E2. apply negb_false_iff in Hc. rewrite Hc in E2.
    by destruct (span is_digit r0).
Qed.

Lemma len_0 s : len s = 0 → s = EmptyString.
Proof. by destruct s. Qed.

(** One round of the scanner: from an escaped pattern it yields a
    well-formed event and leaves an escaped pattern. *)
Lemma scan_step_wf autostep t op ev next :
  scan_step autostep (escape_percent t) op = ScanYield ev next →
  wf_event ev ∧ ∀ pat' op', next = Some (pat', op') → ∃ t', pat' = escape_percent t'.
Proof.
  unfold scan_step. rewrite escape_lstrip.
  destruct (_next_op (escape_percent (lstrip t))) as [op_idx o].
  destruct ((0 <=? find "[" (escape_percent (lstrip t))) && _).
  - rewrite escape_split1 by done.
    destruct (split1 "[" (lstrip t)) as [[pfx sfx]|]; simpl; [|done].
    rewrite escape_split1 by done.
    destruct (split1 "]" sfx) as [[rng sfx']|]; simpl; [|done].
    destruct (split_at_next_op (escape_percent sfx')) as [head nxt] eqn:E3.
    apply split_at_next_op_escape in E3 as [[h ->] Hnext].
    rewrite escape_rstrip.
    destruct (len (escape_percent pfx) + len (escape_percent (rstrip h)) =? 0); [done|].
    destruct (scan_rangeset (escape_percent rng) autostep); [|done].
    intros [= <- <-]. split; [|done]. split; simpl.
    + by apply append_nonempty.
    + exists pfx, (rstrip h). split; [done|]. intros x. apply format_escape.
  - destruct (split_at_next_op (escape_percent (lstrip t))) as [node nxt] eqn:E3.
    apply split_at_next_op_escape in E3 as [[h ->] Hnext].
    rewrite escape_strip.
    destruct (len (escape_percent (strip h)) =? 0); [done|].
    rewrite escape_single_node_re.
    destruct (single_node_re (strip h)) as [[pfx idx] sfx] eqn:Hre.
    destruct (len (escape_percent pfx) + len (escape_percent sfx) =? 0) eqn:Hlen; [done|].
    rewrite is_empty_escape. destruct idx as [|d idx]; simpl.
    + intros [= <- <-]. split; [|done].
      apply single_node_re_no_index in Hre as [-> Hnd]. split; simpl.
      * intros Hp. rewrite Hp in Hlen. done.
      * by exists pfx.
    + destruct (scan_rangeset _ autostep); [|done].
      intros [= <- <-]. split; [|done]. split; simpl.
      * by apply append_nonempty.
      * exists pfx, sfx. split; [done|]. intros x. apply format_escape.
Qed.

Lemma scan_loop_wf autostep fuel :
  ∀ t op ev, ev ∈ (scan_loop fuel autostep (escape_percent t) op).1 → wf_event ev.
Proof.
  induction fuel as [|fuel IH]; intros t op ev; simpl; [by intros ?%elem_of_nil|].
  destruct (scan_step autostep (escape_percent t) op) as [e|ev' next] eqn:Hstep;
    [by intros ?%elem_of_nil|].
  apply scan_step_wf in Hstep as [Hwf Hnext].
  destruct next as [[pat' op']|].
  - destruct (Hnext pat' op' eq_refl) as [t' ->].
    specialize (IH t' op').
    destruct (scan_loop fuel autostep (escape_percent t') op') as [evs fin]. simpl in *.
    intros [->|Hin]%elem_of_cons; [done|]. by apply IH.
  - simpl. by intros ->%list_elem_of_singleton.
Qed.

(** X7.  Every event that [_scan_string] yields has a non-empty template.
    The template of a numbered term is a valid format string with a single
    [%s]: the percent signs of the text were doubled, so that formatting the
    template with an index gives the text before the index, the index and
    the text after it, and never fails.  The template of an unnumbered node
    has no digit. *)
Theorem scanner_templates_are_well_formed (nsstr : string) (autostep : option Z)
    (i : nat) (ev : event) :
  (_scan_string nsstr autostep).1 !! i = Some ev → wf_event ev.
Proof.
  intros Hin%list_elem_of_lookup_2. unfold _scan_string in Hin.
  destruct (scan_init_escape nsstr) as [t Ht]. rewrite Ht in Hin.
  by eapply scan_loop_wf.
Qed.

Lemma scanner_templates_are_well_formed_witness :
  wf_event (Event op_difference_update "100%%-n%s-ib" (Some (mk_rs [7; 8]))).
Proof.
  apply (scanner_templates_are_well_formed "a1!100%-n[7-8]-ib" None 1
           (Event op_difference_update "100%%-n%s-ib" (Some (mk_rs [7; 8])))).
  vm_compute. reflexivity.
Defined.

(** ** Blank strings *)

Lemma rstrip_blank s : is_blank s = true → rstrip s = EmptyString.
Proof.
  unfold is_blank. induction s as [|c s IH]; [done|]. simpl.
  intros [Hc Hs]%andb_true_iff. by rewrite (IH Hs), Hc.
Qed.

Lemma scan_init_blank s : is_blank s = true → scan_init s = EmptyString.
Proof. intros H. unfold scan_init, strip. by rewrite (rstrip_blank s H). Qed.

Lemma ParsingEngine_parse_string_S depth engine nsstr autostep :
  ParsingEngine_parse_string (S depth) engine nsstr autostep
  = (do nodeset <- NodeSetBase_new CNodeSetBase None None;
     parse_loop (S (String.length (scan_init nsstr)))
       (parse_event (parse_with (ParsingEngine_parse_string depth engine))
          engine autostep nodeset)
       autostep (scan_init nsstr) op_update ;;
     ret nodeset).
Proof. done. Qed.

Lemma parse_string_blank depth engine s autostep st :
  is_blank s = true →
  ParsingEngine_parse_string (S depth) engine s autostep st
  = (empty_node_name, new_ns (empty_NodeSetBase CNodeSetBase) st).
Proof.
  intros H. rewrite ParsingEngine_parse_string_S, (scan_init_blank s H). done.
Qed.


(** The constructor, up to its call of [update]. *)
Lemma NodeSet_new_eq nodes autostep rarg st :
  NodeSet_new nodes autostep rarg st
  = (NodeSet_update (next_loc st) nodes ;; ret (next_loc st))
      (upd_ns (next_loc st)
         (empty_NodeSet autostep (resolver_of (STD_GROUP_RESOLVER st) rarg))
         (new_ns (empty_NodeSetBase CNodeSet) st)).
Proof.
  unfold NodeSet_new. remember NodeSet_update as upd.
  rewrite bind_eq. simpl.
  rewrite bind_eq. simpl.
  rewrite bind_eq. unfold read_ns at 1. simpl. rewrite lookup_insert_eq.
  rewrite bind_eq. simpl. by destruct rarg.
Qed.

(** [self._parser.parse(s, self._autostep)] for a string [s]. *)
Lemma parse_operand_str self o a s st :
  nsets st !! self = Some o → ob_attrs o = Some a →
  parse_operand self (VStr s) st
  = match ParsingEngine_parse_string recursion_limit (_parser a) s (_autostep a) st with
    | (Raise (GroupSourceQueryFailed msg), st') =>
        (Raise (NodeSetParseError (Some s) msg), st')
    | r => r
    end.
Proof.
  intros Ho Ha. unfold parse_operand, get_attrs, ParsingEngine_parse.
  set (ps := ParsingEngine_parse_string recursion_limit). clearbody ps.
  rewrite !bind_eq. unfold read_ns. rewrite Ho. simpl. by rewrite Ha.
Qed.

(** X8.  A string that is empty or made of whitespace only is not an empty
    node set: the scanner yields nothing and raises [NodeSetParseError] with
    the message "empty node name" and no faulty part, and so does the
    constructor [NodeSet(s)], whatever its other arguments. *)
Theorem blank_string_is_an_empty_node_name (s : string) (autostep : option Z)
    (rarg : resolver_arg) (st : state) :
  is_blank s = true →
  _scan_string s autostep = ([], ScanFailed (NodeSetParseError None "empty node name"))
  ∧ result_of (NodeSet_new (VStr s) autostep rarg) st = empty_node_name.
Proof.
  intros H. split.
  - unfold _scan_string. by rewrite (scan_init_blank s H).
  - unfold result_of. rewrite NodeSet_new_eq, bind_eq.
    unfold NodeSet_update. rewrite bind_eq.
    erewrite parse_operand_str;
      [|simpl; by rewrite lookup_insert_eq|reflexivity].
    unfold recursion_limit. by rewrite (parse_string_blank _ _ s _ _ H).
Qed.

Lemma blank_string_is_an_empty_node_name_witness :
  result_of (NodeSet_new (VStr "  ") None ResolverNone) demo_store = empty_node_name.
Proof.
  apply (blank_string_is_an_empty_node_name "  " None ResolverNone demo_store).
  reflexivity.
Defined.

(** ** Counting and enumerating the nodes *)

Lemma rs_sorted_length r : Z.of_nat (length (rs_sorted r)) = rs_len r.
Proof.
  unfold rs_sorted, rs_len. f_equal.
  by rewrite (Permutation_length (merge_sort_Permutation _ _)).
Qed.

Lemma entry_items_length st pat pat' v :
  length (entry_items st pat v) = length (entry_items st pat' v).
Proof.
  unfold entry_items. destruct v as [l|]; [|done].
  destruct (rsets st !! l) as [r|]; [|done].
  destruct (0 <? rs_len r); [|done]. by rewrite !length_fmap.
Qed.

Lemma iter_loop_eq st items :
  ∀ acc,
    (∀ pat l, (pat, Some l) ∈ items → is_Some (rsets st !! l)) →
    for_fold items acc
      (λ '(pat, rangeset) acc,
        do c <- truth rangeset;
        if c then
          do r <- on_rangeset rangeset "padding" read_rs;
          ret (acc ++ ((λ idx, (pat, Some (idx, padding r))) <$> rs_sorted r))
        else ret (acc ++ [(pat, None)])) st
    = (Ok (acc ++ concat ((λ kv, entry_items st kv.1 kv.2) <$> items)), st).
Proof.
  induction items as [|[pat v] items IH]; intros acc Hvalid; simpl.
  - by rewrite app_nil_r.
  - rewrite bind_eq.
    assert (∀ acc', for_fold items acc'
              (λ '(pat, rangeset) acc,
                do c <- truth rangeset;
                if c then
                  do r <- on_rangeset rangeset "padding" read_rs;
                  ret (acc ++ ((λ idx, (pat, Some (idx, padding r))) <$> rs_sorted r))
                else ret (acc ++ [(pat, None)])) st
            = (Ok (acc' ++ concat ((λ kv, entry_items st kv.1 kv.2) <$> items)), st)) as IH'.
    { intros acc'. apply IH. intros p l Hin. apply (Hvalid p l). by right. }
    destruct v as [l|].
    + destruct (Hvalid pat l) as [r Hr]; [left|].
      unfold truth, RangeSet_len. rewrite !bind_eq. unfold read_rs at 1. rewrite Hr. simpl.
      unfold entry_items. rewrite Hr.
      destruct (0 <? rs_len r).
      * rewrite bind_eq. unfold read_rs. rewrite Hr. simpl.
        rewrite IH'. by rewrite <- app_assoc.
      * simpl. rewrite IH'. by rewrite <- app_assoc.
    + simpl. rewrite IH'. by rewrite <- app_assoc.
Qed.

Lemma refs_valid_items st a d :
  refs_valid st a = true → patterns_of st a = Some d →
  ∀ pat l, d !! pat = Some (Some l) → is_Some (rsets st !! l).
Proof.
  unfold refs_valid. intros H Hd pat l Hl. rewrite Hd in H.
  rewrite forallb_forall in H.
  eapply bool_decide_eq_true, H, list_elem_of_In, elem_of_refs. eauto.
Qed.

Lemma sorted_items_Permutation d : sorted_items d ≡ₚ map_to_list d.
Proof. apply merge_sort_Permutation. Qed.

Lemma elem_of_sorted_items d pat v : (pat, v) ∈ sorted_items d ↔ d !! pat = Some v.
Proof. rewrite sorted_items_Permutation. apply elem_of_map_to_list. Qed.

(** [_iter] enumerates the nodes of the dictionary and changes nothing. *)
Lemma iter_eq st a d :
  refs_valid st a = true → patterns_of st a = Some d →
  NodeSetBase__iter a st = (Ok (nodes_of st d), st).
Proof.
  intros Hvalid Hd. unfold NodeSetBase__iter. rewrite bind_eq.
  unfold patterns_of in Hd. unfold read_ns.
  destruct (nsets st !! a) as [o|] eqn:Ho; [|done]. injection Hd as <-. simpl.
  rewrite iter_loop_eq; [done|]. intros pat l Hin%elem_of_sorted_items.
  eapply (refs_valid_items st a (_patterns o)); [done| |done].
  unfold patterns_of. by rewrite Ho.
Qed.

Lemma truth_Some st l r : rsets st !! l = Some r → truth (Some l) st = (Ok (0 <? rs_len r), st).
Proof.
  intros Hr. unfold truth, RangeSet_len. rewrite !bind_eq. unfold read_rs. by rewrite Hr.
Qed.

Lemma len_entry_Some st l r : rsets st !! l = Some r → len_entry (Some l) st = (Ok (rs_len r), st).
Proof.
  intros Hr. unfold len_entry, RangeSet_len. rewrite !bind_eq. unfold read_rs. by rewrite Hr.
Qed.

Lemma len_loop_eq st vs :
  ∀ cnt,
    (∀ l, Some l ∈ vs → is_Some (rsets st !! l)) →
    (fix loop (vs : list (option loc)) (cnt : Z) : M Z :=
       match vs with
       | [] => ret cnt
       | rangeset :: vs' =>
           do c <- truth rangeset;
           if c then do n <- len_entry rangeset; loop vs' (cnt + n)
           else loop vs' (cnt + 1)
       end) vs cnt st
    = (Ok (cnt + Z.of_nat (length (concat ((λ v, entry_items st EmptyString v) <$> vs)))), st).
Proof.
  induction vs as [|v vs IH]; intros cnt Hvalid.
  - simpl. by rewrite Z.add_0_r.
  - rewrite fmap_cons, concat_cons, length_app, Nat2Z.inj_add, Z.add_assoc.
    assert (∀ l', Some l' ∈ vs → is_Some (rsets st !! l')) as Hvalid'
      by (intros l' Hl'; apply Hvalid; by right).
    rewrite bind_eq. destruct v as [l|].
    + destruct (Hvalid l) as [r Hr]; [left|].
      rewrite (truth_Some st l r Hr).
      assert (entry_items st EmptyString (Some l)
              = if 0 <? rs_len r
                then (λ idx, (EmptyString, Some (idx, padding r))) <$> rs_sorted r
                else [(EmptyString, None)]) as ->
        by (unfold entry_items; by rewrite Hr).
      destruct (0 <? rs_len r) eqn:Hlen.
      * cbv beta iota. rewrite bind_eq, (len_entry_Some st l r Hr). cbv beta iota.
        rewrite (IH _ Hvalid'). by rewrite length_fmap, rs_sorted_length.
      * cbv beta iota. by rewrite (IH _ Hvalid').
    + change (truth None st) with (Ok false, st). cbv beta iota.
      by rewrite (IH _ Hvalid').
Qed.

Lemma length_concat_Permutation {A B} (f : A → list B) (l l' : list A) :
  l ≡ₚ l' → length (concat (f <$> l)) = length (concat (f <$> l')).
Proof.
  intros Hperm. induction Hperm as [|x l l' _ IH|x y l|l l' l'' _ IH1 _ IH2].
  - done.
  - by rewrite !fmap_cons, !concat_cons, !length_app, IH.
  - rewrite !fmap_cons, !concat_cons, !length_app. lia.
  - by rewrite IH1.
Qed.

Lemma length_concat_ext {A B} (f g : A → list B) (l : list A) :
  (∀ x, length (f x) = length (g x)) →
  length (concat (f <$> l)) = length (concat (g <$> l)).
Proof.
  intros Hfg. induction l as [|x l IH]; [done|].
  by rewrite !fmap_cons, !concat_cons, !length_app, IH, Hfg.
Qed.

Lemma for_fold_names_length (items : list (string * option (Z * nat))) :
  ∀ acc names st st',
    for_fold items acc (λ item acc, do s <- lift_res (node_name item); ret (acc ++ [s])) st
    = (Ok names, st') →
    length names = (length acc + length items)%nat.
Proof.
  induction items as [|item items IH]; intros acc names st st'; simpl.
  - intros [= <- <-]. lia.
  - rewrite !bind_eq. destruct (node_name item) as [s|e]; simpl; [|done].
    intros H. apply IH in H. rewrite length_app in H. simpl in H. lia.
Qed.

(** [__len__] counts the nodes of the dictionary and changes nothing. *)
Lemma len_eq st a d :
  refs_valid st a = true → patterns_of st a = Some d →
  NodeSetBase___len__ a st = (Ok (Z.of_nat (length (nodes_of st d))), st).
Proof.
  intros Hvalid Hd.
  unfold NodeSetBase___len__. rewrite bind_eq. unfold patterns_of in Hd. unfold read_ns.
  destruct (nsets st !! a) as [o|] eqn:Ho; [|done]. injection Hd as <-. simpl.
  rewrite len_loop_eq.
  - rewrite Z.add_0_l. do 2 f_equal. unfold nodes_of.
    rewrite <- list_fmap_compose.
    rewrite (length_concat_Permutation _ _ _ (sorted_items_Permutation (_patterns o))).
    f_equal. apply length_concat_ext. intros [k v]. apply entry_items_length.
  - intros l ([k v] & Hv & Hin%elem_of_map_to_list)%list_elem_of_fmap. simpl in Hv.
    subst v. eapply (refs_valid_items st a (_patterns o)); [done| |done].
    unfold patterns_of. by rewrite Ho.
Qed.

(** X9.  For a node set whose RangeSets exist, [len(a)] is the number of
    nodes that the iteration over [a] yields: [__len__] sums over the
    dictionary in its own order what [_iter] enumerates in the order of the
    sorted templates, and every name that [__iter__] builds comes from one
    tuple of [_iter].  Neither [__len__] nor [_iter] changes the store. *)
Theorem len_is_the_number_of_nodes (st : state) (a : loc) :
  refs_valid st a = true →
  ∃ items,
    NodeSetBase__iter a st = (Ok items, st)
    ∧ NodeSetBase___len__ a st = (Ok (Z.of_nat (length items)), st)
    ∧ ∀ names st', NodeSetBase___iter__ a st = (Ok names, st') →
                   length names = length items.
Proof.
  intros Hvalid.
  destruct (patterns_of st a) as [d|] eqn:Hd; [|by unfold refs_valid in Hvalid; rewrite Hd in Hvalid].
  exists (nodes_of st d). pose proof (iter_eq st a d Hvalid Hd) as Hiter.
  split_and!; [done|by apply len_eq|].
  - intros names st'. unfold NodeSetBase___iter__. rewrite bind_eq, Hiter.
    intros H%for_fold_names_length. by rewrite H.
Qed.

Lemma len_is_the_number_of_nodes_witness :
  ∃ items,
    NodeSetBase__iter 1%positive demo_store = (Ok items, demo_store)
    ∧ NodeSetBase___len__ 1%positive demo_store = (Ok (Z.of_nat (length items)), demo_store)
    ∧ ∀ names st', NodeSetBase___iter__ 1%positive demo_store = (Ok names, st') →
                   length names = length items.
Proof.
  apply (len_is_the_number_of_nodes demo_store 1%positive). vm_compute; reflexivity.
Defined.

(** ** Indexing *)







(** ** The nodes of a node set *)
























(** ** The in-place methods as set operations *)



















